(** * Transcript viewer: segment-looping playback and segment export

    A shallow embedding of the [TranscriptViewer] component: its time
    model, word lookup, selection fine-tuning, the loop controller driven
    by Web Audio callbacks, and the WAV exporter.

    Number model.  JavaScript numbers that carry times are embedded as
    exact rationals ([Q]); rounding of IEEE doubles is outside the model.
    Audio samples are rationals extended with [NaN], which is what a typed
    array read past its end turns into.  Integers written through a
    [DataView] wrap around at their width, as in the engine. *)

From Stdlib Require Import ZArith QArith Qround Qminmax Qabs Lia Lqa.
From Stdlib Require Import String Ascii List Bool DecimalString.
From stdpp Require Import base list.

Open Scope Z_scope.

(** ** Comparisons on numbers *)

Definition Qleb (x y : Q) : bool := Qle_bool x y.
Definition Qltb (x y : Q) : bool := negb (Qle_bool y x).

(** ** Rounding primitives of the host language *)

(** [Math.round]: nearest integer, ties towards positive infinity. *)
Definition Math_round (x : Q) : Z := Qfloor (x + (1 # 2)).

(** Truncation towards zero, the integer part used by [%] and by the
    integer conversions of [DataView]. *)
Definition Qtrunc (x : Q) : Z :=
  if Qleb 0 x then Qfloor x else Qceiling x.

(** The remainder operator [x % m]: the result takes the sign of [x]. *)
Definition js_rem (x m : Q) : Q := (x - m * inject_Z (Qtrunc (x / m)))%Q.

(** Decimal digits of a non-negative integer. *)
Definition dec (n : Z) : string := NilZero.string_of_uint (N.to_uint (Z.to_N n)).

(** The last [f] decimal digits of [n], padded with zeros on the left. *)
Fixpoint fraction_digits (f : nat) (n : Z) : string :=
  match f with
  | O => EmptyString
  | S f' => (fraction_digits f' (n / 10) ++ dec (n mod 10))%string
  end.

(** [Number.prototype.toFixed] on a non-negative value: the integer [n]
    with [n / 10^f] closest to [x], the larger one on a tie, printed with
    [f] fraction digits. *)
Definition toFixed_nonneg (f : nat) (x : Q) : string :=
  let n := Qfloor (x * inject_Z (10 ^ Z.of_nat f) + (1 # 2)) in
  match f with
  | O => dec n
  | _ => (dec (n / 10 ^ Z.of_nat f) ++ "." ++ fraction_digits f n)%string
  end.

Definition toFixed (f : nat) (x : Q) : string :=
  if Qltb x 0 then ("-" ++ toFixed_nonneg f (- x))%string
  else toFixed_nonneg f x.

(** ** Time model *)

Definition msToSeconds (ms : Q) : Q := (ms / 1000)%Q.

Definition secondsToMs (seconds : Q) : Q := (seconds * 1000)%Q.

Definition formatTime (time : Q) : string :=
  let rounded := (inject_Z (Math_round (time * 10)) / 10)%Q in
  ((if Qeq_bool (js_rem rounded 1) 0 then toFixed 0 rounded
    else toFixed 1 rounded) ++ "s")%string.

(** ** Transcript data *)

Record Word := mkWord {
  word_text : string;
  word_start : Q;   (* milliseconds *)
  word_end : Q;     (* milliseconds *)
  word_confidence : option Q;
  word_speaker : option string
}.

Record TranscriptData := mkTranscript {
  words : list Word;
  language_code : option string;
  language_confidence : option Q
}.

(** The predicate handed to [Array.prototype.find] in
    [highlightCurrentWord]. *)
Definition word_contains (timeInMs : Q) (word : Word) : bool :=
  Qleb (word_start word) timeInMs && Qleb timeInMs (word_end word).

(** [words.find(...)]: the first word, in sequence order, that contains
    the instant. *)
Definition wordAt (ws : list Word) (timeInMs : Q) : option Word :=
  List.find (word_contains timeInMs) ws.

(** [words.indexOf(currentWord)] for the word [find] returned: the
    position of the first word that contains the instant. *)
Fixpoint wordIndexAt (ws : list Word) (timeInMs : Q) : option nat :=
  match ws with
  | [] => None
  | w :: rest =>
      if word_contains timeInMs w then Some O
      else option_map S (wordIndexAt rest timeInMs)
  end.

(** ** Selection *)

Record Selection := mkSelection {
  sel_start : Q;   (* milliseconds *)
  sel_end : Q;     (* milliseconds *)
  sel_text : string
}.

(** ** Audio data *)

(** A sample as the engine sees it: a finite value, or [NaN] (the result
    of storing [undefined], read past the end of a typed array, into a
    [Float32Array]). *)
Inductive num :=
| Fin (q : Q)
| NaN.

Record AudioBuffer := mkAudioBuffer {
  sampleRate : Q;
  buffer_length : N;                (* frames per channel *)
  channelData : list (list num)     (* one [Float32Array] per channel *)
}.

Definition numberOfChannels (b : AudioBuffer) : Z :=
  Z.of_nat (length (channelData b)).

Definition buffer_duration (b : AudioBuffer) : Q :=
  (inject_Z (Z.of_N (buffer_length b)) / sampleRate b)%Q.

(** Every channel holds [buffer_length] samples, as the engine guarantees
    for the buffers it creates and decodes. *)
Definition buffer_wf (b : AudioBuffer) : Prop :=
  Forall (fun ch => length ch = N.to_nat (buffer_length b)) (channelData b).

(** The fetched bytes, seen through what [decodeAudioData] makes of them:
    [None] when the decoder rejects them. *)
Record EncodedAudio := mkEncoded { decodes_to : option AudioBuffer }.

(** ** The component instance *)

(** A one-shot [AudioBufferSourceNode]; its handle is its position in
    [nodes]. *)
Inductive NodeStatus :=
| Sounding    (* started, neither stopped nor run to its end *)
| Halted      (* stopped or run out; [onended] not delivered yet *)
| Finished.   (* [onended] delivered *)

Record SourceNode := mkNode {
  node_offset : Q;
  node_duration : Q;
  node_status : NodeStatus;
  node_connected : bool
}.

(** A pending [setTimeout]: the only call site is the loop pause of
    [handleEnded], whose callback closes over [currentSelection]. *)
Record Timer := mkTimer {
  timer_delay : Z;                         (* milliseconds *)
  timer_selection : option Selection;      (* captured by the closure *)
  timer_pending : bool
}.

Record Toast := mkToast { toast_title : string; toast_description : string }.

(** [useState] cells. *)
Record ViewState := mkView {
  isPlaying : bool;
  currentTime : Q;
  duration : Q;                            (* seconds; 0 until decoded *)
  selection : option Selection;
  audioLoaded : bool;
  currentWordIndex : option nat;
  isPausing : bool;
  audioError : option string;
  audioArrayBuffer : option EncodedAudio;
  isDecoding : bool
}.

(** [useRef] cells. *)
Record Refs := mkRefs {
  audioCtxRef : bool;                      (* an AudioContext exists *)
  audioBufferRef : option AudioBuffer;
  sourceRef : option nat;
  startTimestampRef : Q;
  selectionOffsetRef : Q;
  sourceDurationRef : Q;
  rafRef : option nat;
  timeoutRef : option nat;
  selectionRef : option Selection
}.

(** The host: audio engine, timers, animation frames, toasts. *)
Record Host := mkHost {
  webAudioSupported : bool;
  ctx_currentTime : Q;
  nodes : list SourceNode;
  timers : list Timer;
  frames : nat;                            (* animation frames requested *)
  toasts : list Toast;
  downloads : list (string * list Z)       (* files handed to the browser *)
}.

Record World := mkWorld {
  transcriptData : TranscriptData;         (* props *)
  view : ViewState;
  refs : Refs;
  host : Host
}.

Notation "w |> f" := (f w) (at level 45, left associativity, only parsing).

(** Field updates; the [set...] names are the [useState] setters. *)

Definition with_view (f : ViewState -> ViewState) (w : World) : World :=
  mkWorld (transcriptData w) (f (view w)) (refs w) (host w).
Definition with_refs (f : Refs -> Refs) (w : World) : World :=
  mkWorld (transcriptData w) (view w) (f (refs w)) (host w).
Definition with_host (f : Host -> Host) (w : World) : World :=
  mkWorld (transcriptData w) (view w) (refs w) (f (host w)).

Definition setIsPlaying (b : bool) : World -> World :=
  with_view (fun v => mkView b (currentTime v) (duration v) (selection v)
    (audioLoaded v) (currentWordIndex v) (isPausing v) (audioError v)
    (audioArrayBuffer v) (isDecoding v)).
Definition setCurrentTime (t : Q) : World -> World :=
  with_view (fun v => mkView (isPlaying v) t (duration v) (selection v)
    (audioLoaded v) (currentWordIndex v) (isPausing v) (audioError v)
    (audioArrayBuffer v) (isDecoding v)).
Definition setDuration (d : Q) : World -> World :=
  with_view (fun v => mkView (isPlaying v) (currentTime v) d (selection v)
    (audioLoaded v) (currentWordIndex v) (isPausing v) (audioError v)
    (audioArrayBuffer v) (isDecoding v)).
Definition setAudioLoaded (b : bool) : World -> World :=
  with_view (fun v => mkView (isPlaying v) (currentTime v) (duration v)
    (selection v) b (currentWordIndex v) (isPausing v) (audioError v)
    (audioArrayBuffer v) (isDecoding v)).
Definition setCurrentWordIndex (i : option nat) : World -> World :=
  with_view (fun v => mkView (isPlaying v) (currentTime v) (duration v)
    (selection v) (audioLoaded v) i (isPausing v) (audioError v)
    (audioArrayBuffer v) (isDecoding v)).
Definition setIsPausing (b : bool) : World -> World :=
  with_view (fun v => mkView (isPlaying v) (currentTime v) (duration v)
    (selection v) (audioLoaded v) (currentWordIndex v) b (audioError v)
    (audioArrayBuffer v) (isDecoding v)).
Definition setAudioError (e : option string) : World -> World :=
  with_view (fun v => mkView (isPlaying v) (currentTime v) (duration v)
    (selection v) (audioLoaded v) (currentWordIndex v) (isPausing v) e
    (audioArrayBuffer v) (isDecoding v)).
Definition setAudioArrayBuffer (a : option EncodedAudio) : World -> World :=
  with_view (fun v => mkView (isPlaying v) (currentTime v) (duration v)
    (selection v) (audioLoaded v) (currentWordIndex v) (isPausing v)
    (audioError v) a (isDecoding v)).
Definition setIsDecoding (b : bool) : World -> World :=
  with_view (fun v => mkView (isPlaying v) (currentTime v) (duration v)
    (selection v) (audioLoaded v) (currentWordIndex v) (isPausing v)
    (audioError v) (audioArrayBuffer v) b).

Definition set_audioCtxRef (b : bool) : World -> World :=
  with_refs (fun r => mkRefs b (audioBufferRef r) (sourceRef r)
    (startTimestampRef r) (selectionOffsetRef r) (sourceDurationRef r)
    (rafRef r) (timeoutRef r) (selectionRef r)).
Definition set_audioBufferRef (b : option AudioBuffer) : World -> World :=
  with_refs (fun r => mkRefs (audioCtxRef r) b (sourceRef r)
    (startTimestampRef r) (selectionOffsetRef r) (sourceDurationRef r)
    (rafRef r) (timeoutRef r) (selectionRef r)).
Definition set_sourceRef (s : option nat) : World -> World :=
  with_refs (fun r => mkRefs (audioCtxRef r) (audioBufferRef r) s
    (startTimestampRef r) (selectionOffsetRef r) (sourceDurationRef r)
    (rafRef r) (timeoutRef r) (selectionRef r)).
Definition set_startTimestampRef (t : Q) : World -> World :=
  with_refs (fun r => mkRefs (audioCtxRef r) (audioBufferRef r) (sourceRef r)
    t (selectionOffsetRef r) (sourceDurationRef r)
    (rafRef r) (timeoutRef r) (selectionRef r)).
Definition set_selectionOffsetRef (t : Q) : World -> World :=
  with_refs (fun r => mkRefs (audioCtxRef r) (audioBufferRef r) (sourceRef r)
    (startTimestampRef r) t (sourceDurationRef r)
    (rafRef r) (timeoutRef r) (selectionRef r)).
Definition set_sourceDurationRef (t : Q) : World -> World :=
  with_refs (fun r => mkRefs (audioCtxRef r) (audioBufferRef r) (sourceRef r)
    (startTimestampRef r) (selectionOffsetRef r) t
    (rafRef r) (timeoutRef r) (selectionRef r)).
Definition set_rafRef (f : option nat) : World -> World :=
  with_refs (fun r => mkRefs (audioCtxRef r) (audioBufferRef r) (sourceRef r)
    (startTimestampRef r) (selectionOffsetRef r) (sourceDurationRef r)
    f (timeoutRef r) (selectionRef r)).
Definition set_timeoutRef (t : option nat) : World -> World :=
  with_refs (fun r => mkRefs (audioCtxRef r) (audioBufferRef r) (sourceRef r)
    (startTimestampRef r) (selectionOffsetRef r) (sourceDurationRef r)
    (rafRef r) t (selectionRef r)).

(** [setSelection], together with the effect that copies the committed
    selection into [selectionRef] after the render. *)
Definition setSelection (s : Selection) : World -> World :=
  fun w =>
    w |> with_view (fun v => mkView (isPlaying v) (currentTime v)
           (duration v) (Some s) (audioLoaded v) (currentWordIndex v)
           (isPausing v) (audioError v) (audioArrayBuffer v) (isDecoding v))
      |> with_refs (fun r => mkRefs (audioCtxRef r) (audioBufferRef r)
           (sourceRef r) (startTimestampRef r) (selectionOffsetRef r)
           (sourceDurationRef r) (rafRef r) (timeoutRef r) (Some s)).

Definition set_ctx_currentTime (t : Q) : World -> World :=
  with_host (fun h => mkHost (webAudioSupported h) t (nodes h) (timers h)
    (frames h) (toasts h) (downloads h)).
Definition set_nodes (ns : list SourceNode) : World -> World :=
  with_host (fun h => mkHost (webAudioSupported h) (ctx_currentTime h) ns
    (timers h) (frames h) (toasts h) (downloads h)).
Definition set_timers (ts : list Timer) : World -> World :=
  with_host (fun h => mkHost (webAudioSupported h) (ctx_currentTime h)
    (nodes h) ts (frames h) (toasts h) (downloads h)).
Definition set_frames (n : nat) : World -> World :=
  with_host (fun h => mkHost (webAudioSupported h) (ctx_currentTime h)
    (nodes h) (timers h) n (toasts h) (downloads h)).
Definition toast (title description : string) : World -> World :=
  with_host (fun h => mkHost (webAudioSupported h) (ctx_currentTime h)
    (nodes h) (timers h) (frames h)
    (toasts h ++ [mkToast title description]) (downloads h)).
Definition download (filename : string) (bytes : list Z) : World -> World :=
  with_host (fun h => mkHost (webAudioSupported h) (ctx_currentTime h)
    (nodes h) (timers h) (frames h) (toasts h)
    (downloads h ++ [(filename, bytes)])).

(** ** Fine-tuning the selection *)

Definition adjustStartTime (delta : Q) (w : World) : World :=
  match selection (view w) with
  | None => w
  | Some sel =>
      let currentStartSeconds := msToSeconds (sel_start sel) in
      let currentEndSeconds := msToSeconds (sel_end sel) in
      let newStartTime :=
        Qmax 0 (Qmin (currentStartSeconds + delta) (currentEndSeconds - 0.1))%Q in
      setSelection
        (mkSelection (secondsToMs newStartTime) (sel_end sel) (sel_text sel)) w
  end.

Definition adjustEndTime (delta : Q) (w : World) : World :=
  match selection (view w) with
  | None => w
  | Some sel =>
      let currentStartSeconds := msToSeconds (sel_start sel) in
      let currentEndSeconds := msToSeconds (sel_end sel) in
      let newEndTime :=
        Qmax (currentStartSeconds + 0.1)
             (Qmin (currentEndSeconds + delta) (duration (view w)))%Q in
      setSelection
        (mkSelection (sel_start sel) (secondsToMs newEndTime) (sel_text sel)) w
  end.

(** A fine-tune request, and a sequence of them applied in order. *)
Inductive Adjustment :=
| AdjustStart (delta : Q)
| AdjustEnd (delta : Q).

Definition adjust (a : Adjustment) (w : World) : World :=
  match a with
  | AdjustStart delta => adjustStartTime delta w
  | AdjustEnd delta => adjustEndTime delta w
  end.

Definition adjust_all (l : list Adjustment) (w : World) : World :=
  fold_left (fun acc a => adjust a acc) l w.

(** The component as mounted: the initial values of its [useState] and
    [useRef] cells, over a host that has created nothing yet. *)
Definition initial_world (td : TranscriptData) (supported : bool) : World :=
  mkWorld td
    (mkView false 0%Q 0%Q None false None false None None false)
    (mkRefs false None None 0%Q 0%Q 0%Q None None None)
    (mkHost supported 0%Q [] [] O [] []).

(** The selection invariants of the data model, against a total duration
    in milliseconds. *)
Definition selection_in_range (total : Q) (s : Selection) : Prop :=
  (0 <= sel_start s)%Q /\ (sel_start s < sel_end s)%Q /\ (sel_end s <= total)%Q.

Definition selection_min_length (s : Selection) : Prop :=
  (100 <= sel_end s - sel_start s)%Q.

Definition totalDurationMs (w : World) : Q := secondsToMs (duration (view w)).

(** ** Byte buffers and [DataView] *)

Inductive Exn :=
| RangeError          (* negative buffer length, or a write outside the view *)
| NotSupportedError   (* the engine refuses the buffer dimensions *)
| Diverged.           (* the frame loop ran out of iterations *)

Inductive result (A : Type) :=
| Ok (a : A)
| Throw (e : Exn).
Arguments Ok {A} a.
Arguments Throw {A} e.

(** [new ArrayBuffer(length)]: zero filled. *)
Definition new_ArrayBuffer (len : Z) : result (list Z) :=
  if len <? 0 then Throw RangeError else Ok (replicate (Z.to_nat len) 0).

(** The [width] little-endian bytes of [v]. *)
Fixpoint le_bytes (width : nat) (v : Z) : list Z :=
  match width with
  | O => []
  | S width' => v mod 256 :: le_bytes width' (v / 256)
  end.

Fixpoint write_at (i : nat) (bs : list Z) (buf : list Z) : list Z :=
  match bs with
  | [] => buf
  | b :: rest => write_at (S i) rest (<[i := b]> buf)
  end.

(** A bounds-checked store of consecutive bytes, as every [DataView]
    setter performs it. *)
Definition DataView_set (p : Z) (bs : list Z) (buf : list Z) : result (list Z) :=
  if (0 <=? p) && (p + Z.of_nat (length bs) <=? Z.of_nat (length buf))
  then Ok (write_at (Z.to_nat p) bs buf)
  else Throw RangeError.

(** Integer conversions applied by the setters: truncate, then wrap. *)
Definition ToUint16 (x : Q) : Z := Qtrunc x mod 2 ^ 16.
Definition ToUint32 (x : Q) : Z := Qtrunc x mod 2 ^ 32.
Definition ToInt16 (x : num) : Z :=
  match x with
  | NaN => 0
  | Fin q =>
      let m := Qtrunc q mod 2 ^ 16 in
      if 2 ^ 15 <=? m then m - 2 ^ 16 else m
  end.

(** Little-endian reads, [DataView.getUint32(p, true)] and
    [DataView.getInt16(p, true)], used to state what a file contains. *)
Definition byte_at (buf : list Z) (p : Z) : Z :=
  match buf !! Z.to_nat p with Some b => b | None => 0 end.

Definition getUint16 (buf : list Z) (p : Z) : Z :=
  byte_at buf p + 256 * byte_at buf (p + 1).

Definition getUint32 (buf : list Z) (p : Z) : Z :=
  byte_at buf p + 256 * (byte_at buf (p + 1)
    + 256 * (byte_at buf (p + 2) + 256 * byte_at buf (p + 3))).

Definition getInt16 (buf : list Z) (p : Z) : Z :=
  let u := getUint16 buf p in
  if 2 ^ 15 <=? u then u - 2 ^ 16 else u.

(** The writer of [audioBufferToWav]: the view and the cursor [pos] that
    its local helpers advance. *)
Record Writer := mkWriter { wr_bytes : list Z; wr_pos : Z }.

Definition W (A : Type) : Type := Writer -> result (A * Writer).

Definition ret {A : Type} (a : A) : W A := fun s => Ok (a, s).

Definition bind {A B : Type} (m : W A) (k : A -> W B) : W B :=
  fun s => match m s with
           | Ok (a, s') => k a s'
           | Throw e => Throw e
           end.

Notation "x <- m ;; k" := (bind m (fun x => k))
  (at level 100, m at next level, right associativity).
Notation "m ;; k" := (bind m (fun _ => k))
  (at level 100, right associativity).

Definition get_pos : W Z := fun s => Ok (wr_pos s, s).

Definition view_set (bs : list Z) : W unit :=
  fun s =>
    match DataView_set (wr_pos s) bs (wr_bytes s) with
    | Ok buf => Ok (tt, mkWriter buf (wr_pos s + Z.of_nat (length bs)))
    | Throw e => Throw e
    end.

Definition setUint16 (data : Q) : W unit := view_set (le_bytes 2 (ToUint16 data)).

Definition setUint32 (data : Q) : W unit := view_set (le_bytes 4 (ToUint32 data)).

(** [view.setInt16(pos, sample, true); pos += 2]: the two's complement
    bytes of the converted sample. *)
Definition setInt16 (sample : num) : W unit :=
  view_set (le_bytes 2 (ToInt16 sample mod 2 ^ 16)).

(** ** Samples *)

(** Indexing a [Float32Array]: past either end the read is [undefined],
    which every numeric use below turns into [NaN]. *)
Definition typed_get (a : list num) (i : Z) : num :=
  if i <? 0 then NaN
  else match a !! Z.to_nat i with Some x => x | None => NaN end.

Definition Math_min (a : Q) (x : num) : num :=
  match x with Fin q => Fin (Qmin a q) | NaN => NaN end.

Definition Math_max (a : Q) (x : num) : num :=
  match x with Fin q => Fin (Qmax a q) | NaN => NaN end.

(** The body of the inner loop: clamp, then scale to 16 bits. *)
Definition scale_sample (x : num) : num :=
  let sample := Math_max (-1) (Math_min 1 x) in
  match sample with
  | Fin q => if Qltb q 0 then Fin (q * 32768) else Fin (q * 32767)
  | NaN => NaN   (* [NaN < 0] is false, and [NaN * 0x7FFF] is [NaN] *)
  end.

(** ** The WAV encoder *)

(** One pass of the inner [for]: a sample of every channel at [offset]. *)
Fixpoint writeFrame (channels : list (list num)) (offset : Z) : W unit :=
  match channels with
  | [] => ret tt
  | ch :: rest =>
      setInt16 (scale_sample (typed_get ch offset)) ;;
      writeFrame rest offset
  end.

(** [while (pos < length) { ...; offset++ }], bounded by [fuel]
    iterations. *)
Fixpoint writeFrames (fuel : nat) (len : Z) (channels : list (list num))
    (offset : Z) : W unit :=
  match fuel with
  | O => fun _ => Throw Diverged
  | S fuel' =>
      pos <- get_pos ;;
      if pos <? len then
        writeFrame channels offset ;;
        writeFrames fuel' len channels (offset + 1)
      else ret tt
  end.

Definition audioBufferToWav (buffer : AudioBuffer) : result (list Z) :=
  let numberOfChannels := numberOfChannels buffer in
  let len := Z.of_N (buffer_length buffer) * numberOfChannels * 2 + 44 in
  match new_ArrayBuffer len with
  | Throw e => Throw e
  | Ok arrayBuffer =>
      let channels := channelData buffer in
      let program :=
        (* RIFF identifier *)
        setUint32 (inject_Z 0x46464952) ;;
        setUint32 (inject_Z (len - 8)) ;;
        setUint32 (inject_Z 0x45564157) ;;
        (* fmt sub-chunk *)
        setUint32 (inject_Z 0x20746d66) ;;
        setUint32 16 ;;
        setUint16 1 ;;
        setUint16 (inject_Z numberOfChannels) ;;
        setUint32 (sampleRate buffer) ;;
        setUint32 (sampleRate buffer * 2 * inject_Z numberOfChannels) ;;
        setUint16 (inject_Z (numberOfChannels * 2)) ;;
        setUint16 16 ;;
        (* data sub-chunk *)
        setUint32 (inject_Z 0x61746164) ;;
        pos <- get_pos ;;
        setUint32 (inject_Z (len - pos - 4)) ;;
        (* interleaved data *)
        writeFrames (S (N.to_nat (buffer_length buffer))) len channels 0
      in
      match program (mkWriter arrayBuffer 0) with
      | Ok (_, s) => Ok (wr_bytes s)
      | Throw e => Throw e
      end
  end.

(** ** Exporting the selection *)

(** [offlineContext.createBuffer(channels, length, sampleRate)]: silence,
    or [NotSupportedError] when a dimension is not positive. *)
Definition createBuffer (channels : Z) (len : Z) (rate : Q) : result AudioBuffer :=
  if (1 <=? channels) && (1 <=? len) then
    Ok (mkAudioBuffer rate (Z.to_N len)
          (replicate (Z.to_nat channels) (replicate (Z.to_nat len) (Fin 0))))
  else Throw NotSupportedError.

(** The inner copy loop: [targetData[i] = sourceData[startSample + i]]
    for [i] from 0 up to [lengthInSamples]. *)
Definition copySamples (sourceData targetData : list num)
    (startSample lengthInSamples : Z) : list num :=
  fold_left
    (fun target i => <[i := typed_get sourceData (startSample + Z.of_nat i)]> target)
    (seq 0 (Z.to_nat lengthInSamples)) targetData.

(** The outer copy loop, channel by channel. *)
Definition copyChannels (source target : list (list num))
    (startSample lengthInSamples : Z) : list (list num) :=
  fold_left
    (fun tgt channel =>
       match source !! channel, tgt !! channel with
       | Some sourceData, Some targetData =>
           <[channel := copySamples sourceData targetData startSample lengthInSamples]> tgt
       | _, _ => tgt
       end)
    (seq 0 (length source)) target.

(** The new buffer [handleDownload] fills with the selected range. *)
Definition segmentBuffer (audioBuffer : AudioBuffer) (sel : Selection)
    : result AudioBuffer :=
  let rate := sampleRate audioBuffer in
  let channels := numberOfChannels audioBuffer in
  let startSample := Qfloor (sel_start sel / 1000 * rate) in
  let endSample := Qceiling (sel_end sel / 1000 * rate) in
  let lengthInSamples := endSample - startSample in
  (* new OfflineAudioContext(...) and createBuffer(...) check alike *)
  match createBuffer channels lengthInSamples rate with
  | Throw e => Throw e
  | Ok newBuffer =>
      Ok (mkAudioBuffer (sampleRate newBuffer) (buffer_length newBuffer)
            (copyChannels (channelData audioBuffer) (channelData newBuffer)
               startSample lengthInSamples))
  end.

Definition download_filename (sel : Selection) : string :=
  ("selection_" ++ toFixed 1 (sel_start sel / 1000) ++ "s-"
     ++ toFixed 1 (sel_end sel / 1000) ++ "s.wav")%string.

Definition handleDownload (w : World) : World :=
  match selection (view w), audioBufferRef (refs w) with
  | Some sel, Some audioBuffer =>
      let w := toast "Preparing Download" "Processing audio segment..." w in
      let attempt :=
        match segmentBuffer audioBuffer sel with
        | Throw e => Throw e
        | Ok newBuffer => audioBufferToWav newBuffer
        end in
      match attempt with
      | Ok wavBlob =>
          let filename := download_filename sel in
          w |> download filename wavBlob
            |> toast "Download Complete" ("Saved " ++ filename)
      | Throw _ =>
          toast "Download Error"
            "Failed to download audio segment. Please try again." w
      end
  | _, _ => w
  end.

(** ** What an encoded file consists of *)

(** The two bytes [setInt16] stores for the sample of channel [ch] at
    frame [offset]. *)
Definition sample_bytes (offset : Z) (ch : list num) : list Z :=
  le_bytes 2 (ToInt16 (scale_sample (typed_get ch offset)) mod 2 ^ 16).

(** [k] interleaved frames, from frame [offset] on. *)
Definition frames_bytes (channels : list (list num)) (offset : Z) (k : nat)
    : list Z :=
  concat (map (fun j => concat (map (sample_bytes (offset + Z.of_nat j)) channels))
              (seq 0 k)).

(** The 44 header bytes for a file of [len] bytes. *)
Definition wav_header (buffer : AudioBuffer) (len : Z) : list Z :=
  le_bytes 4 (ToUint32 (inject_Z 0x46464952))
  ++ le_bytes 4 (ToUint32 (inject_Z (len - 8)))
  ++ le_bytes 4 (ToUint32 (inject_Z 0x45564157))
  ++ le_bytes 4 (ToUint32 (inject_Z 0x20746d66))
  ++ le_bytes 4 (ToUint32 16)
  ++ le_bytes 2 (ToUint16 1)
  ++ le_bytes 2 (ToUint16 (inject_Z (numberOfChannels buffer)))
  ++ le_bytes 4 (ToUint32 (sampleRate buffer))
  ++ le_bytes 4 (ToUint32 (sampleRate buffer * 2 * inject_Z (numberOfChannels buffer)))
  ++ le_bytes 2 (ToUint16 (inject_Z (numberOfChannels buffer * 2)))
  ++ le_bytes 2 (ToUint16 16)
  ++ le_bytes 4 (ToUint32 (inject_Z 0x61746164))
  ++ le_bytes 4 (ToUint32 (inject_Z (len - 44))).

(** Total length of the file [audioBufferToWav] allocates. *)
Definition wav_length (buffer : AudioBuffer) : Z :=
  Z.of_N (buffer_length buffer) * numberOfChannels buffer * 2 + 44.

(** A decodable recording of 2^26 silent frames on 32 channels: its
    encoding needs 2^32 + 44 bytes. *)
Definition long_recording : AudioBuffer :=
  mkAudioBuffer 48000 (2 ^ 26)%N
    (replicate 32 (replicate (N.to_nat (2 ^ 26)) (Fin 0))).

(** A viewer whose audio bytes have arrived and whose user has picked a
    selection, before the first play request (nothing decoded yet). *)
Definition loaded_world (enc : EncodedAudio) (sel : Selection) : World :=
  initial_world (mkTranscript [] None None) true
    |> setAudioArrayBuffer (Some enc)
    |> setAudioLoaded true
    |> setSelection sel.

(** A viewer that has decoded [b] and holds the selection [sel]. *)
Definition decoded_world (b : AudioBuffer) (sel : Selection) : World :=
  loaded_world (mkEncoded (Some b)) sel
    |> set_audioCtxRef true
    |> set_audioBufferRef (Some b)
    |> setDuration (buffer_duration b).

(** Four samples at 1 kHz, two of them outside [-1, 1]. *)
Definition four_samples : AudioBuffer :=
  mkAudioBuffer 1000 4 [[Fin 0.5; Fin (-0.5); Fin 1.5; Fin (-2)]].

(** ** Playback

    Handlers are embedded as transitions of the whole [World], each run to
    completion: the awaits inside [togglePlayPause] and [playSelection]
    (context resume, decoding) are taken to resolve before the next event
    is dispatched. *)

Inductive PlaybackState :=
| Stopped
| Playing
| PausedBetweenLoops.

(** The playback state the two flags [isPlaying] and [isPausing] encode;
    the view shows its pause button whenever either is set. *)
Definition playbackState (w : World) : PlaybackState :=
  if isPausing (view w) then PausedBetweenLoops
  else if isPlaying (view w) then Playing
  else Stopped.

Definition loopPauseDuration : Z := 200.

Definition isLooping : bool := true.

Definition is_some {A : Type} (o : option A) : bool :=
  match o with Some _ => true | None => false end.

(** *** The engine *)

(** [ctx.createBufferSource()], wiring, and [source.start(0, offset,
    duration)]: a new sounding node; its handle is returned. *)
Definition start_node (offset durationSec : Q) (w : World) : nat * World :=
  (length (nodes (host w)),
   set_nodes (nodes (host w) ++ [mkNode offset durationSec Sounding true]) w).

(** [source.stop()] under [try]/[catch]: silences a sounding node; on a
    node that has already stopped it changes nothing. *)
Definition stop_node (id : nat) (w : World) : World :=
  match nodes (host w) !! id with
  | Some n =>
      match node_status n with
      | Sounding =>
          set_nodes (<[id := mkNode (node_offset n) (node_duration n)
                              Halted (node_connected n)]> (nodes (host w))) w
      | _ => w
      end
  | None => w
  end.

Definition disconnect_node (id : nat) (w : World) : World :=
  match nodes (host w) !! id with
  | Some n =>
      set_nodes (<[id := mkNode (node_offset n) (node_duration n)
                          (node_status n) false]> (nodes (host w))) w
  | None => w
  end.

(** [setTimeout(callback, delay)] for the loop restart; the callback
    closes over [captured]. *)
Definition setTimeout (captured : option Selection) (delay : Z) (w : World)
    : nat * World :=
  (length (timers (host w)),
   set_timers (timers (host w) ++ [mkTimer delay captured true]) w).

Definition clearTimeout (id : nat) (w : World) : World :=
  match timers (host w) !! id with
  | Some t =>
      set_timers (<[id := mkTimer (timer_delay t) (timer_selection t) false]>
                    (timers (host w))) w
  | None => w
  end.

(** *** Progress feed *)

Definition cancelRaf (w : World) : World :=
  match rafRef (refs w) with
  | Some _ => set_rafRef None w
  | None => w
  end.

(** [rafRef.current = requestAnimationFrame(tick)]. *)
Definition requestFrame (w : World) : World :=
  w |> set_rafRef (Some (frames (host w))) |> set_frames (S (frames (host w))).

Definition startRaf (w : World) : World := requestFrame w.

(** The state change of [highlightCurrentWord]; scrolling is left out. *)
Definition highlightCurrentWord (timeInSeconds : Q) (w : World) : World :=
  let timeInMs := (timeInSeconds * 1000)%Q in
  match wordIndexAt (words (transcriptData w)) timeInMs with
  | Some index => setCurrentWordIndex (Some index) w
  | None => w
  end.

(** One animation frame.  [isPlaying] and [selection] are the values the
    closure captured in the render that scheduled it. *)
Definition tick (cl_isPlaying : bool) (cl_selection : option Selection)
    (w : World) : World :=
  if negb cl_isPlaying || negb (is_some cl_selection)
     || negb (audioCtxRef (refs w))
  then set_rafRef None w
  else
    let elapsed := (ctx_currentTime (host w) - startTimestampRef (refs w))%Q in
    let currentSec := (selectionOffsetRef (refs w) + elapsed)%Q in
    let w := setCurrentTime currentSec w in
    let w := highlightCurrentWord currentSec w in
    let passed :=
      match selectionRef (refs w) with
      | Some currentSelection => Qleb (msToSeconds (sel_end currentSelection)) currentSec
      | None => false
      end in
    if passed then
      let w := match sourceRef (refs w) with
               | Some id => stop_node id w
               | None => w
               end in
      cancelRaf w
    else requestFrame w.

(** *** Stopping and starting *)

Definition clear_pending_timeout (w : World) : World :=
  match timeoutRef (refs w) with
  | Some id => w |> clearTimeout id |> set_timeoutRef None
  | None => w
  end.

Definition stopCurrentSource (w : World) : World :=
  let w := cancelRaf w in
  let w := clear_pending_timeout w in
  let w := match sourceRef (refs w) with
           | Some id => w |> stop_node id |> disconnect_node id
                          |> set_sourceRef None
           | None => w
           end in
  w |> setIsPlaying false |> setIsPausing false.

Definition handlePlayError (errorMessage : string) (w : World) : World :=
  w |> setAudioError (Some errorMessage)
    |> setIsDecoding false
    |> toast "Playback Error" errorMessage
    |> setIsPlaying false
    |> setIsPausing false.

(** [false] stands for the [null] returned after reporting the error. *)
Definition getOrCreateAudioContext (w : World) : bool * World :=
  if audioCtxRef (refs w) then (true, w)
  else if webAudioSupported (host w) then (true, set_audioCtxRef true w)
  else (false, handlePlayError "Web Audio API is not supported in this browser" w).

(** The block [togglePlayPause] and [playSelection] share: obtain the
    context, decode on first use.  [None] when the handler returns early,
    the error having been reported. *)
Definition prepareAudio (enc : EncodedAudio) (w : World)
    : World * option AudioBuffer :=
  let (ok, w) := getOrCreateAudioContext w in
  if negb ok then (w, None)
  else
    match audioBufferRef (refs w) with
    | Some b => (w, Some b)
    | None =>
        let w := setIsDecoding true w in
        match decodes_to enc with
        | None =>
            (handlePlayError
               "Failed to decode audio. The file may be corrupted or in an unsupported format."
               w, None)
        | Some decodedBuffer =>
            (w |> setIsDecoding false
               |> set_audioBufferRef (Some decodedBuffer)
               |> setDuration (buffer_duration decodedBuffer),
             Some decodedBuffer)
        end
    end.

(** The block all three start sites share: create and start the node,
    record clock, offset and duration, register [onended] (see
    [source_onended]), record the handle, start the progress feed. *)
Definition startOneShot (offset durationSec : Q) (w : World) : World :=
  let (source, w) := start_node offset durationSec w in
  w |> set_startTimestampRef (ctx_currentTime (host w))
    |> set_selectionOffsetRef offset
    |> set_sourceDurationRef durationSec
    |> set_sourceRef (Some source)
    |> setIsPlaying true
    |> startRaf.

Definition togglePlayPause (w : World) : World :=
  let w := clear_pending_timeout w in
  if isPlaying (view w) || isPausing (view w) then stopCurrentSource w
  else
    let w := setAudioError None w in
    match selection (view w), audioArrayBuffer (view w) with
    | Some sel, Some enc =>
        match prepareAudio enc w with
        | (w, None) => w
        | (w, Some _) =>
            let offset := msToSeconds (sel_start sel) in
            let durationSec := msToSeconds (sel_end sel - sel_start sel) in
            startOneShot offset durationSec w
        end
    | _, _ => handlePlayError "No audio data or selection available" w
    end.

Definition playSelection (sel : Selection) (w : World) : World :=
  let w := stopCurrentSource w in
  let w := setAudioError None w in
  match audioArrayBuffer (view w) with
  | None => handlePlayError "No audio data available" w
  | Some enc =>
      match prepareAudio enc w with
      | (w, None) => w
      | (w, Some _) =>
          let offset := msToSeconds (sel_start sel) in
          let durationSec := msToSeconds (sel_end sel - sel_start sel) in
          startOneShot offset durationSec w
      end
  end.

(** The callback [handleEnded] hands to [setTimeout]; [currentSelection]
    is the variable of the enclosing [handleEnded] call. *)
Definition loopRestart (currentSelection : option Selection) (w : World) : World :=
  let w := setIsPausing false w in
  match currentSelection with
  | Some sel =>
      if audioCtxRef (refs w) && is_some (audioBufferRef (refs w))
      then playSelection sel w
      else w
  | None => w
  end.

Definition handleEnded (w : World) : World :=
  let currentSelection := selectionRef (refs w) in
  let w := cancelRaf w in
  let sourceEndedAt :=
    (selectionOffsetRef (refs w) + sourceDurationRef (refs w))%Q in
  let currentSelectionEnd :=
    match currentSelection with
    | Some s => msToSeconds (sel_end s)
    | None => 0%Q
    end in
  let w := set_sourceRef None w in
  if is_some currentSelection
     && Qltb sourceEndedAt (currentSelectionEnd - 0.01)%Q
  then
    if audioCtxRef (refs w) && is_some (audioBufferRef (refs w)) then
      let extensionDuration := (currentSelectionEnd - sourceEndedAt)%Q in
      startOneShot sourceEndedAt extensionDuration w
    else w
  else if is_some currentSelection && isLooping then
    let w := setIsPausing true w in
    let (id, w) := setTimeout currentSelection loopPauseDuration w in
    set_timeoutRef (Some id) w
  else
    w |> setIsPlaying false |> setIsPausing false.

(** The [onended] closure every start site installs on its node. *)
Definition source_onended (thisSource : nat) (w : World) : World :=
  match sourceRef (refs w) with
  | Some current => if Nat.eqb current thisSource then handleEnded w else w
  | None => w
  end.

(** *** Selecting words *)

Definition lower_ascii (c : ascii) : ascii :=
  let n := nat_of_ascii c in
  if (65 <=? n)%nat && (n <=? 90)%nat then ascii_of_nat (n + 32) else c.

Fixpoint toLowerCase (s : string) : string :=
  match s with
  | EmptyString => EmptyString
  | String c rest => String (lower_ascii c) (toLowerCase rest)
  end.

Definition shouldUseWordSpacing (languageCode : option string) : bool :=
  let noSpaceLanguages := ["ja"; "zh"; "ko"; "th"; "lo"; "km"; "my"]%string in
  let code := match languageCode with
              | Some c => toLowerCase c
              | None => EmptyString
              end in
  negb (existsb (String.eqb code) noSpaceLanguages).

Definition getWordSeparator (languageCode : option string) : string :=
  if shouldUseWordSpacing languageCode then " "%string else EmptyString.

Definition handleWordClick (word : Word) (w : World) : World :=
  let chosen := mkSelection (word_start word) (word_end word) (word_text word) in
  let playing := isPlaying (view w) in
  let w := setSelection chosen w in
  if playing then playSelection chosen w else w.

Definition processWordSelection (startIndex endIndex : nat) (w : World) : World :=
  let minIndex := Nat.min startIndex endIndex in
  let maxIndex := Nat.max startIndex endIndex in
  let ws := words (transcriptData w) in
  match ws !! minIndex, ws !! maxIndex with
  | Some first, Some last =>
      let selectedText :=
        String.concat (getWordSeparator (language_code (transcriptData w)))
          (map word_text (take (S maxIndex - minIndex) (drop minIndex ws))) in
      let playing := isPlaying (view w) in
      let w := setSelection
                 (mkSelection (word_start first) (word_end last) selectedText) w in
      if playing then w |> stopCurrentSource |> setIsPlaying false else w
  | _, _ => w
  end.

(** *** Events *)

Inductive Event :=
| EvAudioLoaded (enc : EncodedAudio)
| EvTogglePlayPause
| EvAdjustStart (delta : Q)
| EvAdjustEnd (delta : Q)
| EvWordClick (index : nat)
| EvSelectWords (startIndex endIndex : nat)
| EvDownload
| EvClock (dt : Q)                       (* the engine clock advances *)
| EvFrame (cl_isPlaying : bool) (cl_selection : option Selection)
| EvSourceEnded (id : nat)               (* a node reports [onended] *)
| EvTimeout (id : nat).                  (* a pending timer fires *)

(** The engine marks the node finished, then runs its [onended]. *)
Definition deliver_ended (id : nat) (w : World) : World :=
  match nodes (host w) !! id with
  | Some n =>
      match node_status n with
      | Finished => w
      | _ =>
          w |> set_nodes (<[id := mkNode (node_offset n) (node_duration n)
                                   Finished (node_connected n)]> (nodes (host w)))
            |> source_onended id
      end
  | None => w
  end.

Definition deliver_timeout (id : nat) (w : World) : World :=
  match timers (host w) !! id with
  | Some t =>
      if timer_pending t then
        w |> set_timers (<[id := mkTimer (timer_delay t) (timer_selection t) false]>
                           (timers (host w)))
          |> loopRestart (timer_selection t)
      else w
  | None => w
  end.

Definition step (e : Event) (w : World) : World :=
  match e with
  | EvAudioLoaded enc =>
      w |> setAudioError None |> setAudioArrayBuffer (Some enc)
        |> setAudioLoaded true
  | EvTogglePlayPause => togglePlayPause w
  | EvAdjustStart delta => adjustStartTime delta w
  | EvAdjustEnd delta => adjustEndTime delta w
  | EvWordClick index =>
      match words (transcriptData w) !! index with
      | Some word => handleWordClick word w
      | None => w
      end
  | EvSelectWords startIndex endIndex =>
      processWordSelection startIndex endIndex w
  | EvDownload => handleDownload w
  | EvClock dt =>
      if Qleb 0 dt
      then set_ctx_currentTime (ctx_currentTime (host w) + dt)%Q w
      else w
  | EvFrame cl_isPlaying cl_selection =>
      match rafRef (refs w) with
      | Some _ => tick cl_isPlaying cl_selection w
      | None => w
      end
  | EvSourceEnded id => deliver_ended id w
  | EvTimeout id => deliver_timeout id w
  end.

Definition run (events : list Event) (w : World) : World :=
  fold_left (fun acc e => step e acc) events w.

(** Worlds the component can be in. *)
Inductive reachable : World -> Prop :=
| reach_mount (td : TranscriptData) (supported : bool) :
    reachable (initial_world td supported)
| reach_step (w : World) (e : Event) :
    reachable w -> reachable (step e w).

(** Ten seconds of silence at 8 kHz, mono. *)
Definition ten_seconds : AudioBuffer :=
  mkAudioBuffer 8000 80000 [replicate (N.to_nat 80000) (Fin 0)].

(** ** Invariants of playback *)

(** Node [i] is sounding: started, neither stopped nor run to its end. *)
Definition sounding (w : World) (i : nat) : Prop :=
  exists n, nodes (host w) !! i = Some n /\ node_status n = Sounding.

Definition quiet (w : World) : Prop := forall i, ~ sounding w i.

(** Every sounding node is the recorded one, and the view knows it is
    playing. *)
Definition one_current (w : World) : Prop :=
  forall i, sounding w i ->
    sourceRef (refs w) = Some i /\ isPlaying (view w) = true.

(** What the invariant reads of a world. *)
Definition core (w : World) : list SourceNode * option nat * bool :=
  (nodes (host w), sourceRef (refs w), isPlaying (view w)).

(** ** Scenarios *)

Definition two_words : TranscriptData :=
  mkTranscript
    [mkWord "hello" 1000 3000 None None; mkWord "world" 3000 4500 None None]
    (Some "en"%string) None.

(** Audio arrives, the first word is selected and played. *)
Definition play_first_word : list Event :=
  [EvAudioLoaded (mkEncoded (Some ten_seconds)); EvWordClick 0;
   EvTogglePlayPause].

(** While the first word plays, the second is clicked: the first node is
    stopped and a second one starts before the first reports its end. *)
Definition overlap_world : World :=
  run (play_first_word ++ [EvWordClick 1]) (initial_world two_words true).

(** While the first word plays, its end is moved half a second later. *)
Definition extended_world : World :=
  run (play_first_word ++ [EvAdjustEnd 0.5]) (initial_world two_words true).

(** The first word plays to its end; during the pause that follows its
    start is moved by a tenth of a second; then the pause timer fires. *)
Definition adjusted_in_pause_world : World :=
  run (play_first_word ++ [EvSourceEnded 0; EvAdjustStart 0.1; EvTimeout 0])
      (initial_world two_words true).

(** * The rest of the viewer

    Language tables, word classes, paragraph layout, readers for encoded
    files, the invariants of pending restarts and of the decoded buffer,
    the unmount cleanup, and the controls as rendered. *)

(** ** Language tables *)

Definition upper_ascii (c : ascii) : ascii :=
  let n := nat_of_ascii c in
  if (97 <=? n)%nat && (n <=? 122)%nat then ascii_of_nat (n - 32) else c.

Fixpoint toUpperCase (s : string) : string :=
  match s with
  | EmptyString => EmptyString
  | String c rest => String (upper_ascii c) (toUpperCase rest)
  end.

(** The result of indexing an object literal by a computed key: an entry
    of the literal, or a member inherited from [Object.prototype] (a
    function or object, not a table value), or [undefined]. *)
Inductive Property (A : Type) :=
| Own (a : A)
| Inherited (member : string)
| Undefined.
Arguments Own {A} a.
Arguments Inherited {A} member.
Arguments Undefined {A}.

Definition Object_prototype_members : list string :=
  ["constructor"; "__defineGetter__"; "__defineSetter__"; "hasOwnProperty";
   "__lookupGetter__"; "__lookupSetter__"; "isPrototypeOf";
   "propertyIsEnumerable"; "toString"; "valueOf"; "__proto__";
   "toLocaleString"]%string.

Fixpoint own_get {A : Type} (table : list (string * A)) (key : string) : option A :=
  match table with
  | [] => None
  | (k, a) :: rest => if String.eqb k key then Some a else own_get rest key
  end.

(** [table[key]]. *)
Definition object_get {A : Type} (table : list (string * A)) (key : string)
    : Property A :=
  match own_get table key with
  | Some a => Own a
  | None =>
      if existsb (String.eqb key) Object_prototype_members
      then Inherited key
      else Undefined
  end.

Record Typography := mkTypography { fontClass : string; lineHeight : string }.

Definition languageMap : list (string * Typography) :=
  [("ja", mkTypography "font-japanese" "leading-loose");
   ("zh", mkTypography "font-chinese" "leading-loose");
   ("ko", mkTypography "font-korean" "leading-loose");
   ("ar", mkTypography "font-arabic" "leading-relaxed");
   ("hi", mkTypography "font-devanagari" "leading-relaxed");
   ("ru", mkTypography "font-cyrillic" "leading-relaxed");
   ("uk", mkTypography "font-cyrillic" "leading-relaxed");
   ("th", mkTypography "" "leading-loose");
   ("vi", mkTypography "" "leading-relaxed");
   ("default", mkTypography "" "leading-relaxed")]%string.

(** [languageCode?.toLowerCase() || fallback]: the empty string is falsy. *)
Definition code_or (languageCode : option string) (fallback : string) : string :=
  match languageCode with
  | Some c =>
      match toLowerCase c with
      | EmptyString => fallback
      | code => code
      end
  | None => fallback
  end.

(** [languageMap[code] || languageMap['default']]: every entry and every
    inherited member is truthy, so only [undefined] falls through. *)
Definition getLanguageTypography (languageCode : option string)
    : Property Typography :=
  let code := code_or languageCode "default" in
  match object_get languageMap code with
  | Undefined => object_get languageMap "default"
  | found => found
  end.

Definition languageNames : list (string * string) :=
  [("en", "English"); ("en_us", "English (US)"); ("en_uk", "English (UK)");
   ("en_au", "English (AU)"); ("es", "Spanish"); ("fr", "French");
   ("de", "German"); ("it", "Italian"); ("pt", "Portuguese");
   ("nl", "Dutch"); ("ja", "Japanese"); ("zh", "Chinese"); ("ko", "Korean");
   ("ar", "Arabic"); ("hi", "Hindi"); ("ru", "Russian"); ("uk", "Ukrainian");
   ("pl", "Polish"); ("tr", "Turkish"); ("vi", "Vietnamese"); ("th", "Thai");
   ("id", "Indonesian"); ("ms", "Malay"); ("fi", "Finnish"); ("da", "Danish");
   ("sv", "Swedish"); ("no", "Norwegian"); ("cs", "Czech"); ("el", "Greek");
   ("he", "Hebrew"); ("hu", "Hungarian"); ("ro", "Romanian")]%string.

(** [languageNames[code] || code.toUpperCase()]. *)
Definition getLanguageName (languageCode : option string) : Property string :=
  let code := code_or languageCode "" in
  match object_get languageNames code with
  | Undefined => Own (toUpperCase code)
  | found => found
  end.

(** ** Word classes *)

Definition getWordClass (word : Word) (index : nat) (w : World) : string :=
  let isSelected :=
    match selection (view w) with
    | Some sel =>
        Qleb (sel_start sel) (word_start word)
        && Qleb (word_end word) (sel_end sel)
    | None => false
    end in
  let isCurrent :=
    match currentWordIndex (view w) with
    | Some current => Nat.eqb index current
    | None => false
    end in
  if (isPlaying (view w) || isPausing (view w)) && isCurrent
  then "bg-blue-400 text-white"%string
  else if isSelected then "bg-blue-200"%string
  else EmptyString.

(** Words in chronological order: later words neither start nor end
    earlier. *)
Definition chronological (ws : list Word) : Prop :=
  forall i j wi wj,
    (i <= j)%nat -> ws !! i = Some wi -> ws !! j = Some wj ->
    (word_start wi <= word_start wj)%Q /\ (word_end wi <= word_end wj)%Q.

(** ** Paragraph layout *)

Definition PAUSE_THRESHOLD : Q := 2000.
Definition SMALL_PAUSE_THRESHOLD : Q := 200.
Definition MAX_WORDS_PER_PARAGRAPH : nat := 150.

(** The loop variables of [renderTranscriptWithSpeakerBreaks]; a word is
    represented by the index its span carries.  [currentSpeaker] starts as
    [null] ([None]); afterwards it holds a word's optional speaker. *)
Record Layout := mkLayout {
  lay_result : list (list nat);
  currentSpeaker : option (option string);
  currentGroup : list nat;
  wordIndex : nat;
  paragraphWordCount : nat
}.

Definition speaker_differs (word : Word) (current : option (option string)) : bool :=
  match current, word_speaker word with
  | None, _ => true
  | Some None, None => false
  | Some (Some a), Some b => negb (String.eqb b a)
  | Some None, Some _ => true
  | Some (Some _), None => true
  end.

(** One iteration of the [for] loop. *)
Definition layout_word (previousWord : option Word) (word : Word) (l : Layout)
    : Layout :=
  let pauseDuration :=
    match previousWord with
    | Some p => (word_start word - word_end p)%Q
    | None => 0%Q
    end in
  let shouldBreak := false in
  let shouldBreak :=
    if speaker_differs word (currentSpeaker l)
       && (0 <? length (currentGroup l))%nat
    then true else shouldBreak in
  let shouldBreak :=
    if Qleb PAUSE_THRESHOLD pauseDuration then true else shouldBreak in
  let shouldBreak :=
    if (MAX_WORDS_PER_PARAGRAPH <=? paragraphWordCount l)%nat
       && Qleb SMALL_PAUSE_THRESHOLD pauseDuration
    then true else shouldBreak in
  let shouldBreak :=
    if (MAX_WORDS_PER_PARAGRAPH <=? paragraphWordCount l)%nat
       && negb shouldBreak
    then true else shouldBreak in
  let l :=
    if shouldBreak && (0 <? length (currentGroup l))%nat
    then mkLayout (lay_result l ++ [currentGroup l]) (currentSpeaker l) []
           (wordIndex l) O
    else l in
  mkLayout (lay_result l) (Some (word_speaker word))
    (currentGroup l ++ [wordIndex l]) (S (wordIndex l))
    (S (paragraphWordCount l)).

Fixpoint layout_words (previousWord : option Word) (ws : list Word) (l : Layout)
    : Layout :=
  match ws with
  | [] => l
  | word :: rest => layout_words (Some word) rest (layout_word previousWord word l)
  end.

(** The paragraphs rendered, each the word indices it holds; [None] is
    the "No transcript data available" placeholder. *)
Definition renderTranscriptWithSpeakerBreaks (td : TranscriptData)
    : option (list (list nat)) :=
  match words td with
  | [] => None
  | ws =>
      let l := layout_words None ws (mkLayout [] None [] O O) in
      Some (if (0 <? length (currentGroup l))%nat
            then lay_result l ++ [currentGroup l]
            else lay_result l)
  end.

(** Words [i] and [j] of the transcript carry the same speaker label. *)
Definition same_speaker (ws : list Word) (i j : nat) : Prop :=
  forall wi wj, ws !! i = Some wi -> ws !! j = Some wj ->
    word_speaker wi = word_speaker wj.

(** The silence between word [i] and the next one is shorter than the
    paragraph pause. *)
Definition short_pause (ws : list Word) (i : nat) : Prop :=
  forall wi wj, ws !! i = Some wi -> ws !! (S i) = Some wj ->
    (word_start wj - word_end wi < PAUSE_THRESHOLD)%Q.

(** What the layout loop maintains after [k] words of [ws]. *)
Record layout_inv (ws : list Word) (k : nat) (l : Layout) : Prop := {
  inv_index : wordIndex l = k;
  inv_count : paragraphWordCount l = length (currentGroup l);
  inv_concat : concat (lay_result l) ++ currentGroup l = seq 0 k;
  inv_nonempty : Forall (fun g => g <> []) (lay_result l);
  inv_current : (0 < k)%nat -> currentGroup l <> [];
  inv_last : forall i, (S i = k)%nat -> In i (currentGroup l);
  inv_size : Forall (fun g => (length g <= MAX_WORDS_PER_PARAGRAPH)%nat)
               (lay_result l ++ [currentGroup l]);
  inv_speaker : Forall (fun g => forall i j, In i g -> In j g -> same_speaker ws i j)
                  (lay_result l ++ [currentGroup l]);
  inv_current_speaker :
    forall i wi, In i (currentGroup l) -> ws !! i = Some wi ->
      currentSpeaker l = Some (word_speaker wi);
  inv_pause : Forall (fun g => forall i, In i g -> In (S i) g -> short_pause ws i)
                (lay_result l ++ [currentGroup l])
}.

(** Two speakers, three words. *)
Definition dialogue : TranscriptData :=
  mkTranscript
    [mkWord "good" 0 500 None (Some "A"%string);
     mkWord "morning" 600 1000 None (Some "A"%string);
     mkWord "hello" 1100 1500 None (Some "B"%string)]
    (Some "en"%string) None.

(** ** Reading an encoded file *)

(** The bytes of an ASCII tag such as "RIFF". *)
Definition ascii_bytes (s : string) : list Z :=
  map (fun c => Z.of_nat (nat_of_ascii c)) (list_ascii_of_string s).

(** The four-character tag stored at byte [p]. *)
Definition tag_at (bytes : list Z) (p : nat) : list Z := take 4 (drop p bytes).

(** ** Pending restarts *)

(** Timer [i] is pending: set and neither fired nor cleared. *)
Definition pending (w : World) (i : nat) : Prop :=
  exists t, timers (host w) !! i = Some t /\ timer_pending t = true.

Definition no_pending (w : World) : Prop := forall i, ~ pending w i.

(** A restart is pending only in the pause between two loops: it is the
    timer recorded in [timeoutRef], and no source is recorded. *)
Definition timers_ok (w : World) : Prop :=
  forall i, pending w i ->
    timeoutRef (refs w) = Some i /\ sourceRef (refs w) = None /\
    isPausing (view w) = true.

(** What [timers_ok] reads of a world. *)
Definition tcore (w : World)
    : list Timer * option nat * option nat * bool :=
  (timers (host w), timeoutRef (refs w), sourceRef (refs w),
   isPausing (view w)).

(** Events raised by the engine and the browser rather than by the
    user. *)
Definition engine_event (e : Event) : bool :=
  match e with
  | EvClock _ | EvFrame _ _ | EvSourceEnded _ | EvTimeout _ => true
  | _ => false
  end.

(** ** Unmounting

    The cleanups of the component's effects, in the order of their
    declaration: the timeout cleanup, then the unmount cleanup. *)
Definition unmount (w : World) : World :=
  (* first effect: clear the pending timeout *)
  let w := clear_pending_timeout w in
  (* unmount effect *)
  let w := stopCurrentSource w in
  let w := clear_pending_timeout w in
  let w := cancelRaf w in
  let w := set_audioCtxRef false w in
  let w := set_audioBufferRef None w in
  set_sourceRef None w.

(** The first loop pause of the first word of [two_words]. *)
Definition first_pause_world : World :=
  run (play_first_word ++ [EvSourceEnded 0]) (initial_world two_words true).

(** Nothing sounds, nothing is scheduled, nothing is recorded: only a
    user action can start playback again. *)
Definition inert (w : World) : Prop :=
  quiet w /\ no_pending w /\
  sourceRef (refs w) = None /\ rafRef (refs w) = None.

(** The engine's events that follow a stop pressed while the first word
    of [two_words] plays. *)
Definition late_engine_events : list Event :=
  [EvClock 1; EvSourceEnded 0; EvTimeout 0; EvFrame true None].

(** ** The decoded buffer *)

(** What decoding leaves behind: a context, and the buffer's duration in
    the view. *)
Definition decoded_ok (w : World) : Prop :=
  forall b, audioBufferRef (refs w) = Some b ->
    audioCtxRef (refs w) = true /\ duration (view w) = buffer_duration b.

(** What [decoded_ok] reads of a world. *)
Definition dcore (w : World) : option AudioBuffer * bool * Q :=
  (audioBufferRef (refs w), audioCtxRef (refs w), duration (view w)).

(** From [w] to [w'] a decoded buffer is kept, with what it left behind. *)
Definition decode_kept (w w' : World) : Prop :=
  (forall b, audioBufferRef (refs w) = Some b ->
             audioBufferRef (refs w') = Some b) /\
  (decoded_ok w -> decoded_ok w').

(** The first word of [two_words] plays over [ten_seconds]; then other
    audio bytes arrive and playback is stopped and started again. *)
Definition reload_events : list Event :=
  [EvAudioLoaded (mkEncoded (Some four_samples)); EvTogglePlayPause;
   EvTogglePlayPause].

(** ** Starting playback *)

(** The context can be had: it exists or the browser can create it. *)
Definition context_available (w : World) : Prop :=
  audioCtxRef (refs w) = true \/ webAudioSupported (host w) = true.

(** Buffer [b] can be had: it is decoded already, or the bytes [enc]
    decode to it. *)
Definition buffer_available (enc : EncodedAudio) (b : AudioBuffer) (w : World)
    : Prop :=
  audioBufferRef (refs w) = Some b \/
  (audioBufferRef (refs w) = None /\ decodes_to enc = Some b).

(** The one-shot that plays selection [sel]. *)
Definition one_shot_of (sel : Selection) : SourceNode :=
  mkNode (msToSeconds (sel_start sel))
         (msToSeconds (sel_end sel - sel_start sel)) Sounding true.

(** The first word of [two_words] is playing. *)
Definition playing_world : World :=
  run play_first_word (initial_world two_words true).

Definition second_word : Word := mkWord "world" 3000 4500 None None.

(** What a failed play request leaves: the message in the view and in a
    toast, the viewer stopped, and the engine untouched. *)
Definition play_error_reported (msg : string) (w w' : World) : Prop :=
  audioError (view w') = Some msg /\
  playbackState w' = Stopped /\
  isDecoding (view w') = false /\
  nodes (host w') = nodes (host w) /\
  sourceRef (refs w') = sourceRef (refs w) /\
  audioBufferRef (refs w') = audioBufferRef (refs w) /\
  toasts (host w') = toasts (host w) ++ [mkToast "Playback Error" msg].

(** The position the progress feed computes from the engine clock. *)
Definition playhead (w : World) : Q :=
  (selectionOffsetRef (refs w)
   + (ctx_currentTime (host w) - startTimestampRef (refs w)))%Q.

(** Two and a half seconds into the first word of [two_words], half a
    second past its end. *)
Definition overrun_world : World := step (EvClock 2.5) playing_world.

(** ** The controls as rendered

    The [disabled] attributes of the four fine-tune buttons and of the
    play button. *)
Definition startMinusDisabled (w : World) : bool :=
  match selection (view w) with
  | None => true
  | Some sel => Qleb (msToSeconds (sel_start sel)) 0
  end.

Definition startPlusDisabled (w : World) : bool :=
  match selection (view w) with
  | None => true
  | Some sel =>
      Qleb (msToSeconds (sel_end sel) - 0.1) (msToSeconds (sel_start sel))
  end.

Definition endMinusDisabled (w : World) : bool :=
  match selection (view w) with
  | None => true
  | Some sel =>
      Qleb (msToSeconds (sel_end sel)) (msToSeconds (sel_start sel) + 0.1)
  end.

Definition endPlusDisabled (w : World) : bool :=
  match selection (view w) with
  | None => true
  | Some sel => Qleb (duration (view w)) (msToSeconds (sel_end sel))
  end.

(** [!!audioError]: a message that is not the empty string. *)
Definition truthy (s : option string) : bool :=
  match s with
  | Some EmptyString | None => false
  | Some _ => true
  end.

Definition playDisabled (w : World) : bool :=
  negb (audioLoaded (view w)) || negb (is_some (selection (view w)))
  || truthy (audioError (view w)) || isDecoding (view w).

(** What the load effect keeps together: the bytes and the flag. *)
Definition lcore (w : World) : bool * option EncodedAudio :=
  (audioLoaded (view w), audioArrayBuffer (view w)).

Definition loaded_ok (w : World) : Prop :=
  audioLoaded (view w) = true -> audioArrayBuffer (view w) <> None.

(** * Properties *)

(** ** Comparisons *)

Lemma Qleb_le (x y : Q) : Qleb x y = true <-> (x <= y)%Q.
Proof. apply Qle_bool_iff. Qed.

Lemma Qltb_lt (x y : Q) : Qltb x y = true <-> (x < y)%Q.
Proof.
  unfold Qltb. rewrite negb_true_iff. split.
  - intros H. apply Qnot_le_lt. intros Hle.
    apply Qle_bool_iff in Hle. congruence.
  - intros H. destruct (Qle_bool y x) eqn:E; [|reflexivity].
    apply Qle_bool_iff in E. exfalso. eapply Qlt_not_le; eauto.
Qed.

Lemma Qltb_ge (x y : Q) : Qltb x y = false <-> (y <= x)%Q.
Proof.
  unfold Qltb. rewrite negb_false_iff. apply Qle_bool_iff.
Qed.


(** ** Floors, rounding and decimal printing *)

(** Division by the constants of the program, as a product: linear
    arithmetic then sees through it. *)
Ltac qdiv :=
  unfold Qdiv in *;
  change (/ 1)%Q with 1%Q in *;
  change (/ 10)%Q with (1 # 10)%Q in *;
  change (/ 1000)%Q with (1 # 1000)%Q in *.

Lemma inject_Z_nonneg (z : Z) : 0 <= z -> (0 <= inject_Z z)%Q.
Proof. intros H. change 0%Q with (inject_Z 0). now rewrite <- Zle_Qle. Qed.

Lemma Qfloor_unique (x : Q) (z : Z) :
  (inject_Z z <= x)%Q -> (x < inject_Z (z + 1))%Q -> Qfloor x = z.
Proof.
  intros Hlo Hhi.
  pose proof (Qfloor_le x) as Hf1. pose proof (Qlt_floor x) as Hf2.
  assert (H1 : (inject_Z (Qfloor x) < inject_Z (z + 1))%Q)
    by (eapply Qle_lt_trans; eauto).
  assert (H2 : (inject_Z z < inject_Z (Qfloor x + 1))%Q)
    by (eapply Qle_lt_trans; eauto).
  rewrite <- Zlt_Qlt in H1, H2. lia.
Qed.

Lemma Qfloor_half (z : Z) : Qfloor (inject_Z z + (1 # 2)) = z.
Proof.
  apply Qfloor_unique.
  - lra.
  - rewrite inject_Z_plus. change (inject_Z 1) with 1%Q. lra.
Qed.

Lemma inject_Z_div10 (k : Z) :
  (inject_Z k / 10 == inject_Z (k / 10) + inject_Z (k mod 10) / 10)%Q.
Proof.
  rewrite (Z.div_mod k 10) at 1 by lia.
  rewrite inject_Z_plus, inject_Z_mult.
  change (inject_Z 10) with 10%Q. field.
Qed.

Lemma Qfloor_tenth (k : Z) : Qfloor (inject_Z k / 10) = k / 10.
Proof.
  pose proof (Z.mod_pos_bound k 10 ltac:(lia)) as Hm.
  apply Qfloor_unique; rewrite inject_Z_div10.
  - pose proof (inject_Z_nonneg (k mod 10) ltac:(lia)).
    qdiv. lra.
  - rewrite inject_Z_plus. change (inject_Z 1) with 1%Q.
    assert (inject_Z (k mod 10) <= 9)%Q
      by (change 9%Q with (inject_Z 9); rewrite <- Zle_Qle; lia).
    qdiv. lra.
Qed.

Lemma Math_round_near (x : Q) :
  (inject_Z (Math_round x) - (1 # 2) <= x)%Q /\
  (x < inject_Z (Math_round x) + (1 # 2))%Q.
Proof.
  unfold Math_round.
  pose proof (Qfloor_le (x + (1 # 2))) as H1.
  pose proof (Qlt_floor (x + (1 # 2))) as H2.
  rewrite inject_Z_plus in H2. change (inject_Z 1) with 1%Q in H2.
  split; lra.
Qed.

Lemma Math_round_nonneg (x : Q) : (0 <= x)%Q -> 0 <= Math_round x.
Proof.
  intros Hx. unfold Math_round.
  change 0 with (Qfloor 0). apply Qfloor_resp_le. lra.
Qed.

Lemma tenth_nonneg (k : Z) : 0 <= k -> (0 <= inject_Z k / 10)%Q.
Proof. intros Hk. pose proof (inject_Z_nonneg k Hk). qdiv. lra. Qed.

(** On a non-negative tenth [k/10], [% 1] leaves the last digit over 10. *)
Lemma js_rem_tenth (k : Z) :
  0 <= k ->
  (js_rem (inject_Z k / 10) 1 == inject_Z (k mod 10) / 10)%Q.
Proof.
  intros Hk. unfold js_rem, Qtrunc.
  assert (E : (inject_Z k / 10 / 1 == inject_Z k / 10)%Q) by field.
  assert (Hnn : (0 <= inject_Z k / 10 / 1)%Q)
    by (rewrite E; now apply tenth_nonneg).
  apply Qleb_le in Hnn. rewrite Hnn.
  rewrite (Qfloor_comp _ _ E), Qfloor_tenth.
  rewrite (inject_Z_div10 k) at 1. ring.
Qed.

Lemma toFixed_0_whole (k : Z) :
  0 <= k -> k mod 10 = 0 -> toFixed 0 (inject_Z k / 10) = dec (k / 10).
Proof.
  intros Hk Hm. unfold toFixed.
  assert (Hnn : Qltb (inject_Z k / 10) 0 = false)
    by (apply Qltb_ge; now apply tenth_nonneg).
  rewrite Hnn. unfold toFixed_nonneg. f_equal.
  assert (E : (inject_Z k / 10 * inject_Z (10 ^ Z.of_nat 0) + (1 # 2)
               == inject_Z (k / 10) + (1 # 2))%Q).
  { rewrite inject_Z_div10, Hm. change (inject_Z (10 ^ Z.of_nat 0)) with 1%Q.
    change (inject_Z 0) with 0%Q. field. }
  rewrite (Qfloor_comp _ _ E). apply Qfloor_half.
Qed.

Lemma toFixed_1_tenth (k : Z) :
  0 <= k ->
  toFixed 1 (inject_Z k / 10)
  = (dec (k / 10) ++ "." ++ dec (k mod 10))%string.
Proof.
  intros Hk. unfold toFixed.
  assert (Hnn : Qltb (inject_Z k / 10) 0 = false)
    by (apply Qltb_ge; now apply tenth_nonneg).
  rewrite Hnn. unfold toFixed_nonneg.
  assert (E : (inject_Z k / 10 * inject_Z (10 ^ Z.of_nat 1) + (1 # 2)
               == inject_Z k + (1 # 2))%Q).
  { change (inject_Z (10 ^ Z.of_nat 1)) with 10%Q. field. }
  rewrite (Qfloor_comp _ _ E), Qfloor_half.
  reflexivity.
Qed.



(** ** Word lookup *)

Lemma word_contains_spec (t : Q) (w : Word) :
  word_contains t w = true <-> (word_start w <= t /\ t <= word_end w)%Q.
Proof.
  unfold word_contains. rewrite andb_true_iff, !Qleb_le. reflexivity.
Qed.

Lemma wordAt_Some (ws : list Word) (t : Q) (w : Word) :
  wordAt ws t = Some w <->
  exists before after,
    ws = before ++ w :: after /\
    word_contains t w = true /\
    Forall (fun u => word_contains t u = false) before.
Proof.
  unfold wordAt. induction ws as [|u ws IH]; simpl.
  - split; [discriminate|]. intros (b & a & E & _). now destruct b.
  - destruct (word_contains t u) eqn:Hu.
    + split.
      * intros [= ->]. exists [], ws. repeat split; auto.
      * intros (b & a & E & Hw & Hb). destruct b as [|u' b]; simpl in E.
        -- now inversion E.
        -- inversion E; subst. inversion Hb; subst. congruence.
    + rewrite IH. split.
      * intros (b & a & -> & Hw & Hb). exists (u :: b), a.
        repeat split; auto.
      * intros (b & a & E & Hw & Hb). destruct b as [|u' b]; simpl in E.
        -- inversion E; subst. congruence.
        -- inversion E; subst. inversion Hb; subst. eauto.
Qed.

Lemma wordAt_None (ws : list Word) (t : Q) :
  wordAt ws t = None <-> Forall (fun u => word_contains t u = false) ws.
Proof.
  unfold wordAt. induction ws as [|u ws IH]; simpl.
  - split; auto.
  - destruct (word_contains t u) eqn:Hu.
    + split; [discriminate|]. intros H. inversion H; subst. congruence.
    + rewrite IH. split; [auto|]. intros H. now inversion H.
Qed.

(** The index reported to the view is the position of the word found. *)
Lemma wordIndexAt_wordAt (ws : list Word) (t : Q) :
  match wordIndexAt ws t with
  | Some i => ws !! i = wordAt ws t
  | None => wordAt ws t = None
  end.
Proof.
  unfold wordAt. induction ws as [|u ws IH]; simpl; [reflexivity|].
  destruct (word_contains t u); [reflexivity|].
  destruct (wordIndexAt ws t); simpl; exact IH.
Qed.

(** C7.  Word lookup at an instant returns the first word, in sequence
    order, with [start <= t <= end], and nothing when no word contains
    the instant.  For words spanning 0..500 and 500..1000, lookup at 750
    returns the second and lookup at 500 returns the first. *)
Theorem wordAt_first_match :
  (forall ws t w,
     wordAt ws t = Some w <->
     exists before after,
       ws = before ++ w :: after /\
       (word_start w <= t /\ t <= word_end w)%Q /\
       Forall (fun u => ~ (word_start u <= t /\ t <= word_end u)%Q) before) /\
  (forall ws t,
     wordAt ws t = None <->
     Forall (fun u => ~ (word_start u <= t /\ t <= word_end u)%Q) ws) /\
  (forall a b ca cb sa sb,
     wordAt [mkWord a 0 500 ca sa; mkWord b 500 1000 cb sb] 750
     = Some (mkWord b 500 1000 cb sb) /\
     wordAt [mkWord a 0 500 ca sa; mkWord b 500 1000 cb sb] 500
     = Some (mkWord a 0 500 ca sa)).
Proof.
  assert (Hneg : forall t l,
    Forall (fun u => word_contains t u = false) l <->
    Forall (fun u => ~ (word_start u <= t /\ t <= word_end u)%Q) l).
  { intros t l. apply Forall_iff. intros u.
    rewrite <- word_contains_spec. now destruct (word_contains t u). }
  split; [|split].
  - intros ws t w. rewrite wordAt_Some.
    split; intros (b & a & E & Hw & Hb); exists b, a;
      (split; [exact E|split]);
      [now apply word_contains_spec|now apply Hneg
      |now apply word_contains_spec|now apply Hneg].
  - intros ws t. rewrite wordAt_None. apply Hneg.
  - intros. split; reflexivity.
Qed.

(** ** Fine-tuning the selection *)

Lemma Qmax_cases (a b : Q) :
  ((a <= b /\ Qmax a b == b) \/ (b <= a /\ Qmax a b == a))%Q.
Proof. apply Q.max_spec_le. Qed.

Lemma Qmin_cases (a b : Q) :
  ((a <= b /\ Qmin a b == a) \/ (b <= a /\ Qmin a b == b))%Q.
Proof. apply Q.min_spec_le. Qed.

(** Case analysis on every [Qmin]/[Qmax] of the goal, innermost first. *)
Ltac qminmax :=
  repeat match goal with
  | |- context [Qmin ?a ?b] =>
      let H := fresh in
      destruct (Qmin_cases a b) as [[? H] | [? H]];
      generalize dependent (Qmin a b); intros
  | |- context [Qmax ?a ?b] =>
      let H := fresh in
      destruct (Qmax_cases a b) as [[? H] | [? H]];
      generalize dependent (Qmax a b); intros
  end.

Lemma view_setSelection (s : Selection) (w : World) :
  selection (view (setSelection s w)) = Some s /\
  duration (view (setSelection s w)) = duration (view w).
Proof. split; reflexivity. Qed.

(** C9.  On a non-null selection, [adjustStartTime] commits a selection
    that differs from the old one in its start only, and [adjustEndTime]
    one that differs in its end only: text and the other boundary are
    untouched. *)
Theorem adjust_changes_one_boundary (w : World) (sel : Selection) (delta : Q) :
  selection (view w) = Some sel ->
  (exists newStart,
     adjustStartTime delta w
     = setSelection (mkSelection newStart (sel_end sel) (sel_text sel)) w) /\
  (exists newEnd,
     adjustEndTime delta w
     = setSelection (mkSelection (sel_start sel) newEnd (sel_text sel)) w).
Proof.
  intros Hsel. unfold adjustStartTime, adjustEndTime. rewrite Hsel.
  split; eexists; reflexivity.
Qed.

Lemma adjust_changes_one_boundary_witness :
  exists newStart newEnd,
    adjustStartTime 0.1
      (setSelection (mkSelection 1000 3000 "hello") (initial_world (mkTranscript [] None None) true))
    = setSelection (mkSelection newStart 3000 "hello")
        (setSelection (mkSelection 1000 3000 "hello") (initial_world (mkTranscript [] None None) true)) /\
    adjustEndTime 0.1
      (setSelection (mkSelection 1000 3000 "hello") (initial_world (mkTranscript [] None None) true))
    = setSelection (mkSelection 1000 newEnd "hello")
        (setSelection (mkSelection 1000 3000 "hello") (initial_world (mkTranscript [] None None) true)).
Proof.
  destruct (adjust_changes_one_boundary
              (setSelection (mkSelection 1000 3000 "hello")
                 (initial_world (mkTranscript [] None None) true))
              (mkSelection 1000 3000 "hello") 0.1 eq_refl)
    as [[a Ha] [b Hb]].
  exists a, b. split; assumption.
Defined.

(** One adjustment keeps a selection that is at least 100 ms long inside
    [0, total] and at least 100 ms long. *)
Lemma adjust_preserves (a : Adjustment) (w : World) (sel : Selection) :
  selection (view w) = Some sel ->
  (0 <= sel_start sel)%Q ->
  (sel_start sel + 100 <= sel_end sel)%Q ->
  (sel_end sel <= totalDurationMs w)%Q ->
  exists s',
    selection (view (adjust a w)) = Some s' /\
    totalDurationMs (adjust a w) = totalDurationMs w /\
    (0 <= sel_start s')%Q /\
    (sel_start s' + 100 <= sel_end s')%Q /\
    (sel_end s' <= totalDurationMs w)%Q.
Proof.
  intros Hsel H0 Hlen Htot. unfold totalDurationMs in *.
  destruct a as [delta | delta]; simpl;
    unfold adjustStartTime, adjustEndTime; rewrite Hsel;
    eexists; (split; [reflexivity|]); (split; [reflexivity|]); simpl;
    unfold secondsToMs, msToSeconds in *; qdiv.
  - qminmax; repeat split; lra.
  - qminmax; repeat split; lra.
Qed.




(** ** Byte stores *)

Lemma length_le_bytes (w : nat) (v : Z) : length (le_bytes w v) = w.
Proof. revert v. induction w; intros v; simpl; auto. Qed.

Lemma write_at_app (pre bs old post : list Z) :
  length old = length bs ->
  write_at (length pre) bs (pre ++ old ++ post) = pre ++ bs ++ post.
Proof.
  revert pre old. induction bs as [|b bs IH]; intros pre old Hlen.
  - destruct old; [reflexivity|discriminate].
  - destruct old as [|o old]; [discriminate|]. simpl in *.
    replace (<[length pre := b]> (pre ++ o :: old ++ post))
      with ((pre ++ [b]) ++ old ++ post).
    + replace (S (length pre)) with (length (pre ++ [b]))
        by (rewrite length_app; simpl; lia).
      rewrite IH by lia. now rewrite <- app_assoc.
    + rewrite <- app_assoc. simpl.
      replace (length pre) with (length pre + 0)%nat at 1 by lia.
      now rewrite insert_app_r.
Qed.

Lemma replicate_split (n m : nat) (x : Z) :
  replicate (n + m) x = replicate n x ++ replicate m x.
Proof. induction n; simpl; congruence. Qed.

(** Writing at the cursor when everything behind it is written and
    everything ahead is still zero: the bytes are appended. *)
Lemma view_set_append (pre bs : list Z) (n m : nat) :
  n = (length bs + m)%nat ->
  view_set bs (mkWriter (pre ++ replicate n 0) (Z.of_nat (length pre)))
  = Ok (tt, mkWriter ((pre ++ bs) ++ replicate m 0)
                      (Z.of_nat (length (pre ++ bs)))).
Proof.
  intros ->. unfold view_set, DataView_set. simpl.
  rewrite length_app, length_replicate.
  assert (Hin : (0 <=? Z.of_nat (length pre))
                && (Z.of_nat (length pre) + Z.of_nat (length bs)
                    <=? Z.of_nat (length pre + (length bs + m))) = true).
  { apply andb_true_iff. split; apply Z.leb_le; lia. }
  rewrite Hin, Nat2Z.id, replicate_split.
  rewrite write_at_app by apply length_replicate.
  rewrite <- app_assoc, length_app, Nat2Z.inj_add. reflexivity.
Qed.

Lemma bind_view_set {B : Type} (pre bs : list Z) (n m : nat) (k : W B) :
  n = (length bs + m)%nat ->
  (view_set bs ;; k) (mkWriter (pre ++ replicate n 0) (Z.of_nat (length pre)))
  = k (mkWriter ((pre ++ bs) ++ replicate m 0) (Z.of_nat (length (pre ++ bs)))).
Proof.
  intros H. unfold bind. now rewrite (view_set_append pre bs n m H).
Qed.

(** ** The frame loop *)

Lemma length_frame (channels : list (list num)) (offset : Z) :
  length (concat (map (sample_bytes offset) channels))
  = (2 * length channels)%nat.
Proof.
  induction channels as [|ch rest IH]; simpl; [reflexivity|].
  rewrite IH. lia.
Qed.

Lemma writeFrame_append (channels : list (list num)) (offset : Z)
    (pre : list Z) (m : nat) :
  writeFrame channels offset
    (mkWriter (pre ++ replicate (2 * length channels + m) 0)
              (Z.of_nat (length pre)))
  = Ok (tt, mkWriter
              ((pre ++ concat (map (sample_bytes offset) channels))
                 ++ replicate m 0)
              (Z.of_nat (length (pre ++ concat (map (sample_bytes offset) channels))))).
Proof.
  revert pre. induction channels as [|ch rest IH]; intros pre.
  - simpl. now rewrite !app_nil_r.
  - cbn [writeFrame]. unfold setInt16.
    rewrite (bind_view_set pre _ _ (2 * length rest + m))
      by (rewrite length_le_bytes; simpl; lia).
    rewrite IH. cbn [map concat]. unfold sample_bytes at 3 5.
    now rewrite !app_assoc.
Qed.

Lemma frames_bytes_nil (offset : Z) (k : nat) : frames_bytes [] offset k = [].
Proof.
  unfold frames_bytes. generalize 0%nat. induction k; intros s; simpl; auto.
Qed.

Lemma frames_bytes_S (channels : list (list num)) (offset : Z) (k : nat) :
  frames_bytes channels offset (S k)
  = concat (map (sample_bytes offset) channels)
    ++ frames_bytes channels (offset + 1) k.
Proof.
  unfold frames_bytes. cbn [seq map concat].
  rewrite Z.add_0_r. f_equal. rewrite <- seq_shift, map_map.
  f_equal. apply map_ext. intros j. f_equal. apply map_ext_in. intros ch _.
  f_equal. lia.
Qed.

Lemma length_frames_bytes (channels : list (list num)) (offset : Z) (k : nat) :
  length (frames_bytes channels offset k) = (2 * length channels * k)%nat.
Proof.
  revert offset. induction k as [|k IH]; intros offset.
  - unfold frames_bytes. simpl. lia.
  - rewrite frames_bytes_S, length_app, length_frame, IH. lia.
Qed.

Lemma writeFrames_append (channels : list (list num)) (k : nat) :
  forall (fuel : nat) (offset : Z) (pre : list Z),
    (k < fuel)%nat ->
    writeFrames fuel
      (Z.of_nat (length pre) + Z.of_nat (2 * length channels * k))
      channels offset
      (mkWriter (pre ++ replicate (2 * length channels * k) 0)
                (Z.of_nat (length pre)))
    = Ok (tt, mkWriter (pre ++ frames_bytes channels offset k)
                        (Z.of_nat (length (pre ++ frames_bytes channels offset k)))).
Proof.
  induction k as [|k IH]; intros fuel offset pre Hfuel;
    (destruct fuel as [|fuel]; [lia|]); cbn [writeFrames]; unfold bind, get_pos;
    cbv beta iota; cbn [wr_pos].
  - rewrite Nat.mul_0_r, Z.add_0_r, Z.ltb_irrefl.
    unfold frames_bytes. simpl. now rewrite !app_nil_r.
  - destruct channels as [|ch rest] eqn:Ech.
    + simpl. rewrite Z.add_0_r, Z.ltb_irrefl, frames_bytes_nil.
      now rewrite !app_nil_r.
    + rewrite <- Ech in *.
      assert (Hpos : (Z.of_nat (length pre)
                      <? Z.of_nat (length pre)
                         + Z.of_nat (2 * length channels * S k)) = true).
      { apply Z.ltb_lt. rewrite Ech. simpl. lia. }
      rewrite Hpos.
      replace (2 * length channels * S k)%nat
        with (2 * length channels + 2 * length channels * k)%nat by lia.
      rewrite writeFrame_append.
      set (pre' := pre ++ concat (map (sample_bytes offset) channels)).
      replace (Z.of_nat (length pre)
               + Z.of_nat (2 * length channels + 2 * length channels * k))
        with (Z.of_nat (length pre') + Z.of_nat (2 * length channels * k)).
      * rewrite IH by lia. subst pre'.
        now rewrite frames_bytes_S, !app_assoc.
      * subst pre'. rewrite length_app, length_frame. lia.
Qed.

(** ** The encoder in closed form *)

Lemma wav_length_nat (b : AudioBuffer) :
  Z.to_nat (wav_length b)
  = (44 + 2 * length (channelData b) * N.to_nat (buffer_length b))%nat.
Proof. unfold wav_length, numberOfChannels. lia. Qed.

Lemma length_wav_header (b : AudioBuffer) (len : Z) :
  length (wav_header b len) = 44%nat.
Proof.
  unfold wav_header. rewrite !length_app, !length_le_bytes. reflexivity.
Qed.

(** [audioBufferToWav] always returns, and its result is the header
    followed by the interleaved frames. *)
Lemma audioBufferToWav_closed_form (b : AudioBuffer) :
  audioBufferToWav b
  = Ok (wav_header b (wav_length b)
        ++ frames_bytes (channelData b) 0 (N.to_nat (buffer_length b))).
Proof.
  unfold audioBufferToWav. fold (wav_length b).
  set (len := wav_length b). set (c := numberOfChannels b).
  set (n := N.to_nat (buffer_length b)).
  set (k := (2 * length (channelData b) * n)%nat).
  assert (Hlen : Z.to_nat len = (44 + k)%nat) by apply wav_length_nat.
  assert (Hge : (len <? 0) = false)
    by (apply Z.ltb_ge; unfold len, wav_length, numberOfChannels; lia).
  unfold new_ArrayBuffer. rewrite Hge, Hlen.
  change (mkWriter (replicate (44 + k) 0) 0)
    with (mkWriter ([] ++ replicate (44 + k) 0) (Z.of_nat (length (@nil Z)))).
  unfold setUint32, setUint16.
  rewrite (bind_view_set _ _ _ (40 + k)) by (rewrite length_le_bytes; lia).
  rewrite (bind_view_set _ _ _ (36 + k)) by (rewrite length_le_bytes; lia).
  rewrite (bind_view_set _ _ _ (32 + k)) by (rewrite length_le_bytes; lia).
  rewrite (bind_view_set _ _ _ (28 + k)) by (rewrite length_le_bytes; lia).
  rewrite (bind_view_set _ _ _ (24 + k)) by (rewrite length_le_bytes; lia).
  rewrite (bind_view_set _ _ _ (22 + k)) by (rewrite length_le_bytes; lia).
  rewrite (bind_view_set _ _ _ (20 + k)) by (rewrite length_le_bytes; lia).
  rewrite (bind_view_set _ _ _ (16 + k)) by (rewrite length_le_bytes; lia).
  rewrite (bind_view_set _ _ _ (12 + k)) by (rewrite length_le_bytes; lia).
  rewrite (bind_view_set _ _ _ (10 + k)) by (rewrite length_le_bytes; lia).
  rewrite (bind_view_set _ _ _ (8 + k)) by (rewrite length_le_bytes; lia).
  rewrite (bind_view_set _ _ _ (4 + k)) by (rewrite length_le_bytes; lia).
  unfold bind at 1, get_pos. cbv beta iota. cbn [wr_pos].
  match goal with
  | |- context [mkWriter (?p ++ replicate (4 + k) 0) _] => set (pre := p)
  end.
  assert (Hpre : length pre = 40%nat)
    by (unfold pre; rewrite !length_app, !length_le_bytes; reflexivity).
  replace (len - Z.of_nat (length pre) - 4) with (len - 44) by lia.
  rewrite (bind_view_set _ _ _ k) by (rewrite length_le_bytes; lia).
  match goal with
  | |- context [mkWriter (?p ++ replicate k 0) _] => set (hdr := p)
  end.
  assert (Hhdr : hdr = wav_header b len).
  { unfold hdr, pre, wav_header. cbn [app]. now rewrite <- !app_assoc. }
  assert (Hlh : length hdr = 44%nat) by (rewrite Hhdr; apply length_wav_header).
  replace len with (Z.of_nat (length hdr) + Z.of_nat k) at 1 by lia.
  unfold k. rewrite writeFrames_append by (fold n; lia).
  cbn [wr_bytes]. now rewrite Hhdr.
Qed.

(** ** Reading a file back *)

Lemma byte_at_app (pre l : list Z) (i : nat) (p : Z) :
  p = Z.of_nat (length pre + i) ->
  byte_at (pre ++ l) p = match l !! i with Some b => b | None => 0 end.
Proof.
  intros ->. unfold byte_at. rewrite Nat2Z.id.
  now rewrite lookup_app_r, Nat.add_comm, Nat.add_sub by lia.
Qed.

Lemma le_bytes_4 (v : Z) :
  le_bytes 4 v
  = [v mod 256; v / 256 mod 256; v / 256 / 256 mod 256;
     v / 256 / 256 / 256 mod 256].
Proof. reflexivity. Qed.

Lemma le_bytes_2 (v : Z) : le_bytes 2 v = [v mod 256; v / 256 mod 256].
Proof. reflexivity. Qed.

Lemma getUint32_le_bytes (pre post : list Z) (v p : Z) :
  p = Z.of_nat (length pre) ->
  0 <= v < 2 ^ 32 ->
  getUint32 (pre ++ le_bytes 4 v ++ post) p = v.
Proof.
  intros Hp Hv. unfold getUint32. rewrite le_bytes_4.
  rewrite (byte_at_app pre _ 0), (byte_at_app pre _ 1),
    (byte_at_app pre _ 2), (byte_at_app pre _ 3) by lia.
  cbn [app lookup list_lookup].
  change (2 ^ 32) with 4294967296 in Hv.
  pose proof (Z.div_mod v 256 ltac:(lia)).
  pose proof (Z.div_mod (v / 256) 256 ltac:(lia)).
  pose proof (Z.div_mod (v / 256 / 256) 256 ltac:(lia)).
  assert (v / 256 / 256 / 256 < 256).
  { apply Z.div_lt_upper_bound; [lia|].
    apply Z.div_lt_upper_bound; [lia|].
    apply Z.div_lt_upper_bound; lia. }
  assert (0 <= v / 256 / 256 / 256) by (repeat apply Z.div_pos; lia).
  rewrite (Z.mod_small (v / 256 / 256 / 256) 256) by lia. lia.
Qed.

Lemma getUint16_le_bytes (pre post : list Z) (v p : Z) :
  p = Z.of_nat (length pre) ->
  0 <= v < 2 ^ 16 ->
  getUint16 (pre ++ le_bytes 2 v ++ post) p = v.
Proof.
  intros Hp Hv. unfold getUint16. rewrite le_bytes_2.
  rewrite (byte_at_app pre _ 0), (byte_at_app pre _ 1) by lia.
  cbn [app lookup list_lookup].
  change (2 ^ 16) with 65536 in Hv.
  pose proof (Z.div_mod v 256 ltac:(lia)).
  assert (v / 256 < 256) by (apply Z.div_lt_upper_bound; lia).
  assert (0 <= v / 256) by (apply Z.div_pos; lia).
  rewrite (Z.mod_small (v / 256) 256) by lia. lia.
Qed.

(** A signed 16-bit value survives the store and the signed read. *)
Lemma getInt16_le_bytes (pre post : list Z) (v p : Z) :
  p = Z.of_nat (length pre) ->
  - 2 ^ 15 <= v < 2 ^ 15 ->
  getInt16 (pre ++ le_bytes 2 (v mod 2 ^ 16) ++ post) p = v.
Proof.
  intros Hp Hv. unfold getInt16.
  rewrite getUint16_le_bytes by (auto; apply Z.mod_pos_bound; lia).
  change (2 ^ 15) with 32768 in *. change (2 ^ 16) with 65536 in *.
  assert (Hwrap : v < 0 -> v mod 65536 = v + 65536).
  { intros Hneg. rewrite <- (Z.mod_add v 1 65536) by lia.
    apply Z.mod_small. lia. }
  assert (Hsmall : 0 <= v -> v mod 65536 = v)
    by (intros Hpos; apply Z.mod_small; lia).
  destruct (Z.leb_spec 32768 (v mod 65536)) as [H | H];
    destruct (Z.lt_ge_cases v 0) as [Hneg | Hpos];
    try rewrite (Hwrap Hneg) in *; try rewrite (Hsmall Hpos) in *; lia.
Qed.

Lemma Qtrunc_inject_Z (z : Z) : Qtrunc (inject_Z z) = z.
Proof.
  unfold Qtrunc. destruct (Qleb 0 (inject_Z z));
    [apply Qfloor_Z | apply Qceiling_Z].
Qed.

Lemma ToUint32_inject_Z (z : Z) : ToUint32 (inject_Z z) = z mod 2 ^ 32.
Proof. unfold ToUint32. now rewrite Qtrunc_inject_Z. Qed.

Lemma ToUint32_range (x : Q) : 0 <= ToUint32 x < 2 ^ 32.
Proof. apply Z.mod_pos_bound. lia. Qed.

(** The two size fields of an encoded file. *)
Lemma wav_size_fields (b : AudioBuffer) (len : Z) (payload : list Z) :
  getUint32 (wav_header b len ++ payload) 4 = (len - 8) mod 2 ^ 32 /\
  getUint32 (wav_header b len ++ payload) 40 = (len - 44) mod 2 ^ 32.
Proof.
  split.
  - unfold wav_header. rewrite <- !app_assoc.
    rewrite getUint32_le_bytes;
      [apply ToUint32_inject_Z | now rewrite length_le_bytes
      | apply ToUint32_range].
  - unfold wav_header. rewrite !app_assoc. rewrite <- (app_assoc _ _ payload).
    rewrite getUint32_le_bytes;
      [apply ToUint32_inject_Z
      | rewrite !length_app, !length_le_bytes; reflexivity
      | apply ToUint32_range].
Qed.

Lemma encoded_length (b : AudioBuffer) :
  Z.of_nat (length (wav_header b (wav_length b)
                    ++ frames_bytes (channelData b) 0
                         (N.to_nat (buffer_length b))))
  = wav_length b.
Proof.
  rewrite length_app, length_wav_header, length_frames_bytes.
  unfold wav_length, numberOfChannels. lia.
Qed.

(** C10, amended.  For every buffer with [c] channels and [n] frames,
    [audioBufferToWav] returns a byte stream of exactly [44 + 2 c n]
    bytes whose RIFF chunk-size field holds the total length minus 8 and
    whose data sub-chunk size field holds the total length minus 44, both
    reduced modulo 2^32 (the fields are 32 bits wide); they are the exact
    differences whenever the total length is below 2^32 + 8. *)
Theorem audioBufferToWav_sizes (b : AudioBuffer) :
  exists bytes,
    audioBufferToWav b = Ok bytes /\
    Z.of_nat (length bytes)
    = 44 + 2 * numberOfChannels b * Z.of_N (buffer_length b) /\
    getUint32 bytes 4 = (Z.of_nat (length bytes) - 8) mod 2 ^ 32 /\
    getUint32 bytes 40 = (Z.of_nat (length bytes) - 44) mod 2 ^ 32 /\
    (Z.of_nat (length bytes) < 2 ^ 32 + 8 ->
     getUint32 bytes 4 = Z.of_nat (length bytes) - 8 /\
     getUint32 bytes 40 = Z.of_nat (length bytes) - 44).
Proof.
  eexists. split; [apply audioBufferToWav_closed_form|].
  rewrite encoded_length.
  destruct (wav_size_fields b (wav_length b)
              (frames_bytes (channelData b) 0 (N.to_nat (buffer_length b))))
    as [H4 H40].
  assert (Hnn : 44 <= wav_length b)
    by (unfold wav_length, numberOfChannels; lia).
  repeat split.
  - unfold wav_length. lia.
  - exact H4.
  - exact H40.
  - rewrite H4. apply Z.mod_small. lia.
  - rewrite H40. apply Z.mod_small. lia.
Qed.

(** C10 as stated fails once the file no longer fits 32-bit size fields:
    for a well-formed buffer of 32 channels and 2^26 frames the stream is
    2^32 + 44 bytes long, while its RIFF chunk-size field reads 36 and
    its data size field reads 0. *)
Lemma audioBufferToWav_size_fields_wrap :
  buffer_wf long_recording /\
  exists bytes,
    audioBufferToWav long_recording = Ok bytes /\
    Z.of_nat (length bytes) = 4294967340 /\
    getUint32 bytes 4 = 36 /\
    getUint32 bytes 40 = 0.
Proof.
  split.
  - unfold buffer_wf, long_recording. cbn [channelData buffer_length].
    apply Forall_replicate, length_replicate.
  - assert (Hc : numberOfChannels long_recording = 32).
    { unfold numberOfChannels, long_recording. cbn [channelData].
      rewrite length_replicate. reflexivity. }
    assert (Hlen : wav_length long_recording = 4294967340).
    { unfold wav_length. rewrite Hc. reflexivity. }
    eexists. split; [apply audioBufferToWav_closed_form|].
    rewrite encoded_length, Hlen.
    destruct (wav_size_fields long_recording 4294967340
                (frames_bytes (channelData long_recording) 0
                   (N.to_nat (buffer_length long_recording))))
      as [H4 H40].
    split; [reflexivity|]. split; [exact H4 | exact H40].
Qed.

(** ** Export *)

Lemma handleDownload_guard (w : World) :
  selection (view w) = None \/ audioBufferRef (refs w) = None ->
  handleDownload w = w.
Proof.
  unfold handleDownload. intros [H | H]; rewrite H; [reflexivity|].
  now destruct (selection (view w)).
Qed.

(** C6, amended.  When no selection or no decoded buffer is present,
    [handleDownload] returns at once: no file, no error report, nothing
    changes.  Otherwise it hands the browser either nothing or exactly one
    file, and that file is the complete encoding of the segment buffer:
    header and every frame, [44 + 2 c n] bytes. *)
Theorem handleDownload_all_or_nothing (w : World) :
  (selection (view w) = None \/ audioBufferRef (refs w) = None ->
   handleDownload w = w) /\
  (downloads (host (handleDownload w)) = downloads (host w) \/
   exists sel audioBuffer newBuffer bytes,
     selection (view w) = Some sel /\
     audioBufferRef (refs w) = Some audioBuffer /\
     segmentBuffer audioBuffer sel = Ok newBuffer /\
     audioBufferToWav newBuffer = Ok bytes /\
     downloads (host (handleDownload w))
     = downloads (host w) ++ [(download_filename sel, bytes)] /\
     bytes = wav_header newBuffer (wav_length newBuffer)
             ++ frames_bytes (channelData newBuffer) 0
                  (N.to_nat (buffer_length newBuffer)) /\
     Z.of_nat (length bytes)
     = 44 + 2 * numberOfChannels newBuffer * Z.of_N (buffer_length newBuffer)).
Proof.
  split; [apply handleDownload_guard|].
  unfold handleDownload.
  destruct (selection (view w)) as [sel|] eqn:Hsel; [|now left].
  destruct (audioBufferRef (refs w)) as [b|] eqn:Hb; [|now left].
  destruct (segmentBuffer b sel) as [nb|e] eqn:Hseg; [|now left].
  rewrite audioBufferToWav_closed_form. right.
  exists sel, b, nb,
    (wav_header nb (wav_length nb)
     ++ frames_bytes (channelData nb) 0 (N.to_nat (buffer_length nb))).
  split; [reflexivity|]. split; [reflexivity|]. split; [exact Hseg|].
  split; [apply audioBufferToWav_closed_form|].
  split; [reflexivity|]. split; [reflexivity|].
  rewrite encoded_length. unfold wav_length. lia.
Qed.

(** C6 as stated fails: with a selection but nothing decoded yet (the
    download button pressed before the first play), [handleDownload]
    changes nothing; no error is reported and no file is produced. *)
Lemma handleDownload_silent_without_buffer :
  audioBufferRef (refs (loaded_world (mkEncoded (Some (mkAudioBuffer 8000 0 [[]])))
                                     (mkSelection 1000 3000 "hello"))) = None /\
  handleDownload (loaded_world (mkEncoded (Some (mkAudioBuffer 8000 0 [[]])))
                               (mkSelection 1000 3000 "hello"))
  = loaded_world (mkEncoded (Some (mkAudioBuffer 8000 0 [[]])))
                 (mkSelection 1000 3000 "hello") /\
  toasts (host (handleDownload
                  (loaded_world (mkEncoded (Some (mkAudioBuffer 8000 0 [[]])))
                                (mkSelection 1000 3000 "hello")))) = [] /\
  downloads (host (handleDownload
                     (loaded_world (mkEncoded (Some (mkAudioBuffer 8000 0 [[]])))
                                   (mkSelection 1000 3000 "hello")))) = [].
Proof. repeat split. Qed.

(** ** Copying the selected range *)

Lemma copySamples_spec (src : list num) (start : Z) (k : nat) :
  forall target : list num,
    let r := fold_left
               (fun t i => <[i := typed_get src (start + Z.of_nat i)]> t)
               (seq 0 k) target in
    length r = length target /\
    forall i : nat,
      r !! i = if (i <? k)%nat && (i <? length target)%nat
               then Some (typed_get src (start + Z.of_nat i))
               else target !! i.
Proof.
  induction k as [|k IH]; intros target; cbn zeta.
  - split; [reflexivity|]. intros i. reflexivity.
  - rewrite seq_S, fold_left_app. cbn [fold_left Nat.add].
    destruct (IH target) as [Hlen Hlook]. cbn zeta in Hlen, Hlook.
    split; [now rewrite length_insert|].
    intros i. destruct (Nat.eq_dec i k) as [-> | Hne].
    + destruct (Nat.ltb_spec k (length target)) as [Hin | Hout].
      * rewrite list_lookup_insert_eq by lia.
        assert (E : (k <? S k)%nat = true) by (apply Nat.ltb_lt; lia).
        now rewrite E.
      * rewrite list_insert_ge by lia. rewrite Hlook.
        rewrite Nat.ltb_irrefl, andb_false_r. reflexivity.
    + rewrite list_lookup_insert_ne by auto. rewrite Hlook.
      replace (i <? S k)%nat with (i <? k)%nat; [reflexivity|].
      destruct (Nat.ltb_spec i k), (Nat.ltb_spec i (S k)); auto; lia.
Qed.

Lemma copySamples_lookup (src target : list num) (start len : Z) (i : nat) :
  (i < Z.to_nat len)%nat -> (i < length target)%nat ->
  copySamples src target start len !! i
  = Some (typed_get src (start + Z.of_nat i)).
Proof.
  intros Hi Ht. unfold copySamples.
  destruct (copySamples_spec src start (Z.to_nat len) target) as [_ H].
  cbn zeta in H. rewrite H.
  apply Nat.ltb_lt in Hi, Ht. now rewrite Hi, Ht.
Qed.

Lemma copySamples_length (src target : list num) (start len : Z) :
  length (copySamples src target start len) = length target.
Proof.
  unfold copySamples.
  now destruct (copySamples_spec src start (Z.to_nat len) target) as [H _].
Qed.

Lemma copyChannels_spec (source : list (list num)) (start len : Z) (k : nat) :
  forall target : list (list num),
    let step := fun tgt channel =>
      match source !! channel, tgt !! channel with
      | Some sourceData, Some targetData =>
          <[channel := copySamples sourceData targetData start len]> tgt
      | _, _ => tgt
      end in
    let r := fold_left step (seq 0 k) target in
    length r = length target /\
    forall i : nat,
      r !! i = if (i <? k)%nat
               then match source !! i, target !! i with
                    | Some s, Some t => Some (copySamples s t start len)
                    | _, _ => target !! i
                    end
               else target !! i.
Proof.
  induction k as [|k IH]; intros target; cbn zeta.
  - split; [reflexivity|]. intros i. reflexivity.
  - rewrite seq_S, fold_left_app. cbn [fold_left Nat.add].
    destruct (IH target) as [Hlen Hlook]. cbn zeta in Hlen, Hlook.
    set (r := fold_left _ (seq 0 k) target) in *.
    assert (Hk : r !! k = target !! k)
      by (rewrite Hlook, Nat.ltb_irrefl; reflexivity).
    assert (Hother : forall i, i <> k ->
              (i <? S k)%nat = (i <? k)%nat).
    { intros i Hne.
      destruct (Nat.ltb_spec i k), (Nat.ltb_spec i (S k)); auto; lia. }
    assert (Hself : (k <? S k)%nat = true) by (apply Nat.ltb_lt; lia).
    rewrite Hk.
    destruct (source !! k) as [s|] eqn:Hs;
      [destruct (target !! k) as [t|] eqn:Ht|].
    + split; [now rewrite length_insert|].
      intros i. destruct (Nat.eq_dec i k) as [-> | Hne].
      * rewrite list_lookup_insert_eq
          by (rewrite Hlen; eapply lookup_lt_Some; eauto).
        now rewrite Hself, Hs, Ht.
      * rewrite list_lookup_insert_ne by auto.
        now rewrite Hlook, Hother.
    + split; [assumption|].
      intros i. destruct (Nat.eq_dec i k) as [-> | Hne].
      * now rewrite Hk, Hself, Hs, Ht.
      * now rewrite Hlook, Hother.
    + split; [assumption|].
      intros i. destruct (Nat.eq_dec i k) as [-> | Hne].
      * now rewrite Hk, Hself, Hs.
      * now rewrite Hlook, Hother.
Qed.

(** With a target of as many silent channels as the source has, the copy
    fills channel by channel from the same channel of the source. *)
Lemma copyChannels_lookup (source : list (list num)) (start len : Z)
    (ch : nat) (src : list num) :
  source !! ch = Some src ->
  copyChannels source
    (replicate (length source) (replicate (Z.to_nat len) (Fin 0))) start len
  !! ch
  = Some (copySamples src (replicate (Z.to_nat len) (Fin 0)) start len).
Proof.
  intros Hsrc. unfold copyChannels.
  destruct (copyChannels_spec source start len (length source)
              (replicate (length source) (replicate (Z.to_nat len) (Fin 0))))
    as [_ H].
  cbn zeta in H. rewrite H.
  assert (Hlt : (ch < length source)%nat) by (eapply lookup_lt_Some; eauto).
  apply Nat.ltb_lt in Hlt as Hb. rewrite Hb, Hsrc.
  now rewrite lookup_replicate_2.
Qed.

Lemma copyChannels_shape (source : list (list num)) (start len : Z) :
  let r := copyChannels source
             (replicate (length source) (replicate (Z.to_nat len) (Fin 0)))
             start len in
  length r = length source /\
  Forall (fun ch => length ch = Z.to_nat len) r.
Proof.
  cbn zeta. unfold copyChannels.
  destruct (copyChannels_spec source start len (length source)
              (replicate (length source) (replicate (Z.to_nat len) (Fin 0))))
    as [Hlen H].
  cbn zeta in Hlen, H. split; [now rewrite Hlen, length_replicate|].
  apply Forall_lookup. intros i x Hx. rewrite H in Hx.
  assert (Hrep : forall y,
            replicate (length source) (replicate (Z.to_nat len) (Fin 0)) !! i
            = Some y -> length y = Z.to_nat len).
  { intros y Hy. apply lookup_replicate in Hy as [-> _].
    apply length_replicate. }
  destruct (i <? length source)%nat; [|now apply Hrep].
  destruct (source !! i) as [s|]; [|now apply Hrep].
  destruct (replicate _ _ !! i) as [t|] eqn:Ht; [|discriminate].
  inversion Hx; subst. rewrite copySamples_length. now apply Hrep.
Qed.

(** ** Samples inside an encoded file *)

Lemma frames_bytes_split (chans : list (list num)) (a b : nat) :
  forall off : Z,
    frames_bytes chans off (a + b)
    = frames_bytes chans off a ++ frames_bytes chans (off + Z.of_nat a) b.
Proof.
  induction a as [|a IH]; intros off.
  - cbn [Nat.add]. unfold frames_bytes at 2. cbn [seq map concat app].
    now rewrite Z.add_0_r.
  - cbn [Nat.add]. rewrite !frames_bytes_S, IH, <- app_assoc.
    do 3 f_equal. lia.
Qed.

Lemma ToInt16_range (x : num) : - 2 ^ 15 <= ToInt16 x < 2 ^ 15.
Proof.
  unfold ToInt16. destruct x as [q|]; [|lia].
  pose proof (Z.mod_pos_bound (Qtrunc q) (2 ^ 16) ltac:(lia)) as Hm.
  cbv zeta. destruct (Z.leb_spec (2 ^ 15) (Qtrunc q mod 2 ^ 16)); lia.
Qed.

Lemma ToInt16_exact (q : Q) :
  - 2 ^ 15 <= Qtrunc q < 2 ^ 15 -> ToInt16 (Fin q) = Qtrunc q.
Proof.
  intros H. unfold ToInt16. cbv zeta.
  change (2 ^ 15) with 32768 in *. change (2 ^ 16) with 65536 in *.
  destruct (Z.lt_ge_cases (Qtrunc q) 0) as [Hneg | Hpos].
  - assert (E : Qtrunc q mod 65536 = Qtrunc q + 65536).
    { rewrite <- (Z.mod_add _ 1 65536) by lia. apply Z.mod_small. lia. }
    rewrite E. destruct (Z.leb_spec 32768 (Qtrunc q + 65536)); lia.
  - rewrite Z.mod_small by lia.
    destruct (Z.leb_spec 32768 (Qtrunc q)); lia.
Qed.

(** The sample of frame [i], channel [ch], sits at byte
    [44 + 2 (i c + ch)] of the file and reads back as stored. *)
Lemma getInt16_payload (hdr : list Z) (chans : list (list num))
    (k i ch : nat) (chd : list num) :
  length hdr = 44%nat ->
  chans !! ch = Some chd ->
  (i < k)%nat ->
  getInt16 (hdr ++ frames_bytes chans 0 k)
    (44 + 2 * (Z.of_nat i * Z.of_nat (length chans) + Z.of_nat ch))
  = ToInt16 (scale_sample (typed_get chd (Z.of_nat i))).
Proof.
  intros Hhdr Hch Hi.
  assert (Hlt : (ch < length chans)%nat) by (eapply lookup_lt_Some; eauto).
  replace k with (i + S (k - S i))%nat by lia.
  rewrite frames_bytes_split, frames_bytes_S. rewrite Z.add_0_l.
  rewrite <- (take_drop_middle chans ch chd Hch) at 2.
  rewrite map_app, concat_app. cbn [map concat].
  set (F := frames_bytes chans 0 i).
  set (A := concat (map (sample_bytes (Z.of_nat i)) (take ch chans))).
  set (B := concat (map (sample_bytes (Z.of_nat i)) (drop (S ch) chans))).
  set (R := frames_bytes chans (Z.of_nat i + 1) (k - S i)).
  replace (hdr ++ F ++ (A ++ sample_bytes (Z.of_nat i) chd ++ B) ++ R)
    with ((hdr ++ F ++ A) ++ sample_bytes (Z.of_nat i) chd ++ (B ++ R))
    by (now rewrite <- !app_assoc).
  unfold sample_bytes at 1.
  apply getInt16_le_bytes; [|apply ToInt16_range].
  unfold F, A. rewrite !length_app, length_frames_bytes, length_frame, Hhdr.
  rewrite length_take. lia.
Qed.

Lemma Qtrunc_scaled_range (x : Q) :
  let clamped := Qmax (-1) (Qmin 1 x) in
  - 2 ^ 15
  <= Qtrunc (if Qltb clamped 0 then clamped * 32768 else clamped * 32767)%Q
  < 2 ^ 15.
Proof.
  cbv zeta. set (c := Qmax (-1) (Qmin 1 x)).
  assert (Hc : (-1 <= c /\ c <= 1)%Q).
  { unfold c. qminmax; split; lra. }
  destruct Hc as [Hlo Hhi]. change (2 ^ 15) with 32768.
  destruct (Qltb c 0) eqn:Hneg.
  - apply Qltb_lt in Hneg. unfold Qtrunc.
    assert (Hq : Qleb 0 (c * 32768) = false).
    { destruct (Qleb 0 (c * 32768)) eqn:E; [|reflexivity].
      apply Qleb_le in E. lra. }
    rewrite Hq. split.
    + assert (Qceiling (inject_Z (-32768)) <= Qceiling (c * 32768));
        [|rewrite Qceiling_Z in *; lia].
      apply Qceiling_resp_le. change (inject_Z (-32768)) with (-32768)%Q. lra.
    + assert (Qceiling (c * 32768) <= Qceiling (inject_Z 0));
        [|rewrite Qceiling_Z in *; lia].
      apply Qceiling_resp_le. change (inject_Z 0) with 0%Q. lra.
  - apply Qltb_ge in Hneg. unfold Qtrunc.
    assert (Hq : Qleb 0 (c * 32767) = true) by (apply Qleb_le; lra).
    rewrite Hq. split.
    + assert (Qfloor (inject_Z 0) <= Qfloor (c * 32767));
        [|rewrite Qfloor_Z in *; lia].
      apply Qfloor_resp_le. change (inject_Z 0) with 0%Q. lra.
    + assert (Qfloor (c * 32767) <= Qfloor (inject_Z 32767));
        [|rewrite Qfloor_Z in *; lia].
      apply Qfloor_resp_le. change (inject_Z 32767) with 32767%Q. lra.
Qed.

(** Dropping the fraction moves a value by less than one. *)
Lemma Qtrunc_near (x : Q) : (Qabs (inject_Z (Qtrunc x) - x) < 1)%Q.
Proof.
  apply Qabs_Qlt_condition. unfold Qtrunc.
  destruct (Qleb 0 x).
  - pose proof (Qfloor_le x) as H1. pose proof (Qlt_floor x) as H2.
    rewrite inject_Z_plus in H2. change (inject_Z 1) with 1%Q in H2.
    split; lra.
  - pose proof (Qle_ceiling x) as H1. pose proof (Qceiling_lt x) as H2.
    unfold Z.sub in H2. rewrite inject_Z_plus in H2.
    change (inject_Z (- (1))) with (-1)%Q in H2.
    split; lra.
Qed.

(** What the encoder stores for a finite sample: the clamped, scaled
    value with its fraction dropped; no wrap-around occurs. *)
Lemma ToInt16_scale_sample (x : Q) :
  let clamped := Qmax (-1) (Qmin 1 x) in
  ToInt16 (scale_sample (Fin x))
  = Qtrunc (if Qltb clamped 0 then clamped * 32768 else clamped * 32767)%Q.
Proof.
  cbv zeta. pose proof (Qtrunc_scaled_range x) as H. cbv zeta in H.
  unfold scale_sample, Math_max, Math_min.
  destruct (Qltb (Qmax (-1) (Qmin 1 x)) 0); now apply ToInt16_exact.
Qed.

Lemma ToInt16_scale_sample_NaN : ToInt16 (scale_sample NaN) = 0.
Proof. reflexivity. Qed.

(** A non-empty selection spans at least one sample. *)
Lemma sample_bounds_positive (s e rate : Q) :
  (s < e)%Q -> (0 < rate)%Q ->
  1 <= Qceiling (e / 1000 * rate) - Qfloor (s / 1000 * rate).
Proof.
  intros Hse Hr.
  pose proof (Qfloor_le (s / 1000 * rate)) as Hf.
  pose proof (Qle_ceiling (e / 1000 * rate)) as Hc.
  assert (Hlt : (s / 1000 * rate < e / 1000 * rate)%Q).
  { apply Qmult_lt_compat_r; [assumption|]. qdiv. lra. }
  assert (H : (inject_Z (Qfloor (s / 1000 * rate))
               < inject_Z (Qceiling (e / 1000 * rate)))%Q) by lra.
  rewrite <- Zlt_Qlt in H. lia.
Qed.

Lemma segmentBuffer_ok (b : AudioBuffer) (sel : Selection) :
  channelData b <> [] ->
  1 <= Qceiling (sel_end sel / 1000 * sampleRate b)
       - Qfloor (sel_start sel / 1000 * sampleRate b) ->
  segmentBuffer b sel
  = Ok (mkAudioBuffer (sampleRate b)
          (Z.to_N (Qceiling (sel_end sel / 1000 * sampleRate b)
                   - Qfloor (sel_start sel / 1000 * sampleRate b)))
          (copyChannels (channelData b)
             (replicate (length (channelData b))
                (replicate
                   (Z.to_nat (Qceiling (sel_end sel / 1000 * sampleRate b)
                              - Qfloor (sel_start sel / 1000 * sampleRate b)))
                   (Fin 0)))
             (Qfloor (sel_start sel / 1000 * sampleRate b))
             (Qceiling (sel_end sel / 1000 * sampleRate b)
              - Qfloor (sel_start sel / 1000 * sampleRate b)))).
Proof.
  intros Hc HL. unfold segmentBuffer, createBuffer.
  assert (H1 : (1 <=? numberOfChannels b) = true).
  { apply Z.leb_le. unfold numberOfChannels.
    destruct (channelData b); [congruence|]. simpl. lia. }
  apply Z.leb_le in HL. rewrite H1, HL. cbn [andb sampleRate buffer_length channelData].
  unfold numberOfChannels. now rewrite Nat2Z.id.
Qed.



(** ** Playback: at most one sounding node *)

Lemma quiet_one_current (w : World) : quiet w -> one_current w.
Proof. intros Hq i Hs. now apply Hq in Hs. Qed.

Lemma quiet_nodes (w w' : World) :
  nodes (host w') = nodes (host w) -> quiet w -> quiet w'.
Proof. intros E Hq i [n [Hn Hs]]. apply (Hq i). exists n. now rewrite <- E. Qed.

Lemma one_current_core (w w' : World) :
  core w' = core w -> one_current w -> one_current w'.
Proof.
  unfold core. intros E H i [n [Hn Hs]]. inversion E as [[En Er Ep]].
  rewrite Er, Ep. apply H. exists n. now rewrite <- En.
Qed.

(** Fewer sounding nodes, same record and flag: the invariant stays. *)
Lemma one_current_shrink (w w' : World) :
  (forall i, sounding w' i -> sounding w i) ->
  sourceRef (refs w') = sourceRef (refs w) ->
  isPlaying (view w') = isPlaying (view w) ->
  one_current w -> one_current w'.
Proof. intros Hsub Er Ep H i Hs. rewrite Er, Ep. auto. Qed.

Lemma core_cancelRaf (w : World) : core (cancelRaf w) = core w.
Proof. unfold cancelRaf. now destruct (rafRef (refs w)). Qed.

Lemma core_clearTimeout (id : nat) (w : World) : core (clearTimeout id w) = core w.
Proof. unfold clearTimeout. now destruct (timers (host w) !! id). Qed.

Lemma core_clear_pending_timeout (w : World) :
  core (clear_pending_timeout w) = core w.
Proof.
  unfold clear_pending_timeout. destruct (timeoutRef (refs w)); [|reflexivity].
  unfold clearTimeout. now destruct (timers (host w) !! n).
Qed.

Lemma core_highlightCurrentWord (t : Q) (w : World) :
  core (highlightCurrentWord t w) = core w.
Proof.
  unfold highlightCurrentWord. now destruct (wordIndexAt _ _).
Qed.

Lemma core_setSelection (s : Selection) (w : World) :
  core (setSelection s w) = core w.
Proof. reflexivity. Qed.

Lemma core_handleDownload (w : World) : core (handleDownload w) = core w.
Proof.
  unfold handleDownload.
  destruct (selection (view w)); [|reflexivity].
  destruct (audioBufferRef (refs w)); [|reflexivity].
  destruct (segmentBuffer _ _); [|reflexivity].
  now destruct (audioBufferToWav _).
Qed.

Lemma nodes_handlePlayError (msg : string) (w : World) :
  nodes (host (handlePlayError msg w)) = nodes (host w).
Proof. reflexivity. Qed.

Lemma nodes_prepareAudio (enc : EncodedAudio) (w : World) :
  nodes (host (fst (prepareAudio enc w))) = nodes (host w).
Proof.
  unfold prepareAudio, getOrCreateAudioContext.
  destruct (audioCtxRef (refs w)); cbn.
  - destruct (audioBufferRef (refs w)); [reflexivity|].
    now destruct (decodes_to enc).
  - destruct (webAudioSupported (host w)); cbn; [|reflexivity].
    destruct (audioBufferRef (refs w)); [reflexivity|].
    now destruct (decodes_to enc).
Qed.

Lemma sounding_stop_node (id : nat) (w : World) (i : nat) :
  sounding (stop_node id w) i -> sounding w i /\ i <> id.
Proof.
  unfold stop_node. intros [n [Hn Hs]].
  destruct (nodes (host w) !! id) as [m|] eqn:Hm.
  - destruct (node_status m) eqn:Hst.
    + cbn in Hn. destruct (Nat.eq_dec i id) as [-> | Hne].
      * rewrite list_lookup_insert_eq in Hn
          by (eapply lookup_lt_Some; eauto).
        inversion Hn; subst. discriminate.
      * rewrite list_lookup_insert_ne in Hn by auto.
        split; [exists n; auto | auto].
    + split; [exists n; auto|]. intros ->. congruence.
    + split; [exists n; auto|]. intros ->. congruence.
  - split; [exists n; auto|]. intros ->. congruence.
Qed.

Lemma sounding_disconnect_node (id : nat) (w : World) (i : nat) :
  sounding (disconnect_node id w) i <-> sounding w i.
Proof.
  unfold disconnect_node, sounding.
  destruct (nodes (host w) !! id) as [m|] eqn:Hm; [|reflexivity].
  cbn. destruct (Nat.eq_dec i id) as [-> | Hne].
  - rewrite list_lookup_insert_eq by (eapply lookup_lt_Some; eauto).
    rewrite Hm. split; intros [n [Hn Hs]].
    + inversion Hn; subst. cbn in Hs. eauto.
    + inversion Hn; subst. eexists. split; [reflexivity|]. exact Hs.
  - now rewrite list_lookup_insert_ne by auto.
Qed.

Lemma stopCurrentSource_quiet (w : World) :
  one_current w -> quiet (stopCurrentSource w).
Proof.
  intros H. unfold stopCurrentSource.
  set (w1 := clear_pending_timeout (cancelRaf w)).
  assert (H1 : one_current w1).
  { eapply one_current_core; [|exact H]. unfold w1.
    now rewrite core_clear_pending_timeout, core_cancelRaf. }
  intros i Hs.
  assert (Hs' : sounding
                  (match sourceRef (refs w1) with
                   | Some id => w1 |> stop_node id |> disconnect_node id
                                   |> set_sourceRef None
                   | None => w1
                   end) i) by exact Hs.
  clear Hs. destruct (sourceRef (refs w1)) as [id|] eqn:Hr.
  - assert (Hd : sounding (disconnect_node id (stop_node id w1)) i) by exact Hs'.
    apply sounding_disconnect_node, sounding_stop_node in Hd as [Hw Hne].
    apply H1 in Hw as [Hw _]. congruence.
  - apply H1 in Hs' as [Hw _]. congruence.
Qed.

Lemma stopCurrentSource_sourceRef (w : World) :
  sourceRef (refs (stopCurrentSource w)) = None.
Proof.
  unfold stopCurrentSource.
  set (w1 := clear_pending_timeout (cancelRaf w)).
  assert (Hc : sourceRef (refs w1) = sourceRef (refs w)).
  { pose proof (core_clear_pending_timeout (cancelRaf w)) as E1.
    pose proof (core_cancelRaf w) as E2. unfold core in *.
    fold w1 in E1. congruence. }
  destruct (sourceRef (refs w1)) eqn:Hr; cbn; [reflexivity|exact Hr].
Qed.

Lemma startOneShot_one_current (offset d : Q) (w : World) :
  quiet w -> one_current (startOneShot offset d w).
Proof.
  intros Hq i [n [Hn Hs]]. cbn in *.
  destruct (Nat.lt_ge_cases i (length (nodes (host w)))) as [Hlt | Hge].
  - rewrite lookup_app_l in Hn by assumption.
    exfalso. apply (Hq i). now exists n.
  - apply lookup_lt_Some in Hn as Hlen. rewrite length_app in Hlen.
    cbn in Hlen. split; [f_equal; lia | reflexivity].
Qed.

Lemma start_after_prepare (enc : EncodedAudio) (offset d : Q) (w : World) :
  quiet w ->
  one_current
    (match prepareAudio enc w with
     | (w', None) => w'
     | (w', Some _) => startOneShot offset d w'
     end).
Proof.
  intros Hq. pose proof (nodes_prepareAudio enc w) as Hn.
  destruct (prepareAudio enc w) as [w' [b|]]; cbn [fst] in Hn.
  - apply startOneShot_one_current. now apply (quiet_nodes w).
  - apply quiet_one_current. now apply (quiet_nodes w).
Qed.

Lemma playSelection_one_current (sel : Selection) (w : World) :
  one_current w -> one_current (playSelection sel w).
Proof.
  intros H. unfold playSelection.
  pose proof (stopCurrentSource_quiet w H) as Hq.
  set (w1 := setAudioError None (stopCurrentSource w)).
  assert (Hq1 : quiet w1) by (now apply (quiet_nodes (stopCurrentSource w))).
  destruct (audioArrayBuffer (view w1)) as [enc|].
  - now apply start_after_prepare.
  - apply quiet_one_current. now apply (quiet_nodes w1).
Qed.

Lemma togglePlayPause_one_current (w : World) :
  one_current w -> one_current (togglePlayPause w).
Proof.
  intros H. unfold togglePlayPause.
  set (w1 := clear_pending_timeout w).
  assert (H1 : one_current w1)
    by (eapply one_current_core; [apply core_clear_pending_timeout|exact H]).
  destruct (isPlaying (view w1) || isPausing (view w1)) eqn:Hflag.
  - apply quiet_one_current. now apply stopCurrentSource_quiet.
  - apply orb_false_iff in Hflag as [Hp _].
    assert (Hq : quiet w1).
    { intros i Hs. apply H1 in Hs as [_ Hs]. congruence. }
    set (w2 := setAudioError None w1).
    assert (Hq2 : quiet w2) by (now apply (quiet_nodes w1)).
    destruct (selection (view w2)) as [sel|];
      [destruct (audioArrayBuffer (view w2)) as [enc|]|].
    + now apply start_after_prepare.
    + apply quiet_one_current. now apply (quiet_nodes w2).
    + apply quiet_one_current. now apply (quiet_nodes w2).
Qed.

Lemma handleEnded_one_current (w : World) :
  quiet w -> one_current (handleEnded w).
Proof.
  intros Hq. unfold handleEnded.
  set (w1 := set_sourceRef None (cancelRaf w)).
  assert (Hn1 : nodes (host w1) = nodes (host w)).
  { unfold w1, cancelRaf. now destruct (rafRef (refs w)). }
  assert (Hq1 : quiet w1) by (now apply (quiet_nodes w)).
  destruct (is_some (selectionRef (refs w)) && Qltb _ _).
  - destruct (audioCtxRef (refs w1) && is_some (audioBufferRef (refs w1))).
    + now apply startOneShot_one_current.
    + now apply quiet_one_current.
  - destruct (is_some (selectionRef (refs w)) && isLooping);
      apply quiet_one_current; now apply (quiet_nodes w1).
Qed.

Lemma deliver_ended_one_current (id : nat) (w : World) :
  one_current w -> one_current (deliver_ended id w).
Proof.
  intros H. unfold deliver_ended.
  destruct (nodes (host w) !! id) as [n|] eqn:Hn; [|assumption].
  set (w1 := set_nodes _ w).
  assert (Hsub : forall i, sounding w1 i -> sounding w i /\ i <> id).
  { intros i [m [Hm Hs]]. unfold w1 in Hm. cbn in Hm.
    destruct (Nat.eq_dec i id) as [-> | Hne].
    - rewrite list_lookup_insert_eq in Hm by (eapply lookup_lt_Some; eauto).
      inversion Hm; subst. discriminate.
    - rewrite list_lookup_insert_ne in Hm by auto.
      split; [exists m; auto | auto]. }
  assert (Hgoal : one_current (source_onended id w1)).
  { unfold source_onended.
    destruct (sourceRef (refs w1)) as [cur|] eqn:Hr.
    - destruct (Nat.eqb_spec cur id) as [-> | Hne].
      + apply handleEnded_one_current. intros i Hs.
        destruct (Hsub i Hs) as [Hw Hi]. apply H in Hw as [Hw _].
        unfold w1 in Hr. cbn in Hr. congruence.
      + apply (one_current_shrink w); auto. intros i Hs. now apply Hsub.
    - apply (one_current_shrink w); auto. intros i Hs. now apply Hsub. }
  destruct (node_status n); [exact Hgoal | exact Hgoal | exact H].
Qed.

Lemma loopRestart_one_current (captured : option Selection) (w : World) :
  one_current w -> one_current (loopRestart captured w).
Proof.
  intros H. unfold loopRestart.
  set (w1 := setIsPausing false w).
  assert (H1 : one_current w1) by (now apply (one_current_core w)).
  destruct captured as [sel|]; [|assumption].
  destruct (audioCtxRef (refs w1) && is_some (audioBufferRef (refs w1)));
    [now apply playSelection_one_current | assumption].
Qed.

Lemma deliver_timeout_one_current (id : nat) (w : World) :
  one_current w -> one_current (deliver_timeout id w).
Proof.
  intros H. unfold deliver_timeout.
  destruct (timers (host w) !! id) as [t|]; [|assumption].
  destruct (timer_pending t); [|assumption].
  apply loopRestart_one_current. now apply (one_current_core w).
Qed.

Lemma tick_one_current (p : bool) (s : option Selection) (w : World) :
  one_current w -> one_current (tick p s w).
Proof.
  intros H. unfold tick.
  destruct (negb p || negb (is_some s) || negb (audioCtxRef (refs w))).
  - now apply (one_current_core w).
  - set (w1 := highlightCurrentWord _ (setCurrentTime _ w)).
    assert (E1 : core w1 = core w)
      by (unfold w1; now rewrite core_highlightCurrentWord).
    assert (H1 : one_current w1) by (now apply (one_current_core w)).
    destruct (match selectionRef (refs w1) with
              | Some cs => Qleb (msToSeconds (sel_end cs)) _
              | None => false
              end).
    + eapply one_current_core; [apply core_cancelRaf|].
      destruct (sourceRef (refs w1)) as [id|] eqn:Hr; [|assumption].
      apply (one_current_shrink w1); auto.
      * intros i Hs. now apply sounding_stop_node in Hs.
      * unfold stop_node. destruct (nodes (host w1) !! id) as [m|];
          [destruct (node_status m)|]; reflexivity.
      * unfold stop_node. destruct (nodes (host w1) !! id) as [m|];
          [destruct (node_status m)|]; reflexivity.
    + now apply (one_current_core w1).
Qed.

Lemma adjust_core (a : Adjustment) (w : World) : core (adjust a w) = core w.
Proof.
  destruct a; cbn; unfold adjustStartTime, adjustEndTime;
    now destruct (selection (view w)).
Qed.

Lemma handleWordClick_one_current (word : Word) (w : World) :
  one_current w -> one_current (handleWordClick word w).
Proof.
  intros H. unfold handleWordClick.
  destruct (isPlaying (view w)).
  - apply playSelection_one_current. now apply (one_current_core w).
  - now apply (one_current_core w).
Qed.

Lemma processWordSelection_one_current (i j : nat) (w : World) :
  one_current w -> one_current (processWordSelection i j w).
Proof.
  intros H. unfold processWordSelection.
  destruct (words (transcriptData w) !! Nat.min i j) as [first|]; [|assumption].
  destruct (words (transcriptData w) !! Nat.max i j) as [last|]; [|assumption].
  destruct (isPlaying (view w)).
  - apply quiet_one_current.
    eapply (quiet_nodes (stopCurrentSource _)); [reflexivity|].
    apply stopCurrentSource_quiet. now apply (one_current_core w).
  - now apply (one_current_core w).
Qed.

Lemma step_one_current (e : Event) (w : World) :
  one_current w -> one_current (step e w).
Proof.
  intros H. destruct e; cbn [step].
  - now apply (one_current_core w).
  - now apply togglePlayPause_one_current.
  - eapply one_current_core; [apply (adjust_core (AdjustStart delta))|exact H].
  - eapply one_current_core; [apply (adjust_core (AdjustEnd delta))|exact H].
  - destruct (words (transcriptData w) !! index); [|assumption].
    now apply handleWordClick_one_current.
  - now apply processWordSelection_one_current.
  - eapply one_current_core; [apply core_handleDownload|exact H].
  - destruct (Qleb 0 dt); [now apply (one_current_core w)|assumption].
  - destruct (rafRef (refs w)); [now apply tick_one_current|assumption].
  - now apply deliver_ended_one_current.
  - now apply deliver_timeout_one_current.
Qed.

Lemma reachable_one_current (w : World) : reachable w -> one_current w.
Proof.
  induction 1 as [td sup | w e _ IH].
  - intros i [n [Hn _]]. cbn in Hn. now rewrite lookup_nil in Hn.
  - now apply step_one_current.
Qed.

Lemma source_onended_stale (id : nat) (w : World) :
  sourceRef (refs w) <> Some id -> source_onended id w = w.
Proof.
  intros Hne. unfold source_onended.
  destruct (sourceRef (refs w)) as [cur|]; [|reflexivity].
  destruct (Nat.eqb_spec cur id); [congruence | reflexivity].
Qed.

Lemma source_onended_current (id : nat) (w : World) :
  sourceRef (refs w) = Some id -> source_onended id w = handleEnded w.
Proof.
  intros E. unfold source_onended. now rewrite E, Nat.eqb_refl.
Qed.

(** Delivery of a stale notification touches neither the view nor the
    refs: only the engine's bookkeeping of the node changes. *)
Lemma deliver_ended_stale (id : nat) (w : World) :
  sourceRef (refs w) <> Some id ->
  view (deliver_ended id w) = view w /\ refs (deliver_ended id w) = refs w.
Proof.
  intros Hne. unfold deliver_ended.
  destruct (nodes (host w) !! id) as [n|]; [|split; reflexivity].
  destruct (node_status n); try (split; reflexivity);
    rewrite source_onended_stale by exact Hne; split; reflexivity.
Qed.


Lemma reachable_run (events : list Event) (w : World) :
  reachable w -> reachable (run events w).
Proof.
  revert w. induction events as [|e events IH]; intros w H; [exact H|].
  cbn. apply IH. now constructor.
Qed.


(** ** End of range *)

Lemma insert_last {A : Type} (l : list A) (x y : A) :
  <[length l := y]> (l ++ [x]) = l ++ [y].
Proof.
  replace (length l) with (length l + 0)%nat by lia.
  now rewrite insert_app_r.
Qed.



(** C3 fails on the code.  The first word (1000..3000 ms) plays to its
    end; during the pause its start is moved to 1100 ms; when the pause
    timer fires, the restarted one-shot begins at 1.0 s and lasts 2.0 s,
    the selection captured when the clip ended, although the selection
    the view and [selectionRef] hold at that moment starts at 1100 ms. *)
Theorem restart_plays_selection_captured_at_end :
  exists s n,
    selection (view adjusted_in_pause_world) = Some s /\
    selectionRef (refs adjusted_in_pause_world) = Some s /\
    (sel_start s == 1100)%Q /\ (sel_end s == 3000)%Q /\
    sourceRef (refs adjusted_in_pause_world) = Some 1%nat /\
    nodes (host adjusted_in_pause_world) !! 1%nat = Some n /\
    node_status n = Sounding /\
    (node_offset n == 1)%Q /\ (node_duration n == 2)%Q /\
    (node_offset n < msToSeconds (sel_start s))%Q.
Proof.
  eexists. eexists.
  split; [vm_compute; reflexivity|].
  split; [vm_compute; reflexivity|].
  repeat split; vm_compute; reflexivity.
Qed.

(** * Properties of the rest of the viewer *)

(** ** Paragraph layout *)

Lemma speaker_differs_false (word : Word) (current : option (option string)) :
  speaker_differs word current = false <-> current = Some (word_speaker word).
Proof.
  unfold speaker_differs.
  destruct current as [[a|]|], (word_speaker word) as [b|]; split;
    try discriminate; try reflexivity; try congruence.
  - rewrite negb_false_iff. intros H. apply String.eqb_eq in H. congruence.
  - intros [= ->]. now rewrite String.eqb_refl.
Qed.

Lemma In_seq_bound (a k i : nat) : In i (seq a k) -> (a <= i < a + k)%nat.
Proof. apply in_seq. Qed.

Lemma layout_inv_init (ws : list Word) :
  layout_inv ws 0 (mkLayout [] None [] O O).
Proof.
  constructor; cbn; auto; try lia;
    try (repeat constructor; unfold MAX_WORDS_PER_PARAGRAPH; cbn; lia);
    try (repeat constructor; intros; contradiction);
    try (intros; contradiction).
Qed.

Lemma layout_inv_elements (ws : list Word) (k : nat) (l : Layout) :
  layout_inv ws k l -> forall i, In i (currentGroup l) -> (i < k)%nat.
Proof.
  intros H i Hi.
  assert (Hin : In i (seq 0 k)).
  { rewrite <- (inv_concat _ _ _ H). apply in_or_app. now right. }
  apply in_seq in Hin. lia.
Qed.

(** The loop body keeps the invariant, one word further. *)
Lemma layout_word_inv (ws : list Word) (k : nat) (l : Layout)
    (previousWord : option Word) (word : Word) :
  layout_inv ws k l ->
  ws !! k = Some word ->
  (forall i, S i = k -> ws !! i = previousWord) ->
  layout_inv ws (S k) (layout_word previousWord word l).
Proof.
  intros H Hword Hprev. unfold layout_word.
  set (pause := match previousWord with
                | Some p => (word_start word - word_end p)%Q
                | None => 0%Q
                end).
  set (nonempty := (0 <? length (currentGroup l))%nat).
  set (full := (MAX_WORDS_PER_PARAGRAPH <=? paragraphWordCount l)%nat).
  set (b1 := if speaker_differs word (currentSpeaker l) && nonempty
             then true else false).
  set (b2 := if Qleb PAUSE_THRESHOLD pause then true else b1).
  set (b3 := if full && Qleb SMALL_PAUSE_THRESHOLD pause then true else b2).
  set (b4 := if full && negb b3 then true else b3).
  pose proof (layout_inv_elements _ _ _ H) as Hlt.
  destruct (b4 && nonempty) eqn:Hbreak.
  - (* a new paragraph starts with this word *)
    apply andb_true_iff in Hbreak as [_ Hne].
    apply Nat.ltb_lt in Hne.
    assert (Hcur : currentGroup l <> [])
      by (intros E; rewrite E in Hne; cbn in Hne; lia).
    constructor; cbn [lay_result currentSpeaker currentGroup wordIndex
                      paragraphWordCount app length].
    + now rewrite (inv_index _ _ _ H).
    + reflexivity.
    + rewrite concat_app. cbn [concat]. rewrite app_nil_r.
      rewrite (inv_concat _ _ _ H), (inv_index _ _ _ H).
      now rewrite seq_S.
    + apply Forall_app. split; [apply (inv_nonempty _ _ _ H)|].
      constructor; [|constructor]. exact Hcur.
    + discriminate.
    + intros i Hi. left. rewrite (inv_index _ _ _ H). lia.
    + apply Forall_app. split; [apply (inv_size _ _ _ H)|].
      constructor; [|constructor]. unfold MAX_WORDS_PER_PARAGRAPH. cbn. lia.
    + apply Forall_app. split; [apply (inv_speaker _ _ _ H)|].
      constructor; [|constructor]. intros i j [<-|[]] [<-|[]] wi wj Hi Hj. congruence.
    + intros i wi [<-|[]] Hi. rewrite (inv_index _ _ _ H) in Hi. congruence.
    + apply Forall_app. split; [apply (inv_pause _ _ _ H)|].
      constructor; [|constructor]. intros i [<-|[]] [E|[]]. lia.
  - (* the word joins the current paragraph *)
    pose proof (inv_size _ _ _ H) as Hsize.
    pose proof (inv_speaker _ _ _ H) as Hspk.
    pose proof (inv_pause _ _ _ H) as Hpause.
    apply Forall_app in Hsize as [Hsize1 Hsize2].
    apply Forall_app in Hspk as [Hspk1 Hspk2].
    apply Forall_app in Hpause as [Hpause1 Hpause2].
    apply Forall_inv in Hsize2, Hspk2, Hpause2.
    (* what not breaking tells, when the paragraph is not empty *)
    assert (Hjoin : currentGroup l <> [] ->
              speaker_differs word (currentSpeaker l) = false /\
              Qleb PAUSE_THRESHOLD pause = false /\ full = false).
    { intros Hcur.
      assert (Hne : nonempty = true).
      { unfold nonempty. apply Nat.ltb_lt.
        destruct (currentGroup l); [congruence | cbn; lia]. }
      rewrite Hne, andb_true_r in Hbreak.
      unfold b4, b3, b2, b1 in Hbreak. rewrite Hne, andb_true_r in Hbreak.
      destruct (speaker_differs word (currentSpeaker l)),
        (Qleb PAUSE_THRESHOLD pause), full,
        (Qleb SMALL_PAUSE_THRESHOLD pause); cbn in Hbreak;
        try discriminate; auto. }
    constructor; cbn [lay_result currentSpeaker currentGroup wordIndex
                      paragraphWordCount].
    + now rewrite (inv_index _ _ _ H).
    + rewrite length_app, (inv_count _ _ _ H). cbn. lia.
    + rewrite app_assoc, (inv_concat _ _ _ H), (inv_index _ _ _ H).
      now rewrite seq_S.
    + apply (inv_nonempty _ _ _ H).
    + intros _ E. now destruct (currentGroup l).
    + intros i Hi. apply in_or_app. right. left.
      rewrite (inv_index _ _ _ H). lia.
    + apply Forall_app. split; [exact Hsize1|]. constructor; [|constructor].
      rewrite length_app. cbn.
      destruct (currentGroup l) as [|x g] eqn:Eg; [cbn; unfold MAX_WORDS_PER_PARAGRAPH; lia|].
      destruct Hjoin as (_ & _ & Hfull); [discriminate|].
      unfold full in Hfull. apply Nat.leb_gt in Hfull.
      rewrite (inv_count _ _ _ H), Eg in Hfull. cbn in *. lia.
    + apply Forall_app. split; [exact Hspk1|]. constructor; [|constructor].
      assert (Hnew : forall i, In i (currentGroup l) ->
                same_speaker ws i (wordIndex l)).
      { intros i Hi wi wj Hwi Hwj.
        rewrite (inv_index _ _ _ H), Hword in Hwj. inversion Hwj; subst wj.
        destruct Hjoin as (Hs & _); [intros E; now rewrite E in Hi|].
        apply speaker_differs_false in Hs.
        pose proof (inv_current_speaker _ _ _ H i wi Hi Hwi). congruence. }
      intros i j Hi Hj. apply in_app_or in Hi, Hj.
      destruct Hi as [Hi|[<-|[]]], Hj as [Hj|[<-|[]]].
      * now apply Hspk2.
      * now apply Hnew.
      * intros wi wj Hwi Hwj. symmetry. now apply (Hnew j Hj wj wi).
      * intros wi wj Hwi Hwj. congruence.
    + intros i wi Hi Hwi. f_equal. apply in_app_or in Hi.
      destruct Hi as [Hi|[<-|[]]].
      * destruct Hjoin as (Hs & _); [intros E; now rewrite E in Hi|].
        apply speaker_differs_false in Hs.
        pose proof (inv_current_speaker _ _ _ H i wi Hi Hwi). congruence.
      * rewrite (inv_index _ _ _ H) in Hwi. congruence.
    + apply Forall_app. split; [exact Hpause1|]. constructor; [|constructor].
      intros i Hi Hsi. apply in_app_or in Hi, Hsi.
      rewrite (inv_index _ _ _ H) in *.
      destruct Hsi as [Hsi|[E|[]]].
      * destruct Hi as [Hi|[<-|[]]]; [now apply Hpause2|].
        apply Hlt in Hsi. lia.
      * destruct Hi as [Hi|[E'|[]]]; [|lia].
        intros wi wj Hwi Hwj. rewrite <- E, Hword in Hwj. inversion Hwj; subst wj.
        destruct Hjoin as (_ & Hp & _); [intros E'; now rewrite E' in Hi|].
        unfold pause in Hp. rewrite <- (Hprev i (eq_sym E)), Hwi in Hp.
        destruct (Qleb PAUSE_THRESHOLD (word_start word - word_end wi)) eqn:Hq;
          [discriminate|].
        apply Qnot_le_lt. intros Hle. apply Qleb_le in Hle. congruence.
Qed.

Lemma layout_words_inv (ws : list Word) (rest : list Word) :
  forall (pre : list Word) (l : Layout) (previousWord : option Word),
    ws = pre ++ rest ->
    layout_inv ws (length pre) l ->
    (forall i, S i = length pre -> ws !! i = previousWord) ->
    layout_inv ws (length ws) (layout_words previousWord rest l).
Proof.
  induction rest as [|word rest IH]; intros pre l previousWord Hws Hinv Hprev.
  - rewrite app_nil_r in Hws. subst ws. exact Hinv.
  - cbn [layout_words].
    assert (Hword : ws !! length pre = Some word).
    { subst ws. rewrite lookup_app_r, Nat.sub_diag by lia. reflexivity. }
    replace (length ws) with (length ws) by reflexivity.
    apply (IH (pre ++ [word])).
    + subst ws. now rewrite <- app_assoc.
    + rewrite length_app. cbn [length]. rewrite Nat.add_1_r.
      now apply layout_word_inv.
    + intros i Hi. rewrite length_app in Hi. cbn in Hi.
      replace i with (length pre) by lia. exact Hword.
Qed.

(** What the rendered paragraphs satisfy, in one place. *)
Lemma render_paragraphs (td : TranscriptData) (ps : list (list nat)) :
  renderTranscriptWithSpeakerBreaks td = Some ps ->
  concat ps = seq 0 (length (words td)) /\
  Forall (fun g => g <> []) ps /\
  Forall (fun g => (length g <= MAX_WORDS_PER_PARAGRAPH)%nat) ps /\
  Forall (fun g => forall i j, In i g -> In j g -> same_speaker (words td) i j) ps /\
  Forall (fun g => forall i, In i g -> In (S i) g -> short_pause (words td) i) ps.
Proof.
  unfold renderTranscriptWithSpeakerBreaks.
  destruct (words td) as [|w0 ws0] eqn:Ews; [discriminate|].
  rewrite <- Ews.
  pose proof (layout_words_inv (words td) (words td) [] (mkLayout [] None [] O O)
                None eq_refl (layout_inv_init _)) as H.
  specialize (H ltac:(intros i Hi; cbn in Hi; lia)).
  set (l := layout_words None (words td) (mkLayout [] None [] O O)) in *.
  assert (Hpos : (0 < length (words td))%nat) by (rewrite Ews; cbn; lia).
  pose proof (inv_current _ _ _ H Hpos) as Hcur.
  assert (Hne : (0 <? length (currentGroup l))%nat = true).
  { apply Nat.ltb_lt. destruct (currentGroup l); [congruence | cbn; lia]. }
  rewrite Hne. intros [= <-].
  split; [|split; [|split; [|split]]].
  - rewrite concat_app. cbn [concat]. rewrite app_nil_r.
    apply (inv_concat _ _ _ H).
  - apply Forall_app. split; [apply (inv_nonempty _ _ _ H)|].
    constructor; [exact Hcur | constructor].
  - apply (inv_size _ _ _ H).
  - apply (inv_speaker _ _ _ H).
  - apply (inv_pause _ _ _ H).
Qed.

(** X1.  The transcript is laid out without loss: an empty transcript
    renders the placeholder; otherwise the paragraphs, read in order, hold
    every word index exactly once, from 0 up, and no paragraph is empty. *)
Theorem paragraphs_partition_the_words (td : TranscriptData) :
  (renderTranscriptWithSpeakerBreaks td = None <-> words td = []) /\
  (forall ps,
     renderTranscriptWithSpeakerBreaks td = Some ps ->
     concat ps = seq 0 (length (words td)) /\
     Forall (fun g => g <> []) ps).
Proof.
  split.
  - unfold renderTranscriptWithSpeakerBreaks.
    destruct (words td); split; auto; discriminate.
  - intros ps Hps. destruct (render_paragraphs td ps Hps) as (H1 & H2 & _).
    auto.
Qed.

(** X2.  Within one rendered paragraph there are at most 150 words, all
    words carry the same speaker label, and the silence between two
    neighbouring words is shorter than 2000 ms. *)
Theorem paragraphs_respect_breaks (td : TranscriptData) (ps : list (list nat)) :
  renderTranscriptWithSpeakerBreaks td = Some ps ->
  Forall (fun g =>
    (length g <= 150)%nat /\
    (forall i j wi wj, In i g -> In j g ->
       words td !! i = Some wi -> words td !! j = Some wj ->
       word_speaker wi = word_speaker wj) /\
    (forall i wi wj, In i g -> In (S i) g ->
       words td !! i = Some wi -> words td !! (S i) = Some wj ->
       (word_start wj - word_end wi < 2000)%Q)) ps.
Proof.
  intros Hps.
  destruct (render_paragraphs td ps Hps) as (_ & _ & H3 & H4 & H5).
  rewrite Forall_forall in *. intros g Hg.
  split; [exact (H3 g Hg)|]. split.
  - intros i j wi wj Hi Hj. now apply (H4 g Hg i j).
  - intros i wi wj Hi Hsi. now apply (H5 g Hg i).
Qed.

Lemma paragraphs_respect_breaks_witness :
  renderTranscriptWithSpeakerBreaks dialogue = Some [[0; 1]; [2]]%nat /\
  Forall (fun g =>
    (length g <= 150)%nat /\
    (forall i j wi wj, In i g -> In j g ->
       words dialogue !! i = Some wi -> words dialogue !! j = Some wj ->
       word_speaker wi = word_speaker wj) /\
    (forall i wi wj, In i g -> In (S i) g ->
       words dialogue !! i = Some wi -> words dialogue !! (S i) = Some wj ->
       (word_start wj - word_end wi < 2000)%Q)) [[0; 1]; [2]]%nat.
Proof.
  split; [reflexivity|].
  apply (paragraphs_respect_breaks dialogue). reflexivity.
Defined.

(** ** Language tables *)

Lemma lower_ascii_idem (c : ascii) : lower_ascii (lower_ascii c) = lower_ascii c.
Proof. destruct c as [[] [] [] [] [] [] [] []]; reflexivity. Qed.

Lemma toLowerCase_idem (s : string) : toLowerCase (toLowerCase s) = toLowerCase s.
Proof.
  induction s as [|c s IH]; cbn; [reflexivity|].
  now rewrite lower_ascii_idem, IH.
Qed.

Lemma code_or_lower (c fallback : string) :
  code_or (Some (toLowerCase c)) fallback = code_or (Some c) fallback.
Proof. unfold code_or. now rewrite toLowerCase_idem. Qed.

(** The key looked up is the fallback or a lower-case string. *)
Lemma code_or_cases (languageCode : option string) (fallback : string) :
  code_or languageCode fallback = fallback \/
  toLowerCase (code_or languageCode fallback) = code_or languageCode fallback.
Proof.
  unfold code_or. destruct languageCode as [c|]; [|now left].
  destruct (toLowerCase c) eqn:E; [now left|].
  right. rewrite <- E. apply toLowerCase_idem.
Qed.

(** Of the members of [Object.prototype], a lower-case key can only name
    [constructor] or [__proto__]: the others have a capital letter. *)
Lemma lower_case_member (k : string) :
  toLowerCase k = k ->
  existsb (String.eqb k) Object_prototype_members = true ->
  k = "constructor"%string \/ k = "__proto__"%string.
Proof.
  intros Hk Hex. apply existsb_exists in Hex as (m & Hin & Heq).
  apply String.eqb_eq in Heq. subst m.
  unfold Object_prototype_members in Hin. cbn [In] in Hin.
  repeat (destruct Hin as [Hin | Hin];
          [subst k; first [now left | now right | discriminate Hk]|]).
  contradiction.
Qed.

Lemma own_get_In {A : Type} (table : list (string * A)) (key : string) (a : A) :
  own_get table key = Some a -> In (key, a) table.
Proof.
  induction table as [|[k v] rest IH]; cbn; [discriminate|].
  destruct (String.eqb_spec k key) as [-> | Hne].
  - intros [= ->]. now left.
  - intros H. right. now apply IH.
Qed.

(** X3.  Language lookups ignore the case of the code and never come back
    empty.  [getLanguageTypography] yields a typography whose line height
    is "leading-loose" or "leading-relaxed" (the default one when the code
    is missing, empty or unknown), and [getLanguageName] yields a listed
    name or the code in upper case; the one exception in both is a code
    that spells [constructor] or [__proto__], for which the lookup returns
    the member inherited from [Object.prototype] instead of a table
    value. *)
Theorem language_lookups_total_and_case_insensitive :
  (forall c,
     getLanguageTypography (Some (toLowerCase c)) = getLanguageTypography (Some c) /\
     getLanguageName (Some (toLowerCase c)) = getLanguageName (Some c)) /\
  (forall code,
     (exists t, getLanguageTypography code = Own t /\
        (lineHeight t = "leading-loose"%string \/
         lineHeight t = "leading-relaxed"%string)) \/
     (exists c m, code = Some c /\ toLowerCase c = m /\
        (m = "constructor"%string \/ m = "__proto__"%string) /\
        getLanguageTypography code = Inherited m)) /\
  (forall code,
     (exists name, getLanguageName code = Own name /\
        (In (code_or code "", name) languageNames \/
         name = toUpperCase (code_or code ""))) \/
     (exists c m, code = Some c /\ toLowerCase c = m /\
        (m = "constructor"%string \/ m = "__proto__"%string) /\
        getLanguageName code = Inherited m)) /\
  getLanguageTypography None = Own (mkTypography "" "leading-relaxed") /\
  getLanguageName None = Own EmptyString.
Proof.
  assert (Hkey : forall code fallback,
            code_or code fallback <> fallback ->
            exists c, code = Some c /\ toLowerCase c = code_or code fallback).
  { intros code fallback Hne. unfold code_or in *.
    destruct code as [c|]; [|congruence].
    exists c. split; [reflexivity|].
    destruct (toLowerCase c); [congruence | reflexivity]. }
  split; [|split; [|split; [|split; reflexivity]]].
  - intros c. unfold getLanguageTypography, getLanguageName.
    now rewrite !code_or_lower.
  - intros code. unfold getLanguageTypography, object_get.
    set (k := code_or code "default").
    destruct (own_get languageMap k) as [t|] eqn:Hown.
    + left. exists t. split; [reflexivity|].
      apply own_get_In in Hown. unfold languageMap in Hown. cbn [In] in Hown.
      repeat (destruct Hown as [Hown | Hown];
              [inversion Hown; subst; cbn; auto|]).
      contradiction.
    + destruct (existsb (String.eqb k) Object_prototype_members) eqn:Hex.
      * right.
        assert (Hne : k <> "default"%string)
          by (intros E; rewrite E in Hown; discriminate).
        destruct (Hkey code "default"%string Hne) as (c & -> & Hc).
        fold k in Hc. exists c, k. repeat split; auto.
        apply lower_case_member; [|exact Hex].
        rewrite <- Hc. apply toLowerCase_idem.
      * left. eexists. split; [reflexivity|]. cbn. auto.
  - intros code. unfold getLanguageName, object_get.
    set (k := code_or code "").
    destruct (own_get languageNames k) as [n|] eqn:Hown.
    + left. exists n. split; [reflexivity|]. left.
      now apply own_get_In.
    + destruct (existsb (String.eqb k) Object_prototype_members) eqn:Hex.
      * right.
        assert (Hne : k <> EmptyString)
          by (intros E; rewrite E in Hex; discriminate).
        destruct (Hkey code EmptyString Hne) as (c & -> & Hc).
        fold k in Hc. exists c, k. repeat split; auto.
        apply lower_case_member; [|exact Hex].
        rewrite <- Hc. apply toLowerCase_idem.
      * left. eexists. split; [reflexivity|]. now right.
Qed.

(** ** Word classes *)

Lemma view_stopCurrentSource (w : World) :
  selection (view (stopCurrentSource w)) = selection (view w) /\
  currentWordIndex (view (stopCurrentSource w)) = currentWordIndex (view w) /\
  isPlaying (view (stopCurrentSource w)) = false /\
  isPausing (view (stopCurrentSource w)) = false.
Proof.
  unfold stopCurrentSource, cancelRaf, clear_pending_timeout, clearTimeout,
    stop_node, disconnect_node.
  destruct (rafRef (refs w)); cbn;
    destruct (timeoutRef (refs w)); cbn;
    repeat match goal with
    | |- context [match ?x with _ => _ end] => destruct x; cbn
    end; auto.
Qed.

(** X4.  After a drag selection from word [i] to word [j] (in either
    order) over a chronologically ordered transcript, every word of the
    span is rendered with the selection class. *)
Theorem selected_span_is_highlighted
    (w : World) (i j k : nat) (wk : Word) :
  chronological (words (transcriptData w)) ->
  isPausing (view w) = false ->
  (Nat.max i j < length (words (transcriptData w)))%nat ->
  (Nat.min i j <= k <= Nat.max i j)%nat ->
  words (transcriptData w) !! k = Some wk ->
  getWordClass wk k (processWordSelection i j w) = "bg-blue-200"%string.
Proof.
  intros Hchron Hpause Hmax Hk Hwk.
  destruct (lookup_lt_is_Some_2 (words (transcriptData w)) (Nat.min i j)
              ltac:(lia)) as [first Hfirst].
  destruct (lookup_lt_is_Some_2 (words (transcriptData w)) (Nat.max i j) Hmax)
    as [last Hlast].
  destruct (Hchron _ _ _ _ (proj1 Hk) Hfirst Hwk) as [Hs _].
  destruct (Hchron _ _ _ _ (proj2 Hk) Hwk Hlast) as [_ He].
  apply Qleb_le in Hs, He.
  unfold processWordSelection. rewrite Hfirst, Hlast.
  set (text := String.concat _ _).
  unfold getWordClass.
  destruct (isPlaying (view w)) eqn:Hp.
  - pose proof (view_stopCurrentSource
                  (setSelection (mkSelection (word_start first) (word_end last) text) w))
      as (E1 & _ & _ & E4).
    cbn -[stopCurrentSource] in *.
    rewrite E1, E4. cbn. now rewrite Hs, He.
  - cbn. rewrite Hp, Hpause. cbn. now rewrite Hs, He.
Qed.

Lemma selected_span_is_highlighted_witness :
  getWordClass (mkWord "morning" 600 1000 None (Some "A"%string)) 1
    (processWordSelection 2 0 (initial_world dialogue true))
  = "bg-blue-200"%string.
Proof.
  apply (selected_span_is_highlighted (initial_world dialogue true) 2 0 1).
  - intros a b wa wb Hab Ha Hb. cbn in Ha, Hb.
    destruct a as [|[|[|a]]], b as [|[|[|b]]];
      cbn in Ha, Hb; try discriminate; try lia;
      inversion Ha; inversion Hb; subst; cbn; split; lra.
  - reflexivity.
  - cbn. lia.
  - cbn. lia.
  - reflexivity.
Defined.

(** ** The header of an encoded file *)

Lemma Qtrunc_comp (x y : Q) : (x == y)%Q -> Qtrunc x = Qtrunc y.
Proof.
  intros E. unfold Qtrunc, Qleb.
  assert (Hb : Qle_bool 0 x = Qle_bool 0 y).
  { destruct (Qle_bool 0 x) eqn:Hx, (Qle_bool 0 y) eqn:Hy; auto.
    - apply Qle_bool_iff in Hx. rewrite E in Hx.
      apply Qle_bool_iff in Hx. congruence.
    - apply Qle_bool_iff in Hy. rewrite <- E in Hy.
      apply Qle_bool_iff in Hy. congruence. }
  rewrite Hb. destruct (Qle_bool 0 y);
    [now apply Qfloor_comp | now apply Qceiling_comp].
Qed.

Lemma getUint32_at (bytes : list Z) (p v : Z) :
  0 <= p ->
  take 4 (drop (Z.to_nat p) bytes) = le_bytes 4 v ->
  0 <= v < 2 ^ 32 ->
  getUint32 bytes p = v.
Proof.
  intros Hp E Hv.
  assert (Hlen : (Z.to_nat p <= length bytes)%nat).
  { destruct (Nat.le_gt_cases (Z.to_nat p) (length bytes)) as [H | H]; auto.
    rewrite drop_ge in E by lia. discriminate E. }
  rewrite <- (take_drop (Z.to_nat p) bytes).
  rewrite <- (take_drop 4 (drop (Z.to_nat p) bytes)), E.
  apply getUint32_le_bytes; [|exact Hv].
  rewrite length_take. lia.
Qed.

Lemma getUint16_at (bytes : list Z) (p v : Z) :
  0 <= p ->
  take 2 (drop (Z.to_nat p) bytes) = le_bytes 2 v ->
  0 <= v < 2 ^ 16 ->
  getUint16 bytes p = v.
Proof.
  intros Hp E Hv.
  assert (Hlen : (Z.to_nat p <= length bytes)%nat).
  { destruct (Nat.le_gt_cases (Z.to_nat p) (length bytes)) as [H | H]; auto.
    rewrite drop_ge in E by lia. discriminate E. }
  rewrite <- (take_drop (Z.to_nat p) bytes).
  rewrite <- (take_drop 2 (drop (Z.to_nat p) bytes)), E.
  apply getUint16_le_bytes; [|exact Hv].
  rewrite length_take. lia.
Qed.

(** X5.  The 44-byte header [audioBufferToWav] writes describes the buffer
    as 16-bit PCM: the tags "RIFF", "WAVE", "fmt " and "data" at bytes 0,
    8, 12 and 36, a format chunk of 16 bytes, format 1, the channel count,
    the sample rate, a byte rate equal to sample rate times block align, a
    block align of two bytes per channel, and 16 bits per sample.  This
    holds for an integral sample rate [r] and [c] channels with
    [2 r c < 2^32] and [c < 2^15]; larger values wrap in their fields. *)
Theorem wav_header_describes_buffer (b : AudioBuffer) (r : Z) :
  (sampleRate b == inject_Z r)%Q ->
  0 <= r ->
  r * 2 * numberOfChannels b < 2 ^ 32 ->
  r < 2 ^ 32 ->
  numberOfChannels b < 2 ^ 15 ->
  exists bytes,
    audioBufferToWav b = Ok bytes /\
    tag_at bytes 0 = ascii_bytes "RIFF" /\
    tag_at bytes 8 = ascii_bytes "WAVE" /\
    tag_at bytes 12 = ascii_bytes "fmt " /\
    getUint32 bytes 16 = 16 /\
    getUint16 bytes 20 = 1 /\
    getUint16 bytes 22 = numberOfChannels b /\
    getUint32 bytes 24 = r /\
    getUint32 bytes 28 = r * getUint16 bytes 32 /\
    getUint16 bytes 32 = 2 * numberOfChannels b /\
    getUint16 bytes 34 = 16 /\
    tag_at bytes 36 = ascii_bytes "data".
Proof.
  intros Hr Hr0 Hrate Hr32 Hc.
  assert (Hc0 : 0 <= numberOfChannels b) by (unfold numberOfChannels; lia).
  change (2 ^ 32) with 4294967296 in *. change (2 ^ 15) with 32768 in *.
  eexists. split; [apply audioBufferToWav_closed_form|].
  set (payload := frames_bytes _ _ _).
  set (len := wav_length b).
  assert (Hrate_field : ToUint32 (sampleRate b) = r).
  { unfold ToUint32. rewrite (Qtrunc_comp _ _ Hr), Qtrunc_inject_Z.
    apply Z.mod_small. change (2 ^ 32) with 4294967296. lia. }
  assert (Hbytes_field :
            ToUint32 (sampleRate b * 2 * inject_Z (numberOfChannels b))
            = r * 2 * numberOfChannels b).
  { unfold ToUint32.
    rewrite (Qtrunc_comp _ (inject_Z (r * 2 * numberOfChannels b))).
    - rewrite Qtrunc_inject_Z. apply Z.mod_small.
      change (2 ^ 32) with 4294967296. nia.
    - rewrite Hr, !inject_Z_mult. reflexivity. }
  assert (Halign : ToUint16 (inject_Z (numberOfChannels b * 2))
                   = 2 * numberOfChannels b).
  { unfold ToUint16. rewrite Qtrunc_inject_Z.
    rewrite Z.mod_small by (change (2 ^ 16) with 65536; lia). lia. }
  assert (Hchan : ToUint16 (inject_Z (numberOfChannels b))
                  = numberOfChannels b).
  { unfold ToUint16. rewrite Qtrunc_inject_Z.
    apply Z.mod_small. change (2 ^ 16) with 65536. lia. }
  assert (E32 : getUint16 (wav_header b len ++ payload) 32
                = 2 * numberOfChannels b).
  { apply getUint16_at; [lia | unfold wav_header; now rewrite Halign|].
    change (2 ^ 16) with 65536. lia. }
  split_and!.
  - reflexivity.
  - reflexivity.
  - reflexivity.
  - apply getUint32_at; [lia | reflexivity | cbn; lia].
  - apply getUint16_at; [lia | reflexivity | cbn; lia].
  - apply getUint16_at; [lia | unfold wav_header; now rewrite Hchan|].
    change (2 ^ 16) with 65536. lia.
  - apply getUint32_at; [lia | unfold wav_header; now rewrite Hrate_field|].
    change (2 ^ 32) with 4294967296. lia.
  - rewrite E32.
    apply getUint32_at; [lia | unfold wav_header; rewrite Hbytes_field|].
    + replace (r * (2 * numberOfChannels b)) with (r * 2 * numberOfChannels b)
        by ring. reflexivity.
    + change (2 ^ 32) with 4294967296. nia.
  - exact E32.
  - apply getUint16_at; [lia | reflexivity | cbn; lia].
  - reflexivity.
Qed.

Lemma wav_header_describes_buffer_witness :
  exists bytes,
    audioBufferToWav four_samples = Ok bytes /\
    tag_at bytes 0 = ascii_bytes "RIFF" /\
    tag_at bytes 8 = ascii_bytes "WAVE" /\
    tag_at bytes 12 = ascii_bytes "fmt " /\
    getUint32 bytes 16 = 16 /\
    getUint16 bytes 20 = 1 /\
    getUint16 bytes 22 = numberOfChannels four_samples /\
    getUint32 bytes 24 = 1000 /\
    getUint32 bytes 28 = 1000 * getUint16 bytes 32 /\
    getUint16 bytes 32 = 2 * numberOfChannels four_samples /\
    getUint16 bytes 34 = 16 /\
    tag_at bytes 36 = ascii_bytes "data".
Proof.
  apply (wav_header_describes_buffer four_samples 1000).
  - reflexivity.
  - lia.
  - reflexivity.
  - reflexivity.
  - reflexivity.
Defined.

(** ** The quantiser *)

Lemma Qtrunc_mono (x y : Q) : (x <= y)%Q -> Qtrunc x <= Qtrunc y.
Proof.
  intros Hxy. unfold Qtrunc.
  destruct (Qleb 0 x) eqn:Hx, (Qleb 0 y) eqn:Hy.
  - now apply Qfloor_resp_le.
  - apply Qleb_le in Hx. apply Qltb_ge in Hx.
    exfalso. unfold Qleb in Hy.
    assert (Hle : (0 <= y)%Q) by (apply Qltb_ge in Hx; lra).
    apply Qle_bool_iff in Hle. congruence.
  - apply Qleb_le in Hy.
    assert (Hneg : (x < 0)%Q).
    { apply Qnot_le_lt. intros H. apply Qleb_le in H. congruence. }
    pose proof (Qceiling_resp_le x 0 (Qlt_le_weak _ _ Hneg)) as H1.
    change (Qceiling 0) with 0 in H1.
    pose proof (Qfloor_resp_le 0 y Hy) as H2.
    change (Qfloor 0) with 0 in H2. lia.
  - now apply Qceiling_resp_le.
Qed.

Lemma Qtrunc_small (x : Q) : (-1 < x)%Q -> (x < 1)%Q -> Qtrunc x = 0.
Proof.
  intros Hlo Hhi. unfold Qtrunc. destruct (Qleb 0 x) eqn:Hx.
  - apply Qleb_le in Hx.
    apply Qfloor_unique;
      [change (inject_Z 0) with 0%Q | change (inject_Z (0 + 1)) with 1%Q]; lra.
  - assert (Hneg : (x < 0)%Q).
    { apply Qnot_le_lt. intros H. apply Qleb_le in H. congruence. }
    unfold Qceiling.
    assert (E : Qfloor (- x) = 0).
    { apply Qfloor_unique;
        [change (inject_Z 0) with 0%Q | change (inject_Z (0 + 1)) with 1%Q];
        lra. }
    rewrite E. reflexivity.
Qed.

(** The value handed to [setInt16], as a function of the sample. *)
Lemma scaled_cases (x : Q) :
  let clamped := Qmax (-1) (Qmin 1 x) in
  let scaled := (if Qltb clamped 0 then clamped * 32768 else clamped * 32767)%Q in
  ((x <= -1)%Q /\ (scaled == -32768)%Q) \/
  ((-1 <= x)%Q /\ (x < 0)%Q /\ (scaled == x * 32768)%Q) \/
  ((0 <= x)%Q /\ (x <= 1)%Q /\ (scaled == x * 32767)%Q) \/
  ((1 <= x)%Q /\ (scaled == 32767)%Q).
Proof.
  intros clamped scaled. unfold scaled, clamped.
  destruct (Qltb (Qmax (-1) (Qmin 1 x)) 0) eqn:Hneg;
    [apply Qltb_lt in Hneg | apply Qltb_ge in Hneg];
    qminmax.
  all: destruct (Qlt_le_dec x (-1)); destruct (Qlt_le_dec x 0);
    destruct (Qlt_le_dec x 1);
    first [ left; split; lra
          | right; left; repeat split; lra
          | right; right; left; repeat split; lra
          | right; right; right; split; lra ].
Qed.

(** X6.  The 16-bit value stored for a sample never decreases when the
    sample grows, lies between -32768 and 32767, saturates at -32768 from
    -1 downwards and at 32767 from 1 upwards, and is 0 for every sample
    strictly between -1/32768 and 1/32767 as well as for a missing one
    ([NaN]). *)
Theorem quantiser_monotone_and_saturating :
  (forall x y : Q, (x <= y)%Q ->
     ToInt16 (scale_sample (Fin x)) <= ToInt16 (scale_sample (Fin y))) /\
  (forall x : num, -32768 <= ToInt16 (scale_sample x) <= 32767) /\
  (forall x : Q, (x <= -1)%Q -> ToInt16 (scale_sample (Fin x)) = -32768) /\
  (forall x : Q, (1 <= x)%Q -> ToInt16 (scale_sample (Fin x)) = 32767) /\
  (forall x : Q, (- (1 # 32768) < x)%Q -> (x < 1 # 32767)%Q ->
     ToInt16 (scale_sample (Fin x)) = 0) /\
  ToInt16 (scale_sample NaN) = 0.
Proof.
  split_and!.
  - intros x y Hxy. rewrite !ToInt16_scale_sample.
    apply Qtrunc_mono.
    destruct (scaled_cases x) as [[? ->] | [(? & ? & ->) | [(? & ? & ->) | [? ->]]]];
      destruct (scaled_cases y) as [[? ->] | [(? & ? & ->) | [(? & ? & ->) | [? ->]]]];
      lra.
  - intros x. pose proof (ToInt16_range (scale_sample x)) as H.
    change (2 ^ 15) with 32768 in H. lia.
  - intros x Hx. rewrite ToInt16_scale_sample.
    rewrite (Qtrunc_comp _ (inject_Z (-32768))); [apply Qtrunc_inject_Z|].
    destruct (scaled_cases x) as [[? ->] | [(? & ? & ->) | [(? & ? & ->) | [? ->]]]];
      change (inject_Z (-32768)) with (-32768)%Q; lra.
  - intros x Hx. rewrite ToInt16_scale_sample.
    rewrite (Qtrunc_comp _ (inject_Z 32767)); [apply Qtrunc_inject_Z|].
    destruct (scaled_cases x) as [[? ->] | [(? & ? & ->) | [(? & ? & ->) | [? ->]]]];
      change (inject_Z 32767) with 32767%Q; lra.
  - intros x Hlo Hhi. rewrite ToInt16_scale_sample.
    assert (H1 : (- (1 # 32768) == - (1 / 32768))%Q) by reflexivity.
    apply Qtrunc_small;
      destruct (scaled_cases x) as [[? ->] | [(? & ? & ->) | [(? & ? & ->) | [? ->]]]];
      lra.
  - reflexivity.
Qed.

(** ** Downloading an empty selection *)

Lemma Qceiling_nonintegral (x : Q) :
  ~ (x == inject_Z (Qfloor x))%Q -> Qceiling x = Qfloor x + 1.
Proof.
  intros Hx.
  pose proof (Qfloor_le x) as H1. pose proof (Qlt_floor x) as H2.
  pose proof (Qle_ceiling x) as H3. pose proof (Qceiling_lt x) as H4.
  assert (H5 : (inject_Z (Qfloor x) < x)%Q).
  { apply Qnot_le_lt. intros H. apply Hx. now apply Qle_antisym. }
  assert (H6 : (inject_Z (Qfloor x) < inject_Z (Qceiling x))%Q) by lra.
  assert (H7 : (inject_Z (Qceiling x - 1) < inject_Z (Qfloor x + 1))%Q) by lra.
  rewrite <- Zlt_Qlt in H6, H7. lia.
Qed.



(** ** Playback: pending restarts *)

Ltac destruct_matches :=
  repeat match goal with
  | |- context [match ?x with _ => _ end] => destruct x eqn:?; cbn
  end.

Lemma timers_ok_tcore (w w' : World) :
  tcore w' = tcore w -> timers_ok w -> timers_ok w'.
Proof.
  unfold tcore. intros E H i [t [Ht Hp]]. inversion E as [[Et Er Es Ep]].
  rewrite Er, Es, Ep. apply H. exists t. now rewrite <- Et.
Qed.

Lemma no_pending_timers_ok (w : World) : no_pending w -> timers_ok w.
Proof. intros H i Hp. now apply H in Hp. Qed.

Lemma no_pending_same (w w' : World) :
  timers (host w') = timers (host w) -> no_pending w -> no_pending w'.
Proof. intros E H i [t [Ht Hp]]. apply (H i). exists t. now rewrite <- E. Qed.

Lemma pending_clearTimeout (id i : nat) (w : World) :
  pending (clearTimeout id w) i -> pending w i /\ i <> id.
Proof.
  unfold clearTimeout. intros [t [Ht Hp]].
  destruct (timers (host w) !! id) as [t0|] eqn:Hid.
  - cbn in Ht. destruct (Nat.eq_dec i id) as [-> | Hne].
    + rewrite list_lookup_insert_eq in Ht by (eapply lookup_lt_Some; eauto).
      inversion Ht; subst. discriminate.
    + rewrite list_lookup_insert_ne in Ht by auto.
      split; [exists t; auto | auto].
  - split; [exists t; auto|]. intros ->. congruence.
Qed.

Lemma clear_pending_timeout_no_pending (w : World) :
  timers_ok w -> no_pending (clear_pending_timeout w).
Proof.
  intros H i Hp. unfold clear_pending_timeout in Hp.
  destruct (timeoutRef (refs w)) as [id|] eqn:Hr.
  - assert (Hp' : pending (clearTimeout id w) i).
    { destruct Hp as [t Ht]. exists t. exact Ht. }
    apply pending_clearTimeout in Hp' as [Hw Hne].
    apply H in Hw as [Hw _]. congruence.
  - apply H in Hp as [Hp _]. congruence.
Qed.

Lemma tcore_cancelRaf (w : World) : tcore (cancelRaf w) = tcore w.
Proof. unfold cancelRaf. now destruct (rafRef (refs w)). Qed.

Lemma timers_stop_node (id : nat) (w : World) :
  timers (host (stop_node id w)) = timers (host w).
Proof. unfold stop_node. now destruct_matches. Qed.

Lemma timers_disconnect_node (id : nat) (w : World) :
  timers (host (disconnect_node id w)) = timers (host w).
Proof. unfold disconnect_node. now destruct_matches. Qed.

Lemma timers_stopCurrentSource (w : World) :
  timers (host (stopCurrentSource w))
  = timers (host (clear_pending_timeout (cancelRaf w))).
Proof.
  unfold stopCurrentSource.
  set (w1 := clear_pending_timeout (cancelRaf w)).
  destruct (sourceRef (refs w1)); cbn; [|reflexivity].
  now rewrite timers_disconnect_node, timers_stop_node.
Qed.

Lemma stopCurrentSource_no_pending (w : World) :
  timers_ok w -> no_pending (stopCurrentSource w).
Proof.
  intros H.
  apply (no_pending_same (clear_pending_timeout (cancelRaf w)));
    [apply timers_stopCurrentSource|].
  apply clear_pending_timeout_no_pending.
  eapply timers_ok_tcore; [apply tcore_cancelRaf | exact H].
Qed.

Lemma timers_prepareAudio (enc : EncodedAudio) (w : World) :
  timers (host (fst (prepareAudio enc w))) = timers (host w).
Proof.
  unfold prepareAudio, getOrCreateAudioContext.
  destruct (audioCtxRef (refs w)); cbn.
  - destruct (audioBufferRef (refs w)); [reflexivity|].
    now destruct (decodes_to enc).
  - destruct (webAudioSupported (host w)); cbn; [|reflexivity].
    destruct (audioBufferRef (refs w)); [reflexivity|].
    now destruct (decodes_to enc).
Qed.

Lemma timers_after_prepare (enc : EncodedAudio) (offset d : Q) (w : World) :
  timers (host (match prepareAudio enc w with
                | (w', None) => w'
                | (w', Some _) => startOneShot offset d w'
                end))
  = timers (host w).
Proof.
  pose proof (timers_prepareAudio enc w) as Hn.
  destruct (prepareAudio enc w) as [w' [b|]]; cbn [fst] in Hn; exact Hn.
Qed.

Lemma playSelection_no_pending (sel : Selection) (w : World) :
  timers_ok w -> no_pending (playSelection sel w).
Proof.
  intros H. pose proof (stopCurrentSource_no_pending w H) as Hq.
  unfold playSelection.
  set (w1 := setAudioError None (stopCurrentSource w)).
  assert (Hq1 : no_pending w1) by (now apply (no_pending_same (stopCurrentSource w))).
  destruct (audioArrayBuffer (view w1)) as [enc|].
  - eapply no_pending_same; [apply timers_after_prepare | exact Hq1].
  - now apply (no_pending_same w1).
Qed.

Lemma togglePlayPause_no_pending (w : World) :
  timers_ok w -> no_pending (togglePlayPause w).
Proof.
  intros H. unfold togglePlayPause.
  set (w1 := clear_pending_timeout w).
  assert (H1 : no_pending w1) by (now apply clear_pending_timeout_no_pending).
  destruct (isPlaying (view w1) || isPausing (view w1)).
  - apply stopCurrentSource_no_pending. now apply no_pending_timers_ok.
  - set (w2 := setAudioError None w1).
    assert (H2 : no_pending w2) by (now apply (no_pending_same w1)).
    destruct (selection (view w2)) as [sel|];
      [destruct (audioArrayBuffer (view w2)) as [enc|]|].
    + eapply no_pending_same; [apply timers_after_prepare | exact H2].
    + now apply (no_pending_same w2).
    + now apply (no_pending_same w2).
Qed.

Lemma handleEnded_timers_ok (w : World) :
  no_pending w -> timers_ok (handleEnded w).
Proof.
  intros Hq. unfold handleEnded.
  set (w1 := set_sourceRef None (cancelRaf w)).
  assert (Hn1 : timers (host w1) = timers (host w)).
  { unfold w1, cancelRaf. now destruct (rafRef (refs w)). }
  assert (Hq1 : no_pending w1) by (now apply (no_pending_same w)).
  destruct (is_some (selectionRef (refs w)) && Qltb _ _).
  - apply no_pending_timers_ok.
    destruct (audioCtxRef (refs w1) && is_some (audioBufferRef (refs w1)));
      [now apply (no_pending_same w1) | exact Hq1].
  - destruct (is_some (selectionRef (refs w)) && isLooping).
    + intros i [t [Ht Hp]]. cbn in Ht |- *.
      destruct (Nat.lt_ge_cases i (length (timers (host (cancelRaf w)))))
        as [Hlt | Hge].
      * rewrite lookup_app_l in Ht by assumption.
        exfalso. apply (Hq1 i). exists t. split; [exact Ht | exact Hp].
      * apply lookup_lt_Some in Ht as Hlen. rewrite length_app in Hlen.
        cbn in Hlen. repeat split. f_equal. lia.
    + apply no_pending_timers_ok. now apply (no_pending_same w1).
Qed.

Lemma deliver_ended_timers_ok (id : nat) (w : World) :
  timers_ok w -> timers_ok (deliver_ended id w).
Proof.
  intros H. unfold deliver_ended.
  destruct (nodes (host w) !! id) as [n|]; [|assumption].
  set (w1 := set_nodes _ w).
  assert (H1 : timers_ok w1) by (now apply (timers_ok_tcore w)).
  destruct (node_status n); try exact H;
    (destruct (option_eq_dec (sourceRef (refs w1)) (Some id)) as [E | Hne];
     [ rewrite (source_onended_current id w1 E);
       apply handleEnded_timers_ok;
       intros i Hp; apply H1 in Hp as (_ & Hs & _); congruence
     | rewrite (source_onended_stale id w1 Hne); exact H1 ]).
Qed.

Lemma loopRestart_no_pending (captured : option Selection) (w : World) :
  no_pending w -> no_pending (loopRestart captured w).
Proof.
  intros H. unfold loopRestart.
  set (w1 := setIsPausing false w).
  assert (H1 : no_pending w1) by (now apply (no_pending_same w)).
  destruct captured as [sel|]; [|assumption].
  destruct (audioCtxRef (refs w1) && is_some (audioBufferRef (refs w1)));
    [|assumption].
  apply playSelection_no_pending. now apply no_pending_timers_ok.
Qed.

Lemma deliver_timeout_timers_ok (id : nat) (w : World) :
  timers_ok w -> timers_ok (deliver_timeout id w).
Proof.
  intros H. unfold deliver_timeout.
  destruct (timers (host w) !! id) as [t|] eqn:Hid; [|assumption].
  destruct (timer_pending t) eqn:Hp; [|assumption].
  apply no_pending_timers_ok, loopRestart_no_pending.
  intros i [t' [Ht' Hp']]. cbn in Ht'.
  destruct (Nat.eq_dec i id) as [-> | Hne].
  - rewrite list_lookup_insert_eq in Ht' by (eapply lookup_lt_Some; eauto).
    inversion Ht'; subst. discriminate.
  - rewrite list_lookup_insert_ne in Ht' by auto.
    assert (Hi : pending w i) by (now exists t').
    assert (Hd : pending w id) by (now exists t).
    apply H in Hi as [Hi _]. apply H in Hd as [Hd _]. congruence.
Qed.

Lemma tcore_highlightCurrentWord (t : Q) (w : World) :
  tcore (highlightCurrentWord t w) = tcore w.
Proof. unfold highlightCurrentWord. now destruct (wordIndexAt _ _). Qed.

Lemma tcore_stop_node (id : nat) (w : World) :
  tcore (stop_node id w) = tcore w.
Proof. unfold stop_node. now destruct_matches. Qed.

Lemma tcore_tick (p : bool) (s : option Selection) (w : World) :
  tcore (tick p s w) = tcore w.
Proof.
  unfold tick.
  destruct (negb p || negb (is_some s) || negb (audioCtxRef (refs w)));
    [reflexivity|].
  set (w1 := highlightCurrentWord _ (setCurrentTime _ w)).
  assert (E1 : tcore w1 = tcore w)
    by (unfold w1; now rewrite tcore_highlightCurrentWord).
  destruct (match selectionRef (refs w1) with
            | Some cs => Qleb (msToSeconds (sel_end cs)) _
            | None => false
            end); [|exact E1].
  rewrite tcore_cancelRaf.
  destruct (sourceRef (refs w1)); [now rewrite tcore_stop_node | exact E1].
Qed.

Lemma tcore_adjust (a : Adjustment) (w : World) : tcore (adjust a w) = tcore w.
Proof.
  destruct a; cbn; unfold adjustStartTime, adjustEndTime;
    now destruct (selection (view w)).
Qed.

Lemma tcore_handleDownload (w : World) : tcore (handleDownload w) = tcore w.
Proof.
  unfold handleDownload.
  destruct (selection (view w)); [|reflexivity].
  destruct (audioBufferRef (refs w)); [|reflexivity].
  destruct (segmentBuffer _ _); [|reflexivity].
  now destruct (audioBufferToWav _).
Qed.

Lemma handleWordClick_timers_ok (word : Word) (w : World) :
  timers_ok w -> timers_ok (handleWordClick word w).
Proof.
  intros H. unfold handleWordClick.
  destruct (isPlaying (view w)).
  - apply no_pending_timers_ok, playSelection_no_pending.
    now apply (timers_ok_tcore w).
  - now apply (timers_ok_tcore w).
Qed.

Lemma processWordSelection_timers_ok (i j : nat) (w : World) :
  timers_ok w -> timers_ok (processWordSelection i j w).
Proof.
  intros H. unfold processWordSelection.
  destruct (words (transcriptData w) !! Nat.min i j); [|assumption].
  destruct (words (transcriptData w) !! Nat.max i j); [|assumption].
  destruct (isPlaying (view w)).
  - apply no_pending_timers_ok.
    eapply (no_pending_same (stopCurrentSource _)); [reflexivity|].
    apply stopCurrentSource_no_pending. now apply (timers_ok_tcore w).
  - now apply (timers_ok_tcore w).
Qed.

Lemma step_timers_ok (e : Event) (w : World) :
  timers_ok w -> timers_ok (step e w).
Proof.
  intros H. destruct e; cbn [step].
  - now apply (timers_ok_tcore w).
  - now apply no_pending_timers_ok, togglePlayPause_no_pending.
  - eapply timers_ok_tcore; [apply (tcore_adjust (AdjustStart delta))|exact H].
  - eapply timers_ok_tcore; [apply (tcore_adjust (AdjustEnd delta))|exact H].
  - destruct (words (transcriptData w) !! index); [|assumption].
    now apply handleWordClick_timers_ok.
  - now apply processWordSelection_timers_ok.
  - eapply timers_ok_tcore; [apply tcore_handleDownload|exact H].
  - destruct (Qleb 0 dt); [now apply (timers_ok_tcore w)|assumption].
  - destruct (rafRef (refs w)); [|assumption].
    eapply timers_ok_tcore; [apply tcore_tick|exact H].
  - now apply deliver_ended_timers_ok.
  - now apply deliver_timeout_timers_ok.
Qed.

Lemma reachable_timers_ok (w : World) : reachable w -> timers_ok w.
Proof.
  induction 1 as [td sup | w e _ IH].
  - intros i [t [Ht _]]. cbn in Ht. now rewrite lookup_nil in Ht.
  - now apply step_timers_ok.
Qed.



(** ** Playback: stopping is final *)

Lemma refs_stopCurrentSource (w : World) :
  rafRef (refs (stopCurrentSource w)) = None /\
  timeoutRef (refs (stopCurrentSource w)) = None /\
  audioCtxRef (refs (stopCurrentSource w)) = audioCtxRef (refs w) /\
  audioBufferRef (refs (stopCurrentSource w)) = audioBufferRef (refs w) /\
  selectionRef (refs (stopCurrentSource w)) = selectionRef (refs w).
Proof.
  unfold stopCurrentSource, cancelRaf, clear_pending_timeout, clearTimeout,
    stop_node, disconnect_node.
  destruct (rafRef (refs w)) eqn:Hraf; cbn;
    destruct (timeoutRef (refs w)) eqn:Htime; cbn;
    repeat match goal with
    | |- context [match ?x with _ => _ end] => destruct x eqn:?; cbn
    end; auto.
Qed.

Lemma stopCurrentSource_inert (w : World) :
  one_current w -> timers_ok w -> inert (stopCurrentSource w).
Proof.
  intros Hone Hok. split_and!.
  - now apply stopCurrentSource_quiet.
  - now apply stopCurrentSource_no_pending.
  - apply stopCurrentSource_sourceRef.
  - apply refs_stopCurrentSource.
Qed.

(** An inert world ignores what the engine still delivers. *)
Lemma inert_step (e : Event) (w : World) :
  inert w -> engine_event e = true ->
  inert (step e w) /\ view (step e w) = view w /\ refs (step e w) = refs w.
Proof.
  intros (Hq & Hp & Hs & Hraf) He. destruct e; try discriminate He; cbn [step].
  - destruct (Qleb 0 dt); (split; [|split; reflexivity]); split_and!; auto.
  - rewrite Hraf. split; [|split; reflexivity]. split_and!; auto.
  - assert (Hne : sourceRef (refs w) <> Some id) by congruence.
    destruct (deliver_ended_stale id w Hne) as [Ev Er].
    split; [|split; assumption].
    assert (Hnodes : forall i, sounding (deliver_ended id w) i -> sounding w i).
    { unfold deliver_ended. intros i.
      destruct (nodes (host w) !! id) as [n|] eqn:Hn; [|auto].
      destruct (node_status n) eqn:Hst; auto;
        rewrite source_onended_stale by exact Hne;
        intros [m [Hm Hsm]]; cbn in Hm;
        (destruct (Nat.eq_dec i id) as [-> | Hni];
         [ rewrite list_lookup_insert_eq in Hm
             by (eapply lookup_lt_Some; eauto);
           inversion Hm; subst; discriminate
         | rewrite list_lookup_insert_ne in Hm by auto; now exists m ]). }
    assert (Htimers : timers (host (deliver_ended id w)) = timers (host w)).
    { unfold deliver_ended.
      destruct (nodes (host w) !! id) as [n|]; [|reflexivity].
      destruct (node_status n); try reflexivity;
        now rewrite source_onended_stale by exact Hne. }
    split_and!.
    + intros i Hi. apply (Hq i). auto.
    + now apply (no_pending_same w).
    + now rewrite Er.
    + now rewrite Er.
  - unfold deliver_timeout.
    destruct (timers (host w) !! id) as [t|] eqn:Ht;
      [|split; [|split; reflexivity]; split_and!; auto].
    destruct (timer_pending t) eqn:Hpt;
      [|split; [|split; reflexivity]; split_and!; auto].
    exfalso. apply (Hp id). now exists t.
Qed.

Lemma inert_run (events : list Event) (w : World) :
  inert w -> Forall (fun e => engine_event e = true) events ->
  inert (run events w) /\
  view (run events w) = view w /\ refs (run events w) = refs w.
Proof.
  revert w. induction events as [|e events IH]; intros w Hi Hall.
  - now split.
  - inversion Hall as [|? ? He Hrest]; subst.
    destruct (inert_step e w Hi He) as (Hi' & Ev & Er).
    destruct (IH (step e w) Hi' Hrest) as (Hi'' & Ev' & Er').
    change (run (e :: events) w) with (run events (step e w)).
    split; [exact Hi''|]. split; [now rewrite Ev' | now rewrite Er'].
Qed.



(** ** Unmounting *)

Lemma clear_pending_timeout_inert (w : World) :
  inert w -> inert (clear_pending_timeout w).
Proof.
  intros (Hq & Hp & Hs & Hraf).
  pose proof (core_clear_pending_timeout w) as Ec. unfold core in Ec.
  inversion Ec as [[En Er Ep]].
  split_and!.
  - now apply (quiet_nodes w).
  - now apply clear_pending_timeout_no_pending, no_pending_timers_ok.
  - congruence.
  - unfold clear_pending_timeout, clearTimeout.
    destruct (timeoutRef (refs w)); [|exact Hraf].
    now destruct (timers (host w) !! n).
Qed.



(** ** The decoded buffer is kept *)

Lemma decode_kept_dcore (w w' : World) : dcore w' = dcore w -> decode_kept w w'.
Proof.
  unfold dcore. intros E. inversion E as [[Eb Ec Ed]]. split.
  - intros b Hb. congruence.
  - intros H b Hb. rewrite Ec, Ed. apply H. congruence.
Qed.

Lemma decode_kept_refl (w : World) : decode_kept w w.
Proof. now apply decode_kept_dcore. Qed.

Lemma decode_kept_trans (w1 w2 w3 : World) :
  decode_kept w1 w2 -> decode_kept w2 w3 -> decode_kept w1 w3.
Proof. intros [A1 B1] [A2 B2]. split; auto. Qed.

Lemma dcore_cancelRaf (w : World) : dcore (cancelRaf w) = dcore w.
Proof. unfold cancelRaf. now destruct (rafRef (refs w)). Qed.

Lemma dcore_clear_pending_timeout (w : World) :
  dcore (clear_pending_timeout w) = dcore w.
Proof.
  unfold clear_pending_timeout, clearTimeout.
  destruct (timeoutRef (refs w)); [|reflexivity].
  now destruct (timers (host w) !! n).
Qed.

Lemma dcore_stop_node (id : nat) (w : World) : dcore (stop_node id w) = dcore w.
Proof. unfold stop_node. now destruct_matches. Qed.

Lemma dcore_disconnect_node (id : nat) (w : World) :
  dcore (disconnect_node id w) = dcore w.
Proof. unfold disconnect_node. now destruct_matches. Qed.

Lemma dcore_stopCurrentSource (w : World) : dcore (stopCurrentSource w) = dcore w.
Proof.
  unfold stopCurrentSource.
  set (w1 := clear_pending_timeout (cancelRaf w)).
  assert (E1 : dcore w1 = dcore w)
    by (unfold w1; now rewrite dcore_clear_pending_timeout, dcore_cancelRaf).
  destruct (sourceRef (refs w1)) as [id|]; [|exact E1].
  rewrite <- E1.
  change (dcore (disconnect_node id (stop_node id w1)) = dcore w1).
  now rewrite dcore_disconnect_node, dcore_stop_node.
Qed.

Lemma decode_kept_prepareAudio (enc : EncodedAudio) (w : World) :
  decode_kept w (fst (prepareAudio enc w)).
Proof.
  unfold prepareAudio, getOrCreateAudioContext.
  destruct (audioCtxRef (refs w)) eqn:Hctx; cbn.
  - destruct (audioBufferRef (refs w)) as [b|] eqn:Hb; cbn.
    + apply decode_kept_refl.
    + destruct (decodes_to enc) as [d|]; cbn.
      * split; [intros b Hb'; congruence|].
        intros _ b Hb'. cbn in *. inversion Hb'; subst. auto.
      * split; [intros b Hb'; congruence|].
        intros _ b Hb'. cbn in Hb'. congruence.
  - destruct (webAudioSupported (host w)); cbn;
      [|now apply decode_kept_dcore].
    destruct (audioBufferRef (refs w)) as [b|] eqn:Hb; cbn.
    + split; [intros b' Hb'; cbn; congruence|].
      intros H b' Hb'. cbn in *. destruct (H b' Hb') as [Hc _]. congruence.
    + destruct (decodes_to enc) as [d|]; cbn.
      * split; [intros b Hb'; congruence|].
        intros _ b Hb'. cbn in *. inversion Hb'; subst. auto.
      * split; [intros b Hb'; congruence|].
        intros _ b Hb'. cbn in Hb'. congruence.
Qed.

Lemma decode_kept_after_prepare (enc : EncodedAudio) (offset d : Q) (w : World) :
  decode_kept w (match prepareAudio enc w with
                 | (w', None) => w'
                 | (w', Some _) => startOneShot offset d w'
                 end).
Proof.
  pose proof (decode_kept_prepareAudio enc w) as H.
  destruct (prepareAudio enc w) as [w' [b|]]; cbn [fst] in H; [|exact H].
  eapply decode_kept_trans; [exact H|]. now apply decode_kept_dcore.
Qed.

Lemma decode_kept_playSelection (sel : Selection) (w : World) :
  decode_kept w (playSelection sel w).
Proof.
  unfold playSelection.
  set (w1 := setAudioError None (stopCurrentSource w)).
  assert (H1 : decode_kept w w1).
  { apply decode_kept_dcore. unfold w1.
    change (dcore (setAudioError None (stopCurrentSource w)))
      with (dcore (stopCurrentSource w)).
    apply dcore_stopCurrentSource. }
  destruct (audioArrayBuffer (view w1)) as [enc|].
  - eapply decode_kept_trans; [exact H1 | apply decode_kept_after_prepare].
  - eapply decode_kept_trans; [exact H1 | now apply decode_kept_dcore].
Qed.

Lemma decode_kept_togglePlayPause (w : World) :
  decode_kept w (togglePlayPause w).
Proof.
  unfold togglePlayPause.
  set (w1 := clear_pending_timeout w).
  assert (H1 : decode_kept w w1)
    by (apply decode_kept_dcore, dcore_clear_pending_timeout).
  destruct (isPlaying (view w1) || isPausing (view w1)).
  - eapply decode_kept_trans; [exact H1|].
    apply decode_kept_dcore, dcore_stopCurrentSource.
  - set (w2 := setAudioError None w1).
    assert (H2 : decode_kept w w2).
    { eapply decode_kept_trans; [exact H1 | now apply decode_kept_dcore]. }
    destruct (selection (view w2)) as [sel|];
      [destruct (audioArrayBuffer (view w2)) as [enc|]|].
    + eapply decode_kept_trans; [exact H2 | apply decode_kept_after_prepare].
    + eapply decode_kept_trans; [exact H2 | now apply decode_kept_dcore].
    + eapply decode_kept_trans; [exact H2 | now apply decode_kept_dcore].
Qed.

Lemma dcore_handleEnded (w : World) : dcore (handleEnded w) = dcore w.
Proof.
  unfold handleEnded.
  set (w1 := set_sourceRef None (cancelRaf w)).
  assert (E1 : dcore w1 = dcore w).
  { unfold w1, cancelRaf. now destruct (rafRef (refs w)). }
  destruct (is_some (selectionRef (refs w)) && Qltb _ _).
  - destruct (audioCtxRef (refs w1) && is_some (audioBufferRef (refs w1)));
      exact E1.
  - destruct (is_some (selectionRef (refs w)) && isLooping); exact E1.
Qed.

Lemma decode_kept_deliver_ended (id : nat) (w : World) :
  decode_kept w (deliver_ended id w).
Proof.
  apply decode_kept_dcore. unfold deliver_ended.
  destruct (nodes (host w) !! id) as [n|]; [|reflexivity].
  set (w1 := set_nodes _ w).
  destruct (node_status n); try reflexivity;
    unfold source_onended;
    (destruct (sourceRef (refs w1)) as [cur|]; [|reflexivity]);
    (destruct (Nat.eqb cur id); [|reflexivity]);
    now rewrite dcore_handleEnded.
Qed.

Lemma decode_kept_deliver_timeout (id : nat) (w : World) :
  decode_kept w (deliver_timeout id w).
Proof.
  unfold deliver_timeout.
  destruct (timers (host w) !! id) as [t|]; [|apply decode_kept_refl].
  destruct (timer_pending t); [|apply decode_kept_refl].
  unfold loopRestart.
  set (w1 := setIsPausing false (set_timers _ w)).
  assert (H1 : decode_kept w w1) by (now apply decode_kept_dcore).
  destruct (timer_selection t) as [sel|]; [|exact H1].
  destruct (audioCtxRef (refs w1) && is_some (audioBufferRef (refs w1)));
    [|exact H1].
  eapply decode_kept_trans; [exact H1 | apply decode_kept_playSelection].
Qed.

Lemma dcore_tick (p : bool) (s : option Selection) (w : World) :
  dcore (tick p s w) = dcore w.
Proof.
  unfold tick.
  destruct (negb p || negb (is_some s) || negb (audioCtxRef (refs w)));
    [reflexivity|].
  set (w1 := highlightCurrentWord _ (setCurrentTime _ w)).
  assert (E1 : dcore w1 = dcore w).
  { unfold w1, highlightCurrentWord. now destruct (wordIndexAt _ _). }
  destruct (match selectionRef (refs w1) with
            | Some cs => Qleb (msToSeconds (sel_end cs)) _
            | None => false
            end); [|exact E1].
  rewrite dcore_cancelRaf.
  destruct (sourceRef (refs w1)); [now rewrite dcore_stop_node | exact E1].
Qed.

Lemma decode_kept_step (e : Event) (w : World) : decode_kept w (step e w).
Proof.
  destruct e; cbn [step].
  - now apply decode_kept_dcore.
  - apply decode_kept_togglePlayPause.
  - apply decode_kept_dcore. unfold adjustStartTime.
    now destruct (selection (view w)).
  - apply decode_kept_dcore. unfold adjustEndTime.
    now destruct (selection (view w)).
  - destruct (words (transcriptData w) !! index) as [word|];
      [|apply decode_kept_refl].
    unfold handleWordClick. destruct (isPlaying (view w)).
    + eapply decode_kept_trans; [|apply decode_kept_playSelection].
      now apply decode_kept_dcore.
    + now apply decode_kept_dcore.
  - unfold processWordSelection.
    destruct (words (transcriptData w) !! Nat.min startIndex endIndex);
      [|apply decode_kept_refl].
    destruct (words (transcriptData w) !! Nat.max startIndex endIndex);
      [|apply decode_kept_refl].
    destruct (isPlaying (view w)); [|now apply decode_kept_dcore].
    apply decode_kept_dcore.
    match goal with
    | |- dcore (setIsPlaying false (stopCurrentSource ?x)) = _ =>
        change (dcore (stopCurrentSource x) = dcore w);
        now rewrite dcore_stopCurrentSource
    end.
  - apply decode_kept_dcore. unfold handleDownload.
    destruct (selection (view w)); [|reflexivity].
    destruct (audioBufferRef (refs w)); [|reflexivity].
    destruct (segmentBuffer _ _); [|reflexivity].
    now destruct (audioBufferToWav _).
  - destruct (Qleb 0 dt); now apply decode_kept_dcore.
  - destruct (rafRef (refs w)); [|apply decode_kept_refl].
    apply decode_kept_dcore, dcore_tick.
  - apply decode_kept_deliver_ended.
  - apply decode_kept_deliver_timeout.
Qed.

Lemma decode_kept_run (events : list Event) (w : World) :
  decode_kept w (run events w).
Proof.
  revert w. induction events as [|e events IH]; intros w.
  - apply decode_kept_refl.
  - change (run (e :: events) w) with (run events (step e w)).
    eapply decode_kept_trans; [apply decode_kept_step | apply IH].
Qed.

Lemma reachable_decoded_ok (w : World) : reachable w -> decoded_ok w.
Proof.
  induction 1 as [td sup | w e _ IH].
  - intros b Hb. discriminate Hb.
  - now apply (decode_kept_step e w).
Qed.

(** X11.  The audio is decoded at most once per mount.  Once a buffer is
    decoded, every later event keeps it: pressing play again, the loop,
    clicks, and even the arrival of other audio bytes never replace it,
    the context stays, and the duration in the view stays that of the
    buffer. *)
Theorem decoded_buffer_is_kept (w : World) (b : AudioBuffer) (events : list Event) :
  reachable w ->
  audioBufferRef (refs w) = Some b ->
  audioBufferRef (refs (run events w)) = Some b /\
  audioCtxRef (refs (run events w)) = true /\
  duration (view (run events w)) = buffer_duration b.
Proof.
  intros Hr Hb.
  destruct (decode_kept_run events w) as [Hkeep _].
  pose proof (reachable_decoded_ok _ (reachable_run events w Hr)) as Hok.
  specialize (Hkeep b Hb). split; [exact Hkeep|]. exact (Hok b Hkeep).
Qed.

Lemma decoded_buffer_is_kept_witness :
  audioBufferRef
    (refs (run reload_events
             (run play_first_word (initial_world two_words true))))
  = Some ten_seconds /\
  audioCtxRef
    (refs (run reload_events
             (run play_first_word (initial_world two_words true))))
  = true /\
  duration
    (view (run reload_events
             (run play_first_word (initial_world two_words true))))
  = buffer_duration ten_seconds.
Proof.
  apply (decoded_buffer_is_kept
           (run play_first_word (initial_world two_words true))
           ten_seconds reload_events).
  - apply reachable_run. constructor.
  - reflexivity.
Defined.

(** ** Playback: starting *)

Lemma prepareAudio_ok (enc : EncodedAudio) (b : AudioBuffer) (w : World) :
  context_available w -> buffer_available enc b w ->
  exists w',
    prepareAudio enc w = (w', Some b) /\
    host w' = host w /\
    audioBufferRef (refs w') = Some b /\
    audioCtxRef (refs w') = true /\
    isPausing (view w') = isPausing (view w) /\
    audioError (view w') = audioError (view w) /\
    selection (view w') = selection (view w) /\
    (audioBufferRef (refs w) = None -> duration (view w') = buffer_duration b).
Proof.
  intros Hctx Hbuf. unfold prepareAudio, getOrCreateAudioContext.
  destruct (audioCtxRef (refs w)) eqn:Ec.
  - cbn. destruct Hbuf as [Hb | [Hb Hd]]; rewrite Hb; [|rewrite Hd];
      eexists; (split; [reflexivity|]); cbn; split_and!; auto; congruence.
  - destruct Hctx as [Hc | Hs]; [congruence|]. rewrite Hs. cbn.
    destruct Hbuf as [Hb | [Hb Hd]]; rewrite Hb; [|rewrite Hd];
      eexists; (split; [reflexivity|]); cbn; split_and!; auto; congruence.
Qed.

Lemma view_host_stopCurrentSource (w : World) :
  audioArrayBuffer (view (stopCurrentSource w)) = audioArrayBuffer (view w) /\
  webAudioSupported (host (stopCurrentSource w)) = webAudioSupported (host w) /\
  length (nodes (host (stopCurrentSource w))) = length (nodes (host w)) /\
  ctx_currentTime (host (stopCurrentSource w)) = ctx_currentTime (host w).
Proof.
  unfold stopCurrentSource, cancelRaf, clear_pending_timeout, clearTimeout,
    stop_node, disconnect_node.
  destruct (rafRef (refs w)) eqn:Hraf; cbn;
    destruct (timeoutRef (refs w)) eqn:Htime; cbn;
    repeat match goal with
    | |- context [match ?x with _ => _ end] => destruct x eqn:?; cbn
    end; rewrite ?length_insert; auto.
Qed.

(** Only the node appended last can sound over a quiet prefix. *)
Lemma sounding_appended (w w' : World) (n : SourceNode) :
  quiet w -> nodes (host w') = nodes (host w) ++ [n] ->
  forall i, sounding w' i -> i = length (nodes (host w)).
Proof.
  intros Hq E i [m [Hm Hs]]. rewrite E in Hm.
  destruct (Nat.lt_ge_cases i (length (nodes (host w)))) as [Hlt | Hge].
  - rewrite lookup_app_l in Hm by assumption.
    exfalso. apply (Hq i). now exists m.
  - apply lookup_lt_Some in Hm. rewrite length_app in Hm. cbn in Hm. lia.
Qed.

Lemma playSelection_starts
    (sel : Selection) (enc : EncodedAudio) (b : AudioBuffer) (w : World) :
  audioArrayBuffer (view w) = Some enc ->
  context_available w -> buffer_available enc b w ->
  nodes (host (playSelection sel w))
  = nodes (host (stopCurrentSource w)) ++ [one_shot_of sel] /\
  sourceRef (refs (playSelection sel w)) = Some (length (nodes (host w))) /\
  playbackState (playSelection sel w) = Playing /\
  audioError (view (playSelection sel w)) = None /\
  audioBufferRef (refs (playSelection sel w)) = Some b /\
  selection (view (playSelection sel w)) = selection (view w) /\
  startTimestampRef (refs (playSelection sel w)) = ctx_currentTime (host w).
Proof.
  intros Henc Hctx Hbuf.
  destruct (view_host_stopCurrentSource w) as (Ea & Es & El & Et).
  destruct (refs_stopCurrentSource w) as (_ & _ & Ec & Eb & _).
  destruct (view_stopCurrentSource w) as (Esel & _ & _ & Epause).
  unfold playSelection.
  set (w1 := setAudioError None (stopCurrentSource w)).
  change (audioArrayBuffer (view w1))
    with (audioArrayBuffer (view (stopCurrentSource w))).
  rewrite Ea, Henc.
  assert (Hctx1 : context_available w1).
  { unfold context_available, w1. cbn -[stopCurrentSource]. rewrite Ec, Es. exact Hctx. }
  assert (Hbuf1 : buffer_available enc b w1).
  { unfold buffer_available, w1. cbn -[stopCurrentSource]. rewrite Eb. exact Hbuf. }
  destruct (prepareAudio_ok enc b w1 Hctx1 Hbuf1)
    as (w' & -> & Hh & Hb' & Hc' & Hp' & He' & Hs' & _).
  unfold playbackState. cbn -[stopCurrentSource]. rewrite Hh, Hp', He', Hs', Hb'.
  cbn -[stopCurrentSource].
  rewrite Epause, El, Et. split_and!; auto.
Qed.

(** X12.  Pressing play on a stopped viewer that has a selection with
    [0 <= start <= end], the audio bytes, a context (or a browser that can
    make one) and a buffer (or bytes that decode) starts one node over
    exactly the selection,
    from [start/1000] for [(end - start)/1000] seconds, records it, shows
    [Playing], clears the error, keeps the buffer, and on a first decode
    publishes the buffer's duration. *)
Theorem togglePlayPause_starts_selection
    (w : World) (sel : Selection) (enc : EncodedAudio) (b : AudioBuffer) :
  isPlaying (view w) = false ->
  isPausing (view w) = false ->
  selection (view w) = Some sel ->
  audioArrayBuffer (view w) = Some enc ->
  (0 <= sel_start sel)%Q ->
  (sel_start sel <= sel_end sel)%Q ->
  context_available w ->
  buffer_available enc b w ->
  nodes (host (togglePlayPause w)) = nodes (host w) ++ [one_shot_of sel] /\
  sourceRef (refs (togglePlayPause w)) = Some (length (nodes (host w))) /\
  playbackState (togglePlayPause w) = Playing /\
  audioError (view (togglePlayPause w)) = None /\
  audioBufferRef (refs (togglePlayPause w)) = Some b /\
  audioCtxRef (refs (togglePlayPause w)) = true /\
  (audioBufferRef (refs w) = None ->
   duration (view (togglePlayPause w)) = buffer_duration b).
Proof.
  intros Hplay Hpause Hsel Henc _ _ Hctx Hbuf.
  unfold togglePlayPause.
  set (w1 := clear_pending_timeout w).
  assert (Hv : view w1 = view w).
  { unfold w1, clear_pending_timeout, clearTimeout.
    destruct (timeoutRef (refs w)); [|reflexivity].
    now destruct (timers (host w) !! n). }
  assert (Hr : audioCtxRef (refs w1) = audioCtxRef (refs w) /\
               audioBufferRef (refs w1) = audioBufferRef (refs w)).
  { unfold w1, clear_pending_timeout, clearTimeout.
    destruct (timeoutRef (refs w)); [|now split].
    now destruct (timers (host w) !! n). }
  assert (Hh : nodes (host w1) = nodes (host w) /\
               webAudioSupported (host w1) = webAudioSupported (host w)).
  { unfold w1, clear_pending_timeout, clearTimeout.
    destruct (timeoutRef (refs w)); [|now split].
    now destruct (timers (host w) !! n). }
  destruct Hr as [Hrc Hrb]. destruct Hh as [Hhn Hhs].
  rewrite Hv, Hplay, Hpause. cbn [orb].
  set (w2 := setAudioError None w1).
  change (selection (view w2)) with (selection (view w1)).
  change (audioArrayBuffer (view w2)) with (audioArrayBuffer (view w1)).
  rewrite Hv, Hsel, Henc.
  assert (Hctx2 : context_available w2).
  { unfold context_available, w2. cbn. rewrite Hrc, Hhs. exact Hctx. }
  assert (Hbuf2 : buffer_available enc b w2).
  { unfold buffer_available, w2. cbn. rewrite Hrb. exact Hbuf. }
  destruct (prepareAudio_ok enc b w2 Hctx2 Hbuf2)
    as (w' & -> & Hh' & Hb' & Hc' & Hp' & He' & Hs' & Hd').
  unfold playbackState. cbn. rewrite Hh', Hp', He', Hb', Hc'. cbn.
  rewrite Hv, Hpause, Hhn. split_and!; auto.
  intros Hnone. apply Hd'. cbn. now rewrite Hrb.
Qed.

Lemma togglePlayPause_starts_selection_witness :
  nodes (host (togglePlayPause
                 (loaded_world (mkEncoded (Some four_samples))
                    (mkSelection 1 3 "x"))))
  = [one_shot_of (mkSelection 1 3 "x")] /\
  playbackState (togglePlayPause
                   (loaded_world (mkEncoded (Some four_samples))
                      (mkSelection 1 3 "x"))) = Playing /\
  audioBufferRef (refs (togglePlayPause
                          (loaded_world (mkEncoded (Some four_samples))
                             (mkSelection 1 3 "x")))) = Some four_samples.
Proof.
  assert (H0 : (0 <= sel_start (mkSelection 1 3 "x"))%Q) by (cbn; lra).
  assert (H1 : (sel_start (mkSelection 1 3 "x")
                <= sel_end (mkSelection 1 3 "x"))%Q) by (cbn; lra).
  destruct (togglePlayPause_starts_selection
              (loaded_world (mkEncoded (Some four_samples)) (mkSelection 1 3 "x"))
              (mkSelection 1 3 "x") (mkEncoded (Some four_samples)) four_samples
              eq_refl eq_refl eq_refl eq_refl H0 H1
              (or_intror eq_refl) (or_intror (conj eq_refl eq_refl)))
    as (Hn & _ & Hp & _ & Hb & _).
  split; [exact Hn|]. split; [exact Hp | exact Hb].
Defined.





(** X15.  A play request on a stopped viewer that cannot be served is
    reported and changes nothing in the engine: without a selection or
    without audio bytes, without Web Audio support, and with bytes that do
    not decode, the viewer stays stopped, no node is created, and the
    respective message is put in the view and in a "Playback Error"
    toast. *)
Theorem togglePlayPause_failure_is_reported (w : World) :
  isPlaying (view w) = false ->
  isPausing (view w) = false ->
  (selection (view w) = None \/ audioArrayBuffer (view w) = None ->
   play_error_reported "No audio data or selection available"
     w (togglePlayPause w)) /\
  (forall sel enc,
     selection (view w) = Some sel -> audioArrayBuffer (view w) = Some enc ->
     audioCtxRef (refs w) = false -> webAudioSupported (host w) = false ->
     play_error_reported "Web Audio API is not supported in this browser"
       w (togglePlayPause w)) /\
  (forall sel enc,
     selection (view w) = Some sel -> audioArrayBuffer (view w) = Some enc ->
     context_available w ->
     audioBufferRef (refs w) = None -> decodes_to enc = None ->
     play_error_reported
       "Failed to decode audio. The file may be corrupted or in an unsupported format."
       w (togglePlayPause w)).
Proof.
  intros Hplay Hpause.
  set (w1 := clear_pending_timeout w).
  assert (Hv : view w1 = view w).
  { unfold w1, clear_pending_timeout, clearTimeout.
    destruct (timeoutRef (refs w)); [|reflexivity].
    now destruct (timers (host w) !! n). }
  assert (Hr : audioCtxRef (refs w1) = audioCtxRef (refs w) /\
               audioBufferRef (refs w1) = audioBufferRef (refs w) /\
               sourceRef (refs w1) = sourceRef (refs w)).
  { unfold w1, clear_pending_timeout, clearTimeout.
    destruct (timeoutRef (refs w)); [|now split].
    now destruct (timers (host w) !! n). }
  assert (Hh : nodes (host w1) = nodes (host w) /\
               webAudioSupported (host w1) = webAudioSupported (host w) /\
               toasts (host w1) = toasts (host w)).
  { unfold w1, clear_pending_timeout, clearTimeout.
    destruct (timeoutRef (refs w)); [|now split].
    now destruct (timers (host w) !! n). }
  destruct Hr as (Hrc & Hrb & Hrs). destruct Hh as (Hhn & Hhs & Hht).
  assert (Htoggle :
    togglePlayPause w
    = match selection (view w), audioArrayBuffer (view w) with
      | Some sel, Some enc =>
          match prepareAudio enc (setAudioError None w1) with
          | (w', None) => w'
          | (w', Some _) =>
              startOneShot (msToSeconds (sel_start sel))
                (msToSeconds (sel_end sel - sel_start sel)) w'
          end
      | _, _ =>
          handlePlayError "No audio data or selection available"
            (setAudioError None w1)
      end).
  { unfold togglePlayPause. fold w1. rewrite Hv, Hplay, Hpause. cbn [orb].
    change (selection (view (setAudioError None w1)))
      with (selection (view w1)).
    change (audioArrayBuffer (view (setAudioError None w1)))
      with (audioArrayBuffer (view w1)).
    now rewrite Hv. }
  rewrite Htoggle. split_and!.
  - intros Hnone.
    assert (E : match selection (view w), audioArrayBuffer (view w) with
                | Some sel, Some enc =>
                    match prepareAudio enc (setAudioError None w1) with
                    | (w', None) => w'
                    | (w', Some _) =>
                        startOneShot (msToSeconds (sel_start sel))
                          (msToSeconds (sel_end sel - sel_start sel)) w'
                    end
                | _, _ =>
                    handlePlayError "No audio data or selection available"
                      (setAudioError None w1)
                end
                = handlePlayError "No audio data or selection available"
                    (setAudioError None w1)).
    { destruct Hnone as [-> | ->]; [reflexivity|].
      now destruct (selection (view w)). }
    rewrite E. unfold play_error_reported, playbackState. cbn.
    rewrite Hhn, Hrs, Hrb, Hht. split_and!; reflexivity.
  - intros sel enc Hsel Henc Hctx Hsup. rewrite Hsel, Henc.
    unfold prepareAudio, getOrCreateAudioContext. cbn.
    rewrite Hrc, Hctx, Hhs, Hsup. cbn.
    unfold play_error_reported, playbackState. cbn.
    rewrite Hhn, Hrs, Hrb, Hht. split_and!; reflexivity.
  - intros sel enc Hsel Henc Hctx Hb Hdec. rewrite Hsel, Henc.
    unfold prepareAudio, getOrCreateAudioContext. cbn.
    rewrite Hrc, Hhs.
    destruct (audioCtxRef (refs w)) eqn:Ec.
    + cbn. rewrite Hrb, Hb, Hdec.
      unfold play_error_reported, playbackState. cbn.
      rewrite Hhn, Hrs, Hrb, Hb, Hht. split_and!; reflexivity.
    + destruct Hctx as [Hc | Hs]; [congruence|]. rewrite Hs. cbn.
      rewrite Hrb, Hb, Hdec.
      unfold play_error_reported, playbackState. cbn.
      rewrite Hhn, Hrs, Hrb, Hb, Hht. split_and!; reflexivity.
Qed.

Lemma togglePlayPause_failure_is_reported_witness :
  play_error_reported "No audio data or selection available"
    (initial_world two_words true)
    (togglePlayPause (initial_world two_words true)) /\
  toasts (host (togglePlayPause (initial_world two_words true)))
  = [mkToast "Playback Error" "No audio data or selection available"].
Proof.
  destruct (togglePlayPause_failure_is_reported (initial_world two_words true)
              eq_refl eq_refl) as (H & _ & _).
  split; [apply H; left; reflexivity|]. reflexivity.
Defined.

(** ** The progress feed *)

Lemma frame_highlightCurrentWord (t : Q) (w : World) :
  refs (highlightCurrentWord t w) = refs w /\
  host (highlightCurrentWord t w) = host w /\
  currentTime (view (highlightCurrentWord t w)) = currentTime (view w).
Proof. unfold highlightCurrentWord. now destruct (wordIndexAt _ _). Qed.

(** X16.  A frame of the progress feed whose closure saw the viewer
    playing publishes the playhead, offset plus the engine time elapsed
    since the start.  Once the playhead has reached the end of the
    selection as it is now, the frame silences the recorded node, keeps
    it recorded for its end notification, and requests no further frame;
    before that it touches no node and requests the next frame. *)
Theorem tick_publishes_playhead_and_stops_at_end
    (w : World) (captured sel : Selection) (id : nat) :
  one_current w ->
  audioCtxRef (refs w) = true ->
  selectionRef (refs w) = Some sel ->
  sourceRef (refs w) = Some id ->
  currentTime (view (tick true (Some captured) w)) = playhead w /\
  ((msToSeconds (sel_end sel) <= playhead w)%Q ->
   quiet (tick true (Some captured) w) /\
   rafRef (refs (tick true (Some captured) w)) = None /\
   sourceRef (refs (tick true (Some captured) w)) = Some id) /\
  ((playhead w < msToSeconds (sel_end sel))%Q ->
   nodes (host (tick true (Some captured) w)) = nodes (host w) /\
   rafRef (refs (tick true (Some captured) w)) = Some (frames (host w))).
Proof.
  intros Hone Hctx Hsel Hsrc. unfold tick. rewrite Hctx. cbn [negb is_some orb].
  fold (playhead w).
  set (w1 := highlightCurrentWord (playhead w) (setCurrentTime (playhead w) w)).
  destruct (frame_highlightCurrentWord (playhead w)
              (setCurrentTime (playhead w) w)) as (Er & Eh & Et).
  fold w1 in Er, Eh, Et.
  assert (Hone1 : one_current w1).
  { eapply one_current_core; [|exact Hone]. unfold w1.
    now rewrite core_highlightCurrentWord. }
  rewrite Er. cbn [setCurrentTime with_view refs]. rewrite Hsel, Hsrc.
  destruct (Qleb (msToSeconds (sel_end sel)) (playhead w)) eqn:Hpass.
  - apply Qleb_le in Hpass. split_and!.
    + unfold cancelRaf, stop_node. now destruct_matches.
    + intros _. split_and!.
      * intros i Hi.
        assert (Hi' : sounding (stop_node id w1) i).
        { unfold cancelRaf in Hi.
          destruct (rafRef (refs (stop_node id w1))); exact Hi. }
        apply sounding_stop_node in Hi' as [Hs Hne].
        apply Hone1 in Hs as [Hs _]. rewrite Er in Hs. cbn in Hs. congruence.
      * unfold cancelRaf.
        destruct (rafRef (refs (stop_node id w1))) eqn:E; [reflexivity|exact E].
      * unfold cancelRaf, stop_node. destruct_matches; rewrite ?Er; exact Hsrc.
    + intros Hlt. exfalso. lra.
  - assert (Hlt : (playhead w < msToSeconds (sel_end sel))%Q).
    { apply Qnot_le_lt. intros H. apply Qleb_le in H. congruence. }
    split_and!.
    + cbn. exact Et.
    + intros Hge. exfalso. lra.
    + intros _. cbn. rewrite Eh. split; reflexivity.
Qed.

Lemma tick_publishes_playhead_and_stops_at_end_witness :
  (currentTime (view (tick true (Some (mkSelection 1000 3000 "hello"))
                        overrun_world)) == 3.5)%Q /\
  quiet (tick true (Some (mkSelection 1000 3000 "hello")) overrun_world) /\
  rafRef (refs (tick true (Some (mkSelection 1000 3000 "hello"))
                  overrun_world)) = None.
Proof.
  assert (Hone : one_current overrun_world).
  { apply reachable_one_current. constructor. apply reachable_run. constructor. }
  destruct (tick_publishes_playhead_and_stops_at_end overrun_world
              (mkSelection 1000 3000 "hello") (mkSelection 1000 3000 "hello")
              0%nat Hone eq_refl eq_refl eq_refl) as (Ht & Hstop & _).
  assert (Hpast : (msToSeconds (sel_end (mkSelection 1000 3000 "hello"))
                   <= playhead overrun_world)%Q)
    by (vm_compute; discriminate).
  destruct (Hstop Hpast) as (Hq & Hraf & _).
  split; [rewrite Ht; vm_compute; reflexivity|]. split; [exact Hq | exact Hraf].
Defined.

(** ** The highlighted word *)

Lemma wordIndexAt_first (ws : list Word) (t : Q) (i : nat) :
  wordIndexAt ws t = Some i ->
  (exists wd, ws !! i = Some wd /\ word_contains t wd = true) /\
  (forall j u, (j < i)%nat -> ws !! j = Some u -> word_contains t u = false).
Proof.
  revert i. induction ws as [|u ws IH]; intros i; cbn; [discriminate|].
  destruct (word_contains t u) eqn:Hu.
  - intros [= <-]. split; [exists u; auto|]. intros j v Hj. lia.
  - destruct (wordIndexAt ws t) as [k|]; cbn; [|discriminate].
    intros [= <-]. destruct (IH k eq_refl) as [Hk Hbefore].
    split; [exact Hk|].
    intros [|j] v Hj Hv; cbn in Hv; [congruence|].
    apply (Hbefore j); [lia | exact Hv].
Qed.


(** ** Selecting by drag *)

(** X18.  A drag selects the same whichever way it runs; it leaves the
    viewer as it is when it reaches past the last word (the handler fails
    before it sets anything); and on a viewer that is not playing, a drag
    that starts and ends on one word selects exactly what a click on that
    word selects. *)
Theorem drag_selection_is_symmetric_and_agrees_with_click :
  (forall i j w, processWordSelection i j w = processWordSelection j i w) /\
  (forall i j w,
     (length (words (transcriptData w)) <= Nat.max i j)%nat ->
     processWordSelection i j w = w) /\
  (forall i w word,
     words (transcriptData w) !! i = Some word ->
     isPlaying (view w) = false ->
     processWordSelection i i w = handleWordClick word w).
Proof.
  split_and!.
  - intros i j w. unfold processWordSelection.
    now rewrite (Nat.min_comm i j), (Nat.max_comm i j).
  - intros i j w Hlen. unfold processWordSelection.
    rewrite (lookup_ge_None_2 _ (Nat.max i j)) by lia.
    now destruct (words (transcriptData w) !! Nat.min i j).
  - intros i w word Hword Hplay.
    unfold processWordSelection, handleWordClick.
    rewrite Nat.min_id, Nat.max_id, Hword, Hplay.
    replace (S i - i)%nat with 1%nat by lia.
    assert (Htake : take 1 (drop i (words (transcriptData w))) = [word]).
    { rewrite (drop_S _ word i Hword). reflexivity. }
    rewrite Htake. cbn. reflexivity.
Qed.

(** ** The fine-tune buttons *)



(** ** The play button *)

Lemma lcore_stopCurrentSource (w : World) : lcore (stopCurrentSource w) = lcore w.
Proof.
  unfold stopCurrentSource, cancelRaf, clear_pending_timeout, clearTimeout,
    stop_node, disconnect_node.
  destruct (rafRef (refs w)); cbn;
    destruct (timeoutRef (refs w)); cbn;
    repeat match goal with
    | |- context [match ?x with _ => _ end] => destruct x eqn:?; cbn
    end; reflexivity.
Qed.

Lemma lcore_clear_pending_timeout (w : World) :
  lcore (clear_pending_timeout w) = lcore w.
Proof.
  unfold clear_pending_timeout, clearTimeout.
  destruct (timeoutRef (refs w)); [|reflexivity].
  now destruct (timers (host w) !! n).
Qed.

Lemma lcore_prepareAudio (enc : EncodedAudio) (w : World) :
  lcore (fst (prepareAudio enc w)) = lcore w.
Proof.
  unfold prepareAudio, getOrCreateAudioContext.
  destruct (audioCtxRef (refs w)); cbn.
  - destruct (audioBufferRef (refs w)); [reflexivity|].
    now destruct (decodes_to enc).
  - destruct (webAudioSupported (host w)); cbn; [|reflexivity].
    destruct (audioBufferRef (refs w)); [reflexivity|].
    now destruct (decodes_to enc).
Qed.

Lemma lcore_after_prepare (enc : EncodedAudio) (offset d : Q) (w : World) :
  lcore (match prepareAudio enc w with
         | (w', None) => w'
         | (w', Some _) => startOneShot offset d w'
         end)
  = lcore w.
Proof.
  pose proof (lcore_prepareAudio enc w) as H.
  destruct (prepareAudio enc w) as [w' [b|]]; cbn [fst] in H; exact H.
Qed.

Lemma lcore_playSelection (sel : Selection) (w : World) :
  lcore (playSelection sel w) = lcore w.
Proof.
  unfold playSelection.
  set (w1 := setAudioError None (stopCurrentSource w)).
  assert (E1 : lcore w1 = lcore w) by apply lcore_stopCurrentSource.
  destruct (audioArrayBuffer (view w1)) as [enc|].
  - now rewrite lcore_after_prepare.
  - exact E1.
Qed.

Lemma lcore_togglePlayPause (w : World) : lcore (togglePlayPause w) = lcore w.
Proof.
  unfold togglePlayPause.
  set (w1 := clear_pending_timeout w).
  assert (E1 : lcore w1 = lcore w) by apply lcore_clear_pending_timeout.
  destruct (isPlaying (view w1) || isPausing (view w1)).
  - now rewrite lcore_stopCurrentSource.
  - set (w2 := setAudioError None w1).
    destruct (selection (view w2)) as [sel|];
      [destruct (audioArrayBuffer (view w2)) as [enc|]|]; try exact E1.
    now rewrite lcore_after_prepare.
Qed.

Lemma lcore_handleEnded (w : World) : lcore (handleEnded w) = lcore w.
Proof.
  unfold handleEnded.
  set (w1 := set_sourceRef None (cancelRaf w)).
  assert (E1 : lcore w1 = lcore w).
  { unfold w1, cancelRaf. now destruct (rafRef (refs w)). }
  destruct (is_some (selectionRef (refs w)) && Qltb _ _).
  - destruct (audioCtxRef (refs w1) && is_some (audioBufferRef (refs w1)));
      exact E1.
  - destruct (is_some (selectionRef (refs w)) && isLooping); exact E1.
Qed.

Lemma lcore_step (e : Event) (w : World) :
  (forall enc, e <> EvAudioLoaded enc) -> lcore (step e w) = lcore w.
Proof.
  intros Hne. destruct e; cbn [step].
  - now destruct (Hne enc).
  - apply lcore_togglePlayPause.
  - unfold adjustStartTime. now destruct (selection (view w)).
  - unfold adjustEndTime. now destruct (selection (view w)).
  - destruct (words (transcriptData w) !! index) as [word|]; [|reflexivity].
    unfold handleWordClick. destruct (isPlaying (view w)); [|reflexivity].
    now rewrite lcore_playSelection.
  - unfold processWordSelection.
    destruct (words (transcriptData w) !! Nat.min startIndex endIndex);
      [|reflexivity].
    destruct (words (transcriptData w) !! Nat.max startIndex endIndex);
      [|reflexivity].
    destruct (isPlaying (view w)); [|reflexivity].
    match goal with
    | |- lcore (setIsPlaying false (stopCurrentSource ?x)) = _ =>
        change (lcore (stopCurrentSource x) = lcore w);
        now rewrite lcore_stopCurrentSource
    end.
  - unfold handleDownload.
    destruct (selection (view w)); [|reflexivity].
    destruct (audioBufferRef (refs w)); [|reflexivity].
    destruct (segmentBuffer _ _); [|reflexivity].
    now destruct (audioBufferToWav _).
  - now destruct (Qleb 0 dt).
  - destruct (rafRef (refs w)); [|reflexivity].
    unfold tick.
    destruct (negb cl_isPlaying || negb (is_some cl_selection)
              || negb (audioCtxRef (refs w))); [reflexivity|].
    set (w1 := highlightCurrentWord _ (setCurrentTime _ w)).
    assert (E1 : lcore w1 = lcore w).
    { unfold w1, highlightCurrentWord. now destruct (wordIndexAt _ _). }
    destruct (match selectionRef (refs w1) with
              | Some cs => Qleb (msToSeconds (sel_end cs)) _
              | None => false
              end); [|exact E1].
    unfold cancelRaf, stop_node. now destruct_matches.
  - unfold deliver_ended.
    destruct (nodes (host w) !! id) as [n|]; [|reflexivity].
    set (w1 := set_nodes _ w).
    destruct (node_status n); try reflexivity;
      unfold source_onended;
      (destruct (sourceRef (refs w1)) as [cur|]; [|reflexivity]);
      (destruct (Nat.eqb cur id); [|reflexivity]);
      now rewrite lcore_handleEnded.
  - unfold deliver_timeout.
    destruct (timers (host w) !! id) as [t|]; [|reflexivity].
    destruct (timer_pending t); [|reflexivity].
    unfold loopRestart.
    set (w1 := setIsPausing false (set_timers _ w)).
    destruct (timer_selection t) as [sel|]; [|reflexivity].
    destruct (audioCtxRef (refs w1) && is_some (audioBufferRef (refs w1)));
      [|reflexivity].
    now rewrite lcore_playSelection.
Qed.

Lemma reachable_loaded_ok (w : World) : reachable w -> loaded_ok w.
Proof.
  induction 1 as [td sup | w e _ IH].
  - intros H. discriminate H.
  - destruct (match e with EvAudioLoaded _ => true | _ => false end) eqn:He.
    + destruct e; try discriminate He. intros _. cbn. discriminate.
    + assert (Hne : forall enc, e <> EvAudioLoaded enc)
        by (intros enc ->; discriminate He).
      pose proof (lcore_step e w Hne) as E. unfold lcore in E.
      inversion E as [[E1 E2]].
      unfold loaded_ok. rewrite E1, E2. exact IH.
Qed.

Lemma audioError_prepareAudio (enc : EncodedAudio) (w : World) :
  audioError (view (fst (prepareAudio enc w))) = audioError (view w) \/
  audioError (view (fst (prepareAudio enc w)))
  = Some "Web Audio API is not supported in this browser"%string \/
  audioError (view (fst (prepareAudio enc w)))
  = Some "Failed to decode audio. The file may be corrupted or in an unsupported format."%string.
Proof.
  unfold prepareAudio, getOrCreateAudioContext.
  destruct (audioCtxRef (refs w)); cbn.
  - destruct (audioBufferRef (refs w)); [now left|].
    destruct (decodes_to enc); cbn; auto.
  - destruct (webAudioSupported (host w)); cbn; [|auto].
    destruct (audioBufferRef (refs w)); [now left|].
    destruct (decodes_to enc); cbn; auto.
Qed.

(** X20.  Whenever the play button is rendered enabled in a reachable
    viewer, a selection and the audio bytes are there and nothing is being
    decoded; so pressing it never ends in the "No audio data or selection
    available" error. *)
Theorem enabled_play_button_has_what_it_needs (w : World) :
  reachable w ->
  playDisabled w = false ->
  (exists sel enc,
     selection (view w) = Some sel /\ audioArrayBuffer (view w) = Some enc) /\
  isDecoding (view w) = false /\
  audioError (view (togglePlayPause w))
  <> Some "No audio data or selection available"%string.
Proof.
  intros Hr Hen. unfold playDisabled in Hen.
  apply orb_false_iff in Hen as [Hen Hdec].
  apply orb_false_iff in Hen as [Hen Herr].
  apply orb_false_iff in Hen as [Hload Hsel].
  apply negb_false_iff in Hload, Hsel.
  pose proof (reachable_loaded_ok w Hr Hload) as Hbytes.
  destruct (selection (view w)) as [sel|] eqn:Esel; [|discriminate].
  destruct (audioArrayBuffer (view w)) as [enc|] eqn:Eenc; [|congruence].
  split; [now exists sel, enc|]. split; [exact Hdec|].
  assert (Hquiet : audioError (view w)
                   <> Some "No audio data or selection available"%string).
  { intros E. rewrite E in Herr. discriminate. }
  unfold togglePlayPause.
  set (w1 := clear_pending_timeout w).
  assert (Hv : view w1 = view w).
  { unfold w1, clear_pending_timeout, clearTimeout.
    destruct (timeoutRef (refs w)); [|reflexivity].
    now destruct (timers (host w) !! n). }
  rewrite Hv. destruct (isPlaying (view w) || isPausing (view w)).
  - assert (E : audioError (view (stopCurrentSource w1)) = audioError (view w1)).
    { unfold stopCurrentSource, cancelRaf, clear_pending_timeout, clearTimeout,
        stop_node, disconnect_node.
      destruct (rafRef (refs w1)); cbn;
        destruct (timeoutRef (refs w1)); cbn;
        repeat match goal with
        | |- context [match ?x with _ => _ end] => destruct x eqn:?; cbn
        end; reflexivity. }
    rewrite E, Hv. exact Hquiet.
  - change (selection (view (setAudioError None w1)))
      with (selection (view w1)).
    change (audioArrayBuffer (view (setAudioError None w1)))
      with (audioArrayBuffer (view w1)).
    rewrite Hv, Esel, Eenc.
    pose proof (audioError_prepareAudio enc (setAudioError None w1)) as Hcases.
    destruct (prepareAudio enc (setAudioError None w1)) as [w' [b|]];
      cbn [fst] in Hcases; cbn;
      destruct Hcases as [-> | [-> | ->]]; cbn; discriminate.
Qed.

Lemma enabled_play_button_has_what_it_needs_witness :
  (exists sel enc,
     selection (view first_pause_world) = Some sel /\
     audioArrayBuffer (view first_pause_world) = Some enc) /\
  isDecoding (view first_pause_world) = false /\
  audioError (view (togglePlayPause first_pause_world))
  <> Some "No audio data or selection available"%string.
Proof.
  apply (enabled_play_button_has_what_it_needs first_pause_world).
  - apply reachable_run. constructor.
  - reflexivity.
Defined.

(** ** Word separators *)

Lemma length_toLowerCase (s : string) :
  String.length (toLowerCase s) = String.length s.
Proof. induction s as [|c s IH]; cbn; [reflexivity | now rewrite IH]. Qed.

(** X21.  Words are joined without a space only for the seven language
    codes ja, zh, ko, th, lo, km and my, whatever their case; every other
    code gets a space, in particular a missing code and any code that is
    not two characters long, such as a code with a region suffix. *)
Theorem word_separator_by_language :
  (forall code, getWordSeparator code = EmptyString <->
     exists c, code = Some c /\
       In (toLowerCase c) ["ja"; "zh"; "ko"; "th"; "lo"; "km"; "my"]%string) /\
  (forall code, getWordSeparator code = EmptyString \/
                getWordSeparator code = " "%string) /\
  (forall c, getWordSeparator (Some (toLowerCase c)) = getWordSeparator (Some c)) /\
  (forall c, String.length c <> 2%nat -> getWordSeparator (Some c) = " "%string) /\
  getWordSeparator None = " "%string.
Proof.
  assert (Hiff : forall code, getWordSeparator code = EmptyString <->
            exists c, code = Some c /\
              In (toLowerCase c) ["ja"; "zh"; "ko"; "th"; "lo"; "km"; "my"]%string).
  { intros code. unfold getWordSeparator, shouldUseWordSpacing.
    destruct (existsb _ _) eqn:Hex; cbn.
    - split; [intros _ | reflexivity].
      apply existsb_exists in Hex as (x & Hin & Heq).
      apply String.eqb_eq in Heq. subst x.
      destruct code as [c|]; [now exists c|].
      cbn in Hin. repeat destruct Hin as [Hin | Hin]; discriminate || contradiction.
    - split; [discriminate|]. intros (c & -> & Hin). exfalso.
      assert (Htrue : existsb (String.eqb (toLowerCase c))
                        ["ja"; "zh"; "ko"; "th"; "lo"; "km"; "my"]%string = true).
      { apply existsb_exists. exists (toLowerCase c).
        split; [exact Hin | apply String.eqb_refl]. }
      congruence. }
  split_and!.
  - exact Hiff.
  - intros code. unfold getWordSeparator.
    destruct (shouldUseWordSpacing code); auto.
  - intros c. unfold getWordSeparator, shouldUseWordSpacing.
    now rewrite toLowerCase_idem.
  - intros c Hlen.
    assert (Hcases : getWordSeparator (Some c) = EmptyString \/
                     getWordSeparator (Some c) = " "%string).
    { unfold getWordSeparator. destruct (shouldUseWordSpacing (Some c)); auto. }
    destruct Hcases as [E | E]; [|exact E].
    apply Hiff in E as (c' & [= <-] & Hin). exfalso. apply Hlen.
    rewrite <- (length_toLowerCase c).
    cbn in Hin. repeat destruct Hin as [Hin | Hin];
      try (rewrite <- Hin; reflexivity); contradiction.
  - reflexivity.
Qed.
